(** * Colour-strip analyser: pad detection and calibration fitting

    A shallow embedding of [analyze_strip_image]
    (ColorAnalyzerApp/backend/main.py) and the properties of its
    pad-selection, colour-sampling and calibration stages.

    Numbers.  Python floats are modelled by exact rationals [Q]; rounding of
    IEEE-754 arithmetic is not modelled.  Integers are [Z].

    Library calls.  OpenCV delivers the contours and their measurements; they
    are the input of the model ([contour], [image]).  [np.polyfit] and
    [np.sqrt] are parameters of the calibration section; [lstsq2] is the exact
    least-squares solution that [np.polyfit(_, _, deg=2)] approximates, and
    [np_polyfit] adds the cases in which [np.polyfit] raises. *)

From Stdlib Require Import String.
From Stdlib Require Import List ZArith QArith Qabs Qround Qminmax Bool.
From Stdlib Require Import Lia Lqa Permutation Sorted Morphisms Setoid.
Import ListNotations.

Open Scope Q_scope.

(* ================================================================= *)
(** ** Exceptions *)

Inductive exn : Type :=
| ValueError (msg : string)
| ZeroDivisionError
| IndexError
| TypeError (msg : string).

Inductive outcome (A : Type) : Type :=
| Return (a : A)
| Raise (e : exn).

Arguments Return {A} a.
Arguments Raise {A} e.

Definition bind {A B : Type} (m : outcome A) (k : A -> outcome B) : outcome B :=
  match m with
  | Return a => k a
  | Raise e => Raise e
  end.

Notation "x <- m ;; k" := (bind m (fun x => k))
  (at level 61, m at next level, right associativity).

Definition succeeds {A : Type} (m : outcome A) : Prop :=
  exists a, m = Return a.

(* ================================================================= *)
(** ** Python and numpy primitives *)

Definition Qltb (a b : Q) : bool := negb (Qle_bool b a).

(** [a / b] on Python floats. *)
Definition py_div (a b : Q) : outcome Q :=
  if Qeq_bool b 0 then Raise ZeroDivisionError else Return (a / b).

(** [int(q)]: truncation toward zero. *)
Definition py_int (q : Q) : Z := Z.quot (Qnum q) (Zpos (Qden q)).

(** [round(q)] with one argument: nearest integer, ties to even. *)
Definition py_round (q : Q) : Z :=
  let f := Qfloor q in
  let d := q - inject_Z f in
  if Qltb d (1 # 2) then f
  else if Qltb (1 # 2) d then (f + 1)%Z
  else if Z.even f then f else (f + 1)%Z.

(** [max(a, b)] on Python ints. *)
Definition py_max (a b : Z) : Z := if (a <? b)%Z then b else a.

(** [np.pi]: the binary64 constant, exactly. *)
Definition np_pi : Q := 884279719003555 # 281474976710656.

(** [l[i]]. *)
Definition py_index {A : Type} (l : list A) (i : nat) : outcome A :=
  match nth_error l i with
  | Some a => Return a
  | None => Raise IndexError
  end.

(** [sorted(l, key=...)]: a stable sort.  [leb a b] is [key a <= key b].
    An element is inserted before the first element of the already sorted
    tail whose key is not smaller, so equal keys keep their input order. *)
Section StableSort.
Context {A : Type} (leb : A -> A -> bool).

Fixpoint insert_sorted (a : A) (l : list A) : list A :=
  match l with
  | [] => [a]
  | b :: l' => if leb a b then a :: b :: l' else b :: insert_sorted a l'
  end.

Fixpoint sorted (l : list A) : list A :=
  match l with
  | [] => []
  | a :: l' => insert_sorted a (sorted l')
  end.
End StableSort.

(* ================================================================= *)
(** ** Constants of [analyze_strip_image] *)

Definition EXPECTED_COLS : nat := 11.
Definition CONCENTRATIONS : list Q :=
  [1 # 2; 1; 2; 3; 4; 5; 6; 7; 8; 9; 10].
Definition SAT_THRESH : Z := 35.
Definition VAL_THRESH : Z := 40.
Definition MIN_BLOB_AREA : Q := 60.

(* ================================================================= *)
(** ** Pad segmenter *)

(** [mask = ((S > SAT_THRESH) & (V > VAL_THRESH)).astype("uint8") * 255],
    at one pixel. *)
Definition mask_pixel (s v : Z) : Z :=
  ((if (SAT_THRESH <? s)%Z && (VAL_THRESH <? v)%Z then 1 else 0) * 255)%Z.

(** What OpenCV reports of one contour of the cleaned mask. *)
Record contour : Type := mkContour {
  contourArea : Q;                 (* cv2.contourArea(c) *)
  arcLength : Q;                   (* cv2.arcLength(c, True) *)
  minEnclosingCircle : (Q * Q) * Q (* cv2.minEnclosingCircle(c) *)
}.

(** The tuple [(int(x), int(y), int(round(r)), float(area), float(circ))]. *)
Record blob : Type := mkBlob {
  b_x : Z;
  b_y : Z;
  b_r : Z;
  b_area : Q;
  b_circ : Q
}.

(** The loop over [cnts], appending to [blobs]. *)
Fixpoint detect_blobs (cnts : list contour) (blobs : list blob)
  : outcome (list blob) :=
  match cnts with
  | [] => Return blobs
  | c :: rest =>
      let area := contourArea c in
      if Qltb area 5 then detect_blobs rest blobs
      else
        let peri := arcLength c in
        if Qeq_bool peri 0 then detect_blobs rest blobs
        else
          circ <- py_div (4 * np_pi * area) (peri * peri) ;;
          let '((x, y), r) := minEnclosingCircle c in
          if Qle_bool MIN_BLOB_AREA area && Qle_bool (3 # 10) circ
          then detect_blobs rest
                 (blobs ++ [mkBlob (py_int x) (py_int y) (py_round r) area circ])
          else detect_blobs rest blobs
  end.

(** Circularity as the specification defines it. *)
Definition circularity (c : contour) : Q :=
  4 * np_pi * contourArea c / (arcLength c * arcLength c).

(** The retention condition in the specification's words. *)
Definition retained (c : contour) : bool :=
  negb (Qeq_bool (arcLength c) 0)
  && Qle_bool 60 (contourArea c)
  && Qle_bool (3 # 10) (circularity c).

Definition blob_of (c : contour) : blob :=
  let '((x, y), r) := minEnclosingCircle c in
  mkBlob (py_int x) (py_int y) (py_round r) (contourArea c) (circularity c).

(* ================================================================= *)
(** ** Pad selector / orderer *)

Definition x_leb (a b : blob) : bool := (b_x a <=? b_x b)%Z.

(** Left-to-right order of blobs, and their row coordinates. *)
Definition x_le (a b : blob) : Prop := (b_x a <= b_x b)%Z.

Definition y_values (blobs : list blob) : list Q :=
  map (fun b => inject_Z (b_y b)) blobs.

(** [np.median]: middle element of the sorted data, or the mean of the two
    middle elements when the count is even. *)
Definition np_median (ys : list Q) : Q :=
  let s := sorted Qle_bool ys in
  let n := length s in
  if Nat.even n
  then (nth (n / 2 - 1) s 0 + nth (n / 2) s 0) / 2
  else nth (n / 2) s 0.

(** [abs(b[1] - median_y)]. *)
Definition deviation (median_y : Q) (b : blob) : Q :=
  Qabs (inject_Z (b_y b) - median_y).

Definition dev_leb (median_y : Q) (a b : blob) : bool :=
  Qle_bool (deviation median_y a) (deviation median_y b).

(** Lines 102-108: sort left-to-right, cap at [EXPECTED_COLS] by closeness
    to the median row, sort left-to-right again. *)
Definition select_blobs (blobs : list blob) : list blob :=
  let blobs := sorted x_leb blobs in
  if (EXPECTED_COLS <? length blobs)%nat then
    let ys := map (fun b => inject_Z (b_y b)) blobs in
    let median_y := np_median ys in
    let blobs := firstn EXPECTED_COLS (sorted (dev_leb median_y) blobs) in
    sorted x_leb blobs
  else blobs.

(* ================================================================= *)
(** ** Colour sampler *)

(** The working image: rows of (B, G, R) pixels; a plane: rows of values. *)
Definition image : Type := list (list (Z * Z * Z)).
Definition plane : Type := list (list Z).

Record color_stats : Type := mkStats {
  r_mean : Q; g_mean : Q; b_mean : Q; s_mean : Q;
  r_std : Q; g_std : Q; b_std : Q
}.

Definition zero_stats : color_stats := mkStats 0 0 0 0 0 0 0.

Definition Qsum (l : list Q) : Q := fold_right Qplus 0 l.

(** [np.mean] of a one-dimensional array. *)
Definition np_mean (l : list Q) : Q :=
  Qsum l / inject_Z (Z.of_nat (length l)).

(** [rr = max(1, int(r * 0.72))]. *)
Definition sample_radius (r : Z) : Z :=
  py_max 1 (py_int (inject_Z r * (72 # 100))).

(** [dist2 <= rr * rr] over [np.ogrid[:h_img, :w_img]]: the (row, column)
    positions selected by the boolean mask, in row-major order. *)
Definition mask_circle (h_img w_img : nat) (cx cy rr : Z) : list (nat * nat) :=
  flat_map
    (fun Y =>
       flat_map
         (fun X =>
            let dist2 :=
              ((Z.of_nat X - cx) ^ 2 + (Z.of_nat Y - cy) ^ 2)%Z in
            if (dist2 <=? rr * rr)%Z then [(Y, X)] else [])
         (seq 0 w_img))
    (seq 0 h_img).

Definition pixel_at (img : image) (p : nat * nat) : Z * Z * Z :=
  nth (snd p) (nth (fst p) img []) (0, 0, 0)%Z.

Definition value_at (pl : plane) (p : nat * nat) : Z :=
  nth (snd p) (nth (fst p) pl []) 0%Z.

Definition chan_b (px : Z * Z * Z) : Q := inject_Z (fst (fst px)).
Definition chan_g (px : Z * Z * Z) : Q := inject_Z (snd (fst px)).
Definition chan_r (px : Z * Z * Z) : Q := inject_Z (snd px).

Section Numeric.
(** [np.sqrt]. *)
Variable np_sqrt : Q -> Q.

(** [np.std]: square root of the mean squared deviation from the mean. *)
Definition np_std (l : list Q) : Q :=
  let m := np_mean l in
  np_sqrt (np_mean (map (fun v => (v - m) * (v - m)) l)).

(** Body of the loop over the selected blobs. *)
Definition sample_blob (img_bgr : image) (S : plane) (b : blob)
  : color_stats :=
  let h_img := length img_bgr in
  let w_img := length (hd [] img_bgr) in
  let rr := sample_radius (b_r b) in
  let mask := mask_circle h_img w_img (b_x b) (b_y b) rr in
  let b_vals := map (fun p => chan_b (pixel_at img_bgr p)) mask in
  let g_vals := map (fun p => chan_g (pixel_at img_bgr p)) mask in
  let r_vals := map (fun p => chan_r (pixel_at img_bgr p)) mask in
  let s_vals := map (fun p => inject_Z (value_at S p)) mask in
  if (0 <? length b_vals)%nat then
    mkStats (np_mean r_vals) (np_mean g_vals) (np_mean b_vals)
            (np_mean s_vals)
            (np_std r_vals) (np_std g_vals) (np_std b_vals)
  else zero_stats.

Definition sample_blobs (img_bgr : image) (S : plane) (blobs : list blob)
  : list color_stats :=
  map (sample_blob img_bgr S) blobs.
End Numeric.

(** Lines 142-147: truncate or pad to [EXPECTED_COLS]. *)
Definition pad_or_truncate (rgb_data : list color_stats) : list color_stats :=
  if (EXPECTED_COLS <? length rgb_data)%nat
  then firstn EXPECTED_COLS rgb_data
  else if (length rgb_data <? EXPECTED_COLS)%nat
       then rgb_data ++ repeat zero_stats (EXPECTED_COLS - length rgb_data)
       else rgb_data.

(* ================================================================= *)
(** ** Calibration fitter *)

Fixpoint zip_with {A B C : Type} (f : A -> B -> C) (l1 : list A) (l2 : list B)
  : list C :=
  match l1, l2 with
  | a :: l1', b :: l2' => f a b :: zip_with f l1' l2'
  | _, _ => []
  end.

Fixpoint mapM {A B : Type} (f : A -> outcome B) (l : list A)
  : outcome (list B) :=
  match l with
  | [] => Return []
  | a :: l' => b <- f a ;; bs <- mapM f l' ;; Return (b :: bs)
  end.

(** [np.poly1d(coeffs)(x)]: Horner's rule, highest degree first. *)
Definition poly1d (coeffs : list Q) (x : Q) : Q :=
  fold_left (fun acc c => acc * x + c) coeffs 0.

Definition sq_diff (t p : Q) : Q := (t - p) * (t - p).

(** [sklearn.metrics.r2_score], single output, default arguments: a zero
    total sum of squares gives 1.0 for a perfect fit and 0.0 otherwise. *)
Definition r2_score (y_true y_pred : list Q) : Q :=
  let numerator := Qsum (zip_with sq_diff y_true y_pred) in
  let m := np_mean y_true in
  let denominator := Qsum (map (fun t => sq_diff t m) y_true) in
  if Qeq_bool denominator 0
  then if Qeq_bool numerator 0 then 1 else 0
  else 1 - numerator / denominator.

Definition mean_absolute_error (y_true y_pred : list Q) : Q :=
  np_mean (zip_with (fun t p => Qabs (p - t)) y_true y_pred).

Definition mean_squared_error (y_true y_pred : list Q) : Q :=
  np_mean (zip_with sq_diff y_true y_pred).

(** [a.min()] and [a.max()]; numpy refuses an empty array. *)
Definition np_min (l : list Q) : outcome Q :=
  match l with
  | [] => Raise (ValueError "zero-size array to reduction operation minimum which has no identity")
  | a :: l' => Return (fold_left Qmin l' a)
  end.

Definition np_max (l : list Q) : outcome Q :=
  match l with
  | [] => Raise (ValueError "zero-size array to reduction operation maximum which has no identity")
  | a :: l' => Return (fold_left Qmax l' a)
  end.

(** [np.linspace(start, stop, num)]. *)
Definition np_linspace (start stop : Q) (num : nat) : list Q :=
  let step := (stop - start) / inject_Z (Z.of_nat (num - 1)) in
  map (fun i => start + inject_Z (Z.of_nat i) * step) (seq 0 num).

(** [np.clip(a, a_min, a_max)] at one element:
    [minimum(maximum(a, a_min), a_max)]. *)
Definition np_clip (a a_min a_max : Q) : Q := Qmin (Qmax a a_min) a_max.

Record ChannelFit : Type := mkChannelFit {
  coeffs : list Q;
  inv_coeffs : list Q;
  r2 : Q;
  mae : Q;
  rmse : Q;
  fit_x : list Q;
  fit_y : list Q;
  actual_x : list Q;
  actual_y : list Q;
  predicted_concentration : list Q
}.

Record well_record : Type := mkWell {
  well : nat;
  concentration : Q;
  w_r : Q;
  w_g : Q;
  w_b : Q;
  w_rgb_mean : Q;
  w_s_mean : Q;
  pred_from_r : Q;
  pred_from_g : Q;
  pred_from_b : Q;
  pred_from_rgb : Q
}.

Record metrics : Type := mkMetrics {
  m_r2 : Q;
  m_mae : Q;
  m_rmse : Q
}.

Record report : Type := mkReport {
  color_values : list well_record;
  r_channel : ChannelFit;
  g_channel : ChannelFit;
  b_channel : ChannelFit;
  rgb_mean_channel : ChannelFit;
  trial_metrics : metrics
}.

Definition no_pads_message : string :=
  "No valid color pads detected on the strip.".

Section Calibration.
(** [np.sqrt] and [np.polyfit(x, y, deg=2)] (coefficients, highest degree
    first) on the runs where it returns; the runs where it raises are
    added in [fit_and_evaluate_np] below. *)
Variable np_sqrt : Q -> Q.
Variable polyfit : list Q -> list Q -> list Q.

Definition fit_and_evaluate (y_vals x_vals : list Q) (channel_name : string)
  : outcome ChannelFit :=
  let coeffs := polyfit x_vals y_vals in
  let poly := poly1d coeffs in
  let y_pred := map poly x_vals in
  let r2 := r2_score y_vals y_pred in
  let mae := mean_absolute_error y_vals y_pred in
  let rmse := np_sqrt (mean_squared_error y_vals y_pred) in
  x_lo <- np_min x_vals ;;
  x_hi <- np_max x_vals ;;
  let x_fit := np_linspace x_lo x_hi 50 in
  let y_fit := map poly x_fit in
  let inv_coeffs := polyfit y_vals x_vals in
  let inv_poly := poly1d inv_coeffs in
  let pred_conc := map inv_poly y_vals in
  Return (mkChannelFit coeffs inv_coeffs r2 mae rmse x_fit y_fit
            x_vals y_vals
            (map (fun v => np_clip v 0 10) pred_conc)).

(** The element of [color_values] for index [i]. *)
Definition well_entry (rgb_data : list color_stats) (rgb_mean : list Q)
    (r_fit g_fit b_fit rgb_fit : ChannelFit) (i : nat)
  : outcome well_record :=
  c <- py_index CONCENTRATIONS i ;;
  d <- py_index rgb_data i ;;
  m <- py_index rgb_mean i ;;
  pr <- py_index (predicted_concentration r_fit) i ;;
  pg <- py_index (predicted_concentration g_fit) i ;;
  pb <- py_index (predicted_concentration b_fit) i ;;
  prgb <- py_index (predicted_concentration rgb_fit) i ;;
  Return (mkWell (i + 1) c (r_mean d) (g_mean d) (b_mean d) m (s_mean d)
            pr pg pb prgb).

(** Lines 149-219: calibration and report assembly from the padded
    colour statistics. *)
Definition calibrate (rgb_data : list color_stats) : outcome report :=
  let x := CONCENTRATIONS in
  let r_values := map r_mean rgb_data in
  let g_values := map g_mean rgb_data in
  let b_values := map b_mean rgb_data in
  let rgb_mean :=
    zip_with (fun rg b => (rg + b) / 3)
      (zip_with Qplus r_values g_values) b_values in
  r_fit <- fit_and_evaluate r_values x "R" ;;
  g_fit <- fit_and_evaluate g_values x "G" ;;
  b_fit <- fit_and_evaluate b_values x "B" ;;
  rgb_fit <- fit_and_evaluate rgb_mean x "RGB_mean" ;;
  wells <- mapM (well_entry rgb_data rgb_mean r_fit g_fit b_fit rgb_fit)
             (seq 0 (length rgb_data)) ;;
  Return (mkReport wells r_fit g_fit b_fit rgb_fit
            (mkMetrics (r2 r_fit) (mae r_fit) (rmse r_fit))).

(** [analyze_strip_image] from the contours on: [img_bgr] is the working
    image, [S] its saturation plane, [cnts] the contours of the cleaned
    mask. *)
Definition analyze_strip_image (img_bgr : image) (S : plane)
    (cnts : list contour) : outcome report :=
  blobs <- detect_blobs cnts [] ;;
  match blobs with
  | [] => Raise (ValueError no_pads_message)
  | _ :: _ =>
      let blobs := select_blobs blobs in
      let rgb_data := sample_blobs np_sqrt img_bgr S blobs in
      let rgb_data := pad_or_truncate rgb_data in
      calibrate rgb_data
  end.
End Calibration.

(* ================================================================= *)
(** ** Exact least squares *)

(** Power sums and mixed moments of the data. *)
Definition msum (f : Q -> Q) (xs : list Q) : Q := Qsum (map f xs).
Definition mmix (f : Q -> Q) (xs ys : list Q) : Q :=
  Qsum (zip_with (fun x y => f x * y) xs ys).

Definition det3 (a11 a12 a13 a21 a22 a23 a31 a32 a33 : Q) : Q :=
  a11 * (a22 * a33 - a23 * a32)
  - a12 * (a21 * a33 - a23 * a31)
  + a13 * (a21 * a32 - a22 * a31).

(** Determinant of the normal equations' matrix for the basis x^2, x, 1. *)
Definition gram_det (xs : list Q) : Q :=
  let s0 := msum (fun _ => 1) xs in
  let s1 := msum (fun x => x) xs in
  let s2 := msum (fun x => x * x) xs in
  let s3 := msum (fun x => x * x * x) xs in
  let s4 := msum (fun x => x * x * x * x) xs in
  det3 s4 s3 s2  s3 s2 s1  s2 s1 s0.

(** The least-squares quadratic through the points [(xs, ys)]: the normal
    equations solved by Cramer's rule.  This is the value that
    [np.polyfit(xs, ys, deg=2)] approximates when the points have at least
    three distinct abscissae. *)
Definition lstsq2 (xs ys : list Q) : list Q :=
  let s0 := msum (fun _ => 1) xs in
  let s1 := msum (fun x => x) xs in
  let s2 := msum (fun x => x * x) xs in
  let s3 := msum (fun x => x * x * x) xs in
  let s4 := msum (fun x => x * x * x * x) xs in
  let t0 := mmix (fun _ => 1) xs ys in
  let t1 := mmix (fun x => x) xs ys in
  let t2 := mmix (fun x => x * x) xs ys in
  let d := det3 s4 s3 s2  s3 s2 s1  s2 s1 s0 in
  [ det3 t2 s3 s2  t1 s2 s1  t0 s1 s0 / d;
    det3 s4 t2 s2  s3 t1 s1  s2 t0 s0 / d;
    det3 s4 s3 t2  s3 s2 t1  s2 s1 t0 / d ].

(** Integer square root, enough to run the model on examples. *)
Definition sqrt_floor (q : Q) : Q := inject_Z (Z.sqrt (Qfloor q)).

(* ================================================================= *)
(** ** Calibration with the error path of [np.polyfit] *)

(** Text of the [LinAlgError] of numpy's least-squares solver;
    [LinAlgError] is a subclass of [ValueError]. *)
Definition svd_message : string :=
  "SVD did not converge in Linear Least Squares".

Definition all_zero (x : list Q) : bool := forallb (fun v => Qeq_bool v 0) x.

(** [np.polyfit(x, y, deg=2)] around its least-squares solver [lstsq]:
    numpy refuses an empty [x] and arrays of different lengths, then divides
    the columns x^2, x, 1 of the design matrix by their norms before it
    solves.  When every abscissa is 0 the first two norms are 0, the
    division gives NaN and the solver raises [LinAlgError]. *)
Definition np_polyfit (lstsq : list Q -> list Q -> list Q) (x y : list Q)
  : outcome (list Q) :=
  match x with
  | [] => Raise (TypeError "expected non-empty vector for x")
  | _ :: _ =>
      if negb (length x =? length y)%nat
      then Raise (TypeError "expected x and y to have same length")
      else if all_zero x then Raise (ValueError svd_message)
      else Return (lstsq x y)
  end.

Section CalibrationNp.
Variable np_sqrt : Q -> Q.
Variable lstsq : list Q -> list Q -> list Q.

(** [fit_and_evaluate], statement by statement, with [np.polyfit] as
    [np_polyfit]. *)
Definition fit_and_evaluate_np (y_vals x_vals : list Q) (channel_name : string)
  : outcome ChannelFit :=
  coeffs <- np_polyfit lstsq x_vals y_vals ;;
  let poly := poly1d coeffs in
  let y_pred := map poly x_vals in
  let r2 := r2_score y_vals y_pred in
  let mae := mean_absolute_error y_vals y_pred in
  let rmse := np_sqrt (mean_squared_error y_vals y_pred) in
  x_lo <- np_min x_vals ;;
  x_hi <- np_max x_vals ;;
  let x_fit := np_linspace x_lo x_hi 50 in
  let y_fit := map poly x_fit in
  inv_coeffs <- np_polyfit lstsq y_vals x_vals ;;
  let inv_poly := poly1d inv_coeffs in
  let pred_conc := map inv_poly y_vals in
  Return (mkChannelFit coeffs inv_coeffs r2 mae rmse x_fit y_fit
            x_vals y_vals
            (map (fun v => np_clip v 0 10) pred_conc)).

(** Lines 149-219 with the fits of [fit_and_evaluate_np]. *)
Definition calibrate_np (rgb_data : list color_stats) : outcome report :=
  let x := CONCENTRATIONS in
  let r_values := map r_mean rgb_data in
  let g_values := map g_mean rgb_data in
  let b_values := map b_mean rgb_data in
  let rgb_mean :=
    zip_with (fun rg b => (rg + b) / 3)
      (zip_with Qplus r_values g_values) b_values in
  r_fit <- fit_and_evaluate_np r_values x "R" ;;
  g_fit <- fit_and_evaluate_np g_values x "G" ;;
  b_fit <- fit_and_evaluate_np b_values x "B" ;;
  rgb_fit <- fit_and_evaluate_np rgb_mean x "RGB_mean" ;;
  wells <- mapM (well_entry rgb_data rgb_mean r_fit g_fit b_fit rgb_fit)
             (seq 0 (length rgb_data)) ;;
  Return (mkReport wells r_fit g_fit b_fit rgb_fit
            (mkMetrics (r2 r_fit) (mae r_fit) (rmse r_fit))).

(** [analyze_strip_image] from the contours on, with [calibrate_np]. *)
Definition analyze_strip_image_np (img_bgr : image) (S : plane)
    (cnts : list contour) : outcome report :=
  blobs <- detect_blobs cnts [] ;;
  match blobs with
  | [] => Raise (ValueError no_pads_message)
  | _ :: _ =>
      let blobs := select_blobs blobs in
      let rgb_data := sample_blobs np_sqrt img_bgr S blobs in
      let rgb_data := pad_or_truncate rgb_data in
      calibrate_np rgb_data
  end.
End CalibrationNp.

(* ================================================================= *)
(** ** RGB to HSV *)

(** [x % m] on floats: the remainder has the sign of the divisor. *)
Definition np_mod (x m : Q) : Q := x - m * inject_Z (Qfloor (x / m)).

(** One element of [rgb_to_hsv_np]: the statements of the function in
    order, masked assignments as conditionals. *)
Definition rgb_to_hsv_px (r g b : Q) : Q * Q * Q :=
  let r := r / 255 in
  let g := g / 255 in
  let b := b / 255 in
  let cmax := Qmax (Qmax r g) b in
  let cmin := Qmin (Qmin r g) b in
  let diff := cmax - cmin in
  let h := 0 in
  let mask := negb (Qeq_bool diff 0) in
  let r_eq := Qeq_bool cmax r && mask in
  let g_eq := Qeq_bool cmax g && mask in
  let b_eq := Qeq_bool cmax b && mask in
  let h := if r_eq then np_mod ((g - b) / diff) 6 else h in
  let h := if g_eq then (b - r) / diff + 2 else h in
  let h := if b_eq then (r - g) / diff + 4 else h in
  let h := h / 6 in
  let s := 0 in
  let nonzero := negb (Qeq_bool cmax 0) in
  let s := if nonzero then diff / cmax else s in
  let v := cmax in
  (h, s, v).

(** [rgb_to_hsv_np] on one-dimensional arrays; stacking arrays of different
    lengths in [np.max([r, g, b], axis=0)] is refused by numpy. *)
Definition rgb_to_hsv_np (r g b : list Q)
  : outcome (list Q * list Q * list Q) :=
  if (length r =? length g)%nat && (length g =? length b)%nat then
    let px :=
      zip_with (fun rg b => rgb_to_hsv_px (fst rg) (snd rg) b)
        (zip_with pair r g) b in
    Return (map (fun t => fst (fst t)) px,
            map (fun t => snd (fst t)) px,
            map snd px)
  else
    Raise (ValueError "setting an array element with a sequence. The requested array has an inhomogeneous shape after 1 dimensions.").

(** The same hue with the three masked assignments taken in the opposite
    priority: red first, then green, then blue. *)
Definition hue_first_match (r g b : Q) : Q :=
  let r := r / 255 in
  let g := g / 255 in
  let b := b / 255 in
  let cmax := Qmax (Qmax r g) b in
  let cmin := Qmin (Qmin r g) b in
  let diff := cmax - cmin in
  (if Qeq_bool diff 0 then 0
   else if Qeq_bool cmax r then np_mod ((g - b) / diff) 6
   else if Qeq_bool cmax g then (b - r) / diff + 2
   else (r - g) / diff + 4) / 6.

(* ================================================================= *)
(** ** The analysis from the decoded image, and the endpoint *)

(** [str(e)] of the exceptions of the model. *)
Definition str_exn (e : exn) : string :=
  match e with
  | ValueError msg => msg
  | ZeroDivisionError => "float division by zero"
  | IndexError => "list index out of range"
  | TypeError msg => msg
  end.

(** A [JSONResponse]: status code and either [{"error": message}] or the
    report. *)
Record response : Type := mkResponse {
  status_code : Z;
  content : string + report
}.

Section Service.
Variable np_sqrt : Q -> Q.
Variable polyfit : list Q -> list Q -> list Q.

(** OpenCV:
    [cv2.resize(img, None, fx=scale, fy=scale, interpolation=cv2.INTER_AREA)]
    or the exception it raises,
    [cv2.split(cv2.cvtColor(img, cv2.COLOR_BGR2HSV))],
    the contours found in the opened and closed mask, with their
    measurements, and [cv2.imdecode(_, cv2.IMREAD_COLOR)]. *)
Variable cv_resize : image -> Q -> outcome image.
Variable cv_split_hsv : image -> plane * plane * plane.
Variable cv_contours : plane -> list contour.
Variable cv_imdecode : list Byte.byte -> option image.

(** Lines 65-69: resize for consistency.  [cv2.resize] may raise (it
    refuses a target size that rounds to zero pixels). *)
Definition resize_for_consistency (img_bgr : image) : outcome image :=
  let h0 := Z.of_nat (length img_bgr) in
  let w0 := Z.of_nat (length (hd [] img_bgr)) in
  scale <- py_div 800 (inject_Z (py_max h0 w0)) ;;
  if Qltb scale 1 then cv_resize img_bgr scale else Return img_bgr.

(** Line 75: the threshold mask of the saturation and value planes. *)
Definition threshold_mask (S V : plane) : plane :=
  zip_with (zip_with mask_pixel) S V.

(** [analyze_strip_image] from the decoded image on. *)
Definition analyze_strip_image_raw (img_bgr : image) : outcome report :=
  img_bgr <- resize_for_consistency img_bgr ;;
  let hsv := cv_split_hsv img_bgr in
  let S := snd (fst hsv) in
  let V := snd hsv in
  let mask := threshold_mask S V in
  let cnts := cv_contours mask in
  analyze_strip_image np_sqrt polyfit img_bgr S cnts.

(** The [/analyze] handler on the uploaded bytes. *)
Definition analyze (contents : list Byte.byte) : response :=
  match contents with
  | [] => mkResponse 400 (inl "Empty file"%string)
  | _ :: _ =>
      match cv_imdecode contents with
      | None => mkResponse 400 (inl "Failed to decode image"%string)
      | Some img_bgr =>
          match analyze_strip_image_raw img_bgr with
          | Return result => mkResponse 200 (inr result)
          | Raise e => mkResponse 500 (inl (str_exn e))
          end
      end
  end.
End Service.

(* ================================================================= *)
(** ** Notions used in the statements *)

Definition in_range (v : Q) : Prop := 0 <= v /\ v <= 10.

(** The [rgb_mean] array of [calibrate]. *)
Definition rgb_mean_of (rgb_data : list color_stats) : list Q :=
  zip_with (fun rg b => (rg + b) / 3)
    (zip_with Qplus (map r_mean rgb_data) (map g_mean rgb_data))
    (map b_mean rgb_data).

(** One of the four fitted channels is 0 in every record. *)
Definition zero_channel (rgb_data : list color_stats) : bool :=
  all_zero (map r_mean rgb_data)
  || all_zero (map g_mean rgb_data)
  || all_zero (map b_mean rgb_data)
  || all_zero (rgb_mean_of rgb_data).

(** The well record of index [i], with total list access. *)
Definition well_of (rgb_data : list color_stats)
    (r_fit g_fit b_fit rgb_fit : ChannelFit) (i : nat) : well_record :=
  let d := nth i rgb_data zero_stats in
  mkWell (i + 1) (nth i CONCENTRATIONS 0)
    (r_mean d) (g_mean d) (b_mean d)
    (nth i (rgb_mean_of rgb_data) 0) (s_mean d)
    (nth i (predicted_concentration r_fit) 0)
    (nth i (predicted_concentration g_fit) 0)
    (nth i (predicted_concentration b_fit) 0)
    (nth i (predicted_concentration rgb_fit) 0).

(** Sums of squared Vandermonde products, as polynomials in the power sums:
    [vand2 xs x] is the sum over pairs of points of [xs], [vand1 xs x y] the
    sum over single points of [xs]. *)
Definition vand1 (xs : list Q) (x y : Q) : Q :=
  let s0 := msum (fun _ => 1) xs in
  let s1 := msum (fun x => x) xs in
  let s2 := msum (fun x => x * x) xs in
  let s3 := msum (fun x => x * x * x) xs in
  let s4 := msum (fun x => x * x * x * x) xs in
  (x - y) * (x - y)
  * (s4 - 2 * (x + y) * s3 + (x * x + 4 * x * y + y * y) * s2
     - 2 * x * y * (x + y) * s1 + x * x * y * y * s0).

Definition vand2 (xs : list Q) (x : Q) : Q :=
  let s0 := msum (fun _ => 1) xs in
  let s1 := msum (fun x => x) xs in
  let s2 := msum (fun x => x * x) xs in
  let s3 := msum (fun x => x * x * x) xs in
  let s4 := msum (fun x => x * x * x * x) xs in
  (s2 * s0 - s1 * s1) * (x * x * x * x)
  - 2 * (s3 * s0 - s1 * s2) * (x * x * x)
  + (2 * (s3 * s1 - s2 * s2) + (s4 * s0 - s2 * s2)) * (x * x)
  - 2 * (s4 * s1 - s3 * s2) * x
  + (s4 * s2 - s3 * s3).

Definition distinct (xs : list Q) : Prop :=
  ForallOrdPairs (fun x y => ~ x == y) xs.

(** Moments of exactly quadratic data. *)
Definition quadratic (a b c x : Q) : Q := a * x * x + b * x + c.

(** Sum of squared residuals of a polynomial on the data. *)
Definition residual_ss (cs xs ys : list Q) : Q :=
  Qsum (zip_with sq_diff ys (map (poly1d cs) xs)).

Definition uint8 (z : Z) : Prop := (0 <= z <= 255)%Z.

(* ================================================================= *)
(** ** Sample data *)

Definition strip14 : list blob :=
  map (fun p => mkBlob (fst p) (snd p) 3 60 1)
    [(5, 10); (3, 10); (1, 50); (2, 10); (9, 11); (8, 9); (7, 10); (6, 10);
     (4, 10); (10, 10); (11, 12); (12, 10); (13, 8); (0, 10)]%Z.

Definition tiny_image : image := repeat (repeat (10, 20, 30)%Z 6) 4.
Definition tiny_plane : plane := repeat (repeat 50%Z 6) 4.

(** An image without blue (pixels are B, G, R). *)
Definition blueless_image : image := repeat (repeat (0, 20, 30)%Z 6) 4.

Definition sample_contours : list contour :=
  [ mkContour 100 40 ((5 # 2), (3 # 2), 2);
    mkContour 4 0 (1, 1, 1);
    mkContour 70 0 (1, 1, 1);
    mkContour 61 1000 (1, 1, 1);
    mkContour 80 30 ((1 # 2), 1, (5 # 2)) ].

Definition rejected_contours : list contour :=
  [ mkContour 4 12 (1, 1, 1);
    mkContour 70 0 (1, 1, 1);
    mkContour 61 1000 (1, 1, 1);
    mkContour 59 20 (3, 3, 4) ].

Definition quadratic_readings : list Q :=
  map (fun x => 2 * x * x - 3 * x + 7) CONCENTRATIONS.

(** Sample channel arrays: red, green, blue, yellow, black, grey, magenta,
    and an orange tone. *)
Definition hsv_r : list Q := [255; 0; 0; 255; 0; 128; 255; 200].
Definition hsv_g : list Q := [0; 255; 0; 255; 0; 128; 0; 100].
Definition hsv_b : list Q := [0; 0; 255; 0; 0; 128; 255; 50].

(** Stand-ins for the OpenCV calls, to run the model on examples: no
    resizing, value = largest channel and saturation = 255 (max - min) / max
    truncated, one fixed contour whenever the mask has a set pixel, and a
    decoder that reads each byte as one grey pixel of a single row. *)
Definition stub_resize (img : image) (scale : Q) : outcome image :=
  Return img.

Definition stub_split_hsv (img : image) : plane * plane * plane :=
  let vmax := fun px : Z * Z * Z =>
                Z.max (Z.max (fst (fst px)) (snd (fst px))) (snd px) in
  let vmin := fun px : Z * Z * Z =>
                Z.min (Z.min (fst (fst px)) (snd (fst px))) (snd px) in
  (map (map (fun _ => 0%Z)) img,
   map (map (fun px => if (vmax px =? 0)%Z then 0%Z
                       else (255 * (vmax px - vmin px) / vmax px)%Z)) img,
   map (map vmax) img).

Definition stub_contours (mask : plane) : list contour :=
  if forallb (forallb (Z.eqb 0)) mask then []
  else [mkContour 100 40 (1, 1, 2)].

Definition stub_imdecode (contents : list Byte.byte) : option image :=
  match contents with
  | Byte.x00 :: _ => None
  | _ => Some [map (fun c => let v := Z.of_N (Byte.to_N c) in (v, v, v))
                 contents]
  end.

Definition tied_blobs : list blob :=
  [mkBlob 7 1 3 60 1; mkBlob 4 2 3 61 1; mkBlob 7 3 3 62 1;
   mkBlob 4 4 3 63 1; mkBlob 7 5 3 64 1].

Definition linear_readings : list Q :=
  map (fun x => 20 - 2 * x) CONCENTRATIONS.

Definition grey_image : image := [[(50, 50, 50); (60, 60, 60)]%Z].

Definition noisy_readings : list Q :=
  [242; 167; 159; 142; 135; 122; 125; 121; 115; 106; 99].

(* ================================================================= *)
(** * Properties *)

(** ** Primitives *)

Lemma Qltb_iff (a b : Q) : Qltb a b = true <-> a < b.
Proof.
  unfold Qltb. rewrite negb_true_iff.
  split; intro H.
  - apply Qnot_le_lt. intro Hle. apply Qle_bool_iff in Hle. congruence.
  - destruct (Qle_bool b a) eqn:E; [| reflexivity].
    apply Qle_bool_iff in E. exfalso. exact (Qlt_not_le _ _ H E).
Qed.

Lemma Qltb_false_iff (a b : Q) : Qltb a b = false <-> b <= a.
Proof.
  unfold Qltb. rewrite negb_false_iff. apply Qle_bool_iff.
Qed.

Lemma Qle_bool_false_iff (a b : Q) : Qle_bool a b = false <-> b < a.
Proof.
  rewrite <- Qltb_iff. unfold Qltb.
  destruct (Qle_bool a b); simpl; intuition congruence.
Qed.

Example py_round_half_even :
  map py_round [1 # 2; 3 # 2; 5 # 2; 7 # 4; -(1 # 2); -(3 # 2)]
  = [0; 2; 2; 2; 0; -2]%Z.
Proof. reflexivity. Qed.

Example py_int_truncates : map py_int [7 # 2; -(7 # 2); 18] = [3; -3; 18]%Z.
Proof. reflexivity. Qed.

Example sample_radius_25 : map sample_radius [0; 1; 2; 25; 50]%Z = [1; 1; 1; 18; 36]%Z.
Proof. reflexivity. Qed.

Lemma py_index_nth {A : Type} (l : list A) (i : nat) (d : A) :
  (i < length l)%nat -> py_index l i = Return (nth i l d).
Proof.
  intro H. unfold py_index.
  destruct (nth_error l i) eqn:E.
  - now rewrite (nth_error_nth _ _ d E).
  - apply nth_error_None in E. lia.
Qed.

Lemma mapM_Return {A B : Type} (f : A -> outcome B) (g : A -> B) (l : list A) :
  (forall a, In a l -> f a = Return (g a)) -> mapM f l = Return (map g l).
Proof.
  induction l as [| a l IH]; intro H; simpl.
  - reflexivity.
  - rewrite (H a (or_introl eq_refl)). simpl.
    rewrite IH by (intros b Hb; apply H; now right).
    reflexivity.
Qed.

(** ** The stable sort *)

Section SortFacts.
Context {A : Type} (leb : A -> A -> bool).

Let le (a b : A) : Prop := leb a b = true.

Lemma insert_sorted_perm (a : A) (l : list A) :
  Permutation (a :: l) (insert_sorted leb a l).
Proof.
  induction l as [| b l IH]; simpl.
  - apply Permutation_refl.
  - destruct (leb a b).
    + apply Permutation_refl.
    + eapply perm_trans; [apply perm_swap |].
      now apply perm_skip.
Qed.

Lemma sorted_perm (l : list A) : Permutation l (sorted leb l).
Proof.
  induction l as [| a l IH]; simpl.
  - constructor.
  - eapply perm_trans; [| apply insert_sorted_perm].
    now apply perm_skip.
Qed.

Lemma sorted_length (l : list A) : length (sorted leb l) = length l.
Proof. symmetry. apply Permutation_length, sorted_perm. Qed.

Hypothesis leb_total : forall a b, leb a b = false -> leb b a = true.
Hypothesis leb_trans :
  forall a b c, leb a b = true -> leb b c = true -> leb a c = true.

Lemma insert_sorted_ordered (a : A) (l : list A) :
  StronglySorted le l -> StronglySorted le (insert_sorted leb a l).
Proof.
  induction 1 as [| b l Hl IH Hb]; simpl.
  - repeat constructor.
  - destruct (leb a b) eqn:E.
    + constructor; [now constructor |].
      constructor; [exact E |].
      eapply Forall_impl; [| exact Hb].
      intros c Hc. exact (leb_trans _ _ _ E Hc).
    + constructor; [exact IH |].
      eapply Permutation_Forall; [apply insert_sorted_perm |].
      constructor; [now apply leb_total | exact Hb].
Qed.

Lemma sorted_ordered (l : list A) : StronglySorted le (sorted leb l).
Proof.
  induction l as [| a l IH]; simpl.
  - constructor.
  - now apply insert_sorted_ordered.
Qed.
End SortFacts.

Lemma StronglySorted_app_cross {A : Type} (R : A -> A -> Prop) (l1 l2 : list A) :
  StronglySorted R (l1 ++ l2) ->
  forall a b, In a l1 -> In b l2 -> R a b.
Proof.
  induction l1 as [| x l1 IH]; simpl; intros H a b Ha Hb.
  - contradiction.
  - inversion H as [| ? ? Hs Hx]; subst.
    destruct Ha as [-> | Ha].
    + rewrite Forall_forall in Hx. apply Hx, in_or_app. now right.
    + now apply IH.
Qed.

Lemma StronglySorted_adjacent {A : Type} (R : A -> A -> Prop) (l : list A) :
  StronglySorted R l ->
  forall i a b, nth_error l i = Some a -> nth_error l (S i) = Some b -> R a b.
Proof.
  induction 1 as [| x l Hs IH Hx]; intros i a b Ha Hb.
  - destruct i; discriminate.
  - destruct i as [| i]; simpl in Ha, Hb.
    + injection Ha as <-.
      rewrite Forall_forall in Hx. apply Hx.
      destruct l; [discriminate |]. injection Hb as <-. now left.
    + now apply (IH i).
Qed.

(** Two sorted arrangements of the same elements coincide when the order is
    antisymmetric on them. *)
Lemma StronglySorted_unique {A : Type} (R : A -> A -> Prop) (l1 l2 : list A) :
  (forall a b, In a l1 -> In b l1 -> R a b -> R b a -> a = b) ->
  StronglySorted R l1 -> StronglySorted R l2 -> Permutation l1 l2 -> l1 = l2.
Proof.
  revert l2.
  induction l1 as [| a l1 IH]; intros l2 Hanti H1 H2 Hp.
  - now apply Permutation_nil in Hp.
  - destruct l2 as [| b l2].
    + apply Permutation_sym, Permutation_nil in Hp. discriminate.
    + inversion H1 as [| ? ? H1s H1a]; subst.
      inversion H2 as [| ? ? H2s H2b]; subst.
      rewrite Forall_forall in H1a, H2b.
      assert (Hab : a = b).
      { assert (Hb : In b (a :: l1))
          by (eapply Permutation_in; [apply Permutation_sym, Hp | now left]).
        assert (Ha : In a (b :: l2))
          by (eapply Permutation_in; [apply Hp | now left]).
        destruct Hb as [Hb | Hb]; [exact Hb |].
        destruct Ha as [Ha | Ha]; [now symmetry |].
        apply Hanti; [now left | now right | now apply H1a | now apply H2b]. }
      subst b. f_equal.
      apply IH; auto.
      * intros x y Hx Hy. apply Hanti; now right.
      * now apply Permutation_cons_inv in Hp.
Qed.

(** ** Pad segmenter *)

Lemma mask_pixel_spec (s v : Z) :
  (mask_pixel s v = 255%Z <-> (35 < s /\ 40 < v)%Z)
  /\ (mask_pixel s v = 0%Z <-> ~ (35 < s /\ 40 < v)%Z).
Proof.
  unfold mask_pixel, SAT_THRESH, VAL_THRESH.
  destruct (35 <? s)%Z eqn:Es; destruct (40 <? v)%Z eqn:Ev; simpl;
    try apply Z.ltb_lt in Es; try apply Z.ltb_lt in Ev;
    try apply Z.ltb_ge in Es; try apply Z.ltb_ge in Ev;
    split; split; intros; try lia; try discriminate.
Qed.

Lemma retained_iff (c : contour) :
  retained c = true <->
  ~ arcLength c == 0 /\ 60 <= contourArea c /\ (3 # 10) <= circularity c.
Proof.
  unfold retained.
  rewrite !andb_true_iff, negb_true_iff, !Qle_bool_iff.
  split.
  - intros [[Hp Ha] Hc]. repeat split; auto.
    intro H. apply Qeq_bool_iff in H. congruence.
  - intros [Hp [Ha Hc]]. repeat split; auto.
    destruct (Qeq_bool (arcLength c) 0) eqn:E; [| reflexivity].
    apply Qeq_bool_iff in E. contradiction.
Qed.

Lemma retained_small_or_degenerate (c : contour) :
  contourArea c < 5 \/ arcLength c == 0 -> retained c = false.
Proof.
  intro H. destruct (retained c) eqn:E; [| reflexivity].
  apply retained_iff in E. destruct E as [Hp [Ha _]].
  destruct H as [H | H]; [exfalso; lra | contradiction].
Qed.

Lemma square_nonzero (p : Q) : ~ p == 0 -> ~ p * p == 0.
Proof.
  intros Hp H. apply Hp.
  destruct (Qmult_integral _ _ H); assumption.
Qed.

(** The loop never raises and appends exactly the blobs of the retained
    contours, in contour order. *)
Lemma detect_blobs_spec (cnts : list contour) (acc : list blob) :
  detect_blobs cnts acc = Return (acc ++ map blob_of (filter retained cnts)).
Proof.
  revert acc.
  induction cnts as [| c cnts IH]; intro acc.
  - simpl. now rewrite app_nil_r.
  - cbn [detect_blobs filter].
    destruct (Qltb (contourArea c) 5) eqn:Ea.
    + apply Qltb_iff in Ea.
      rewrite retained_small_or_degenerate by now left.
      apply IH.
    + destruct (Qeq_bool (arcLength c) 0) eqn:Ep.
      * apply Qeq_bool_iff in Ep.
        rewrite retained_small_or_degenerate by now right.
        apply IH.
      * unfold py_div.
        destruct (Qeq_bool (arcLength c * arcLength c) 0) eqn:Epp.
        { apply Qeq_bool_iff in Epp. apply Qeq_bool_neq in Ep.
          exfalso. exact (square_nonzero _ Ep Epp). }
        cbn [bind].
        fold (circularity c).
        unfold retained. rewrite Ep. cbn [negb andb].
        unfold MIN_BLOB_AREA.
        assert (Hb : blob_of c =
                     let '((x, y), r) := minEnclosingCircle c in
                     mkBlob (py_int x) (py_int y) (py_round r)
                       (contourArea c) (circularity c)) by reflexivity.
        destruct (minEnclosingCircle c) as [[x y] r].
        destruct (Qle_bool 60 (contourArea c)
                  && Qle_bool (3 # 10) (circularity c)).
        -- rewrite IH. cbn [map]. rewrite Hb. now rewrite <- app_assoc.
        -- apply IH.
Qed.

(** C7.  Segmentation threshold and blob retention: the mask marks a pixel
    exactly when saturation > 35 and value > 40; a contour yields a blob
    exactly when its perimeter is nonzero, its area is at least 60 and its
    circularity 4*pi*area/perimeter^2 is at least 0.3; contours with area
    below 5 or zero perimeter are skipped and the loop never raises. *)
Theorem segmenter_retention :
  (forall s v : Z,
      (mask_pixel s v = 255%Z <-> (35 < s /\ 40 < v)%Z)
      /\ (mask_pixel s v = 0%Z <-> ~ (35 < s /\ 40 < v)%Z))
  /\ (forall cnts : list contour,
         detect_blobs cnts [] = Return (map blob_of (filter retained cnts)))
  /\ (forall c : contour,
         retained c = true <->
         ~ arcLength c == 0 /\ 60 <= contourArea c
         /\ (3 # 10) <= 4 * np_pi * contourArea c / (arcLength c * arcLength c))
  /\ (forall c : contour,
         contourArea c < 5 \/ arcLength c == 0 -> retained c = false).
Proof.
  split; [exact mask_pixel_spec |].
  split; [intro cnts; exact (detect_blobs_spec cnts []) |].
  split; [exact retained_iff | exact retained_small_or_degenerate].
Qed.

(** ** Pad selector / orderer *)

Lemma x_leb_total (a b : blob) : x_leb a b = false -> x_leb b a = true.
Proof. unfold x_leb. rewrite Z.leb_gt, Z.leb_le. lia. Qed.

Lemma x_leb_trans (a b c : blob) :
  x_leb a b = true -> x_leb b c = true -> x_leb a c = true.
Proof. unfold x_leb. rewrite !Z.leb_le. lia. Qed.

Lemma dev_leb_total (m : Q) (a b : blob) :
  dev_leb m a b = false -> dev_leb m b a = true.
Proof.
  unfold dev_leb. rewrite Qle_bool_false_iff, Qle_bool_iff.
  apply Qlt_le_weak.
Qed.

Lemma dev_leb_trans (m : Q) (a b c : blob) :
  dev_leb m a b = true -> dev_leb m b c = true -> dev_leb m a c = true.
Proof. unfold dev_leb. rewrite !Qle_bool_iff. apply Qle_trans. Qed.

Lemma Qle_bool_total (a b : Q) : Qle_bool a b = false -> Qle_bool b a = true.
Proof. rewrite Qle_bool_false_iff, Qle_bool_iff. apply Qlt_le_weak. Qed.

Lemma Qle_bool_trans (a b c : Q) :
  Qle_bool a b = true -> Qle_bool b c = true -> Qle_bool a c = true.
Proof. rewrite !Qle_bool_iff. apply Qle_trans. Qed.

Lemma sorted_x_ordered (l : list blob) : StronglySorted x_le (sorted x_leb l).
Proof.
  eapply StronglySorted_ind with
    (P := fun l => StronglySorted x_le l)
    (R := fun a b => x_leb a b = true).
  - constructor.
  - intros a l' _ IH Ha. constructor; [exact IH |].
    eapply Forall_impl; [| exact Ha].
    intros b Hb. unfold x_le. now apply Z.leb_le.
  - apply sorted_ordered; [exact x_leb_total | exact x_leb_trans].
Qed.

(** The median does not depend on the order of integer-valued data. *)
Lemma sorted_int_perm (l1 l2 : list Z) :
  Permutation l1 l2 ->
  sorted Qle_bool (map inject_Z l1) = sorted Qle_bool (map inject_Z l2).
Proof.
  intro Hp.
  apply StronglySorted_unique with (R := fun a b => Qle_bool a b = true).
  - intros a b Ha Hb Hab Hba.
    apply (Permutation_in _ (Permutation_sym (sorted_perm Qle_bool _))) in Ha.
    apply (Permutation_in _ (Permutation_sym (sorted_perm Qle_bool _))) in Hb.
    apply in_map_iff in Ha. destruct Ha as [za [<- _]].
    apply in_map_iff in Hb. destruct Hb as [zb [<- _]].
    apply Qle_bool_iff in Hab, Hba.
    rewrite <- Zle_Qle in Hab, Hba.
    f_equal. lia.
  - apply sorted_ordered; [exact Qle_bool_total | exact Qle_bool_trans].
  - apply sorted_ordered; [exact Qle_bool_total | exact Qle_bool_trans].
  - eapply perm_trans; [apply Permutation_sym, sorted_perm |].
    eapply perm_trans; [| apply sorted_perm].
    now apply Permutation_map.
Qed.

Lemma np_median_int_perm (l1 l2 : list Z) :
  Permutation l1 l2 ->
  np_median (map inject_Z l1) = np_median (map inject_Z l2).
Proof.
  intro Hp. unfold np_median. now rewrite (sorted_int_perm l1 l2 Hp).
Qed.

Lemma median_of_sorted (blobs : list blob) :
  np_median (y_values (sorted x_leb blobs)) = np_median (y_values blobs).
Proof.
  unfold y_values.
  rewrite <- !(map_map b_y inject_Z).
  apply np_median_int_perm, Permutation_map, Permutation_sym, sorted_perm.
Qed.

Lemma select_blobs_unfold (blobs : list blob) :
  select_blobs blobs =
  if (EXPECTED_COLS <? length blobs)%nat
  then sorted x_leb
         (firstn EXPECTED_COLS
            (sorted (dev_leb (np_median (y_values blobs))) (sorted x_leb blobs)))
  else sorted x_leb blobs.
Proof.
  unfold select_blobs. cbv zeta.
  rewrite sorted_length.
  fold (y_values (sorted x_leb blobs)).
  now rewrite median_of_sorted.
Qed.

Lemma select_blobs_length (blobs : list blob) :
  length (select_blobs blobs) = Nat.min EXPECTED_COLS (length blobs).
Proof.
  rewrite select_blobs_unfold.
  destruct (EXPECTED_COLS <? length blobs)%nat eqn:E.
  - apply Nat.ltb_lt in E.
    rewrite sorted_length, length_firstn, !sorted_length. lia.
  - apply Nat.ltb_ge in E. rewrite sorted_length. lia.
Qed.

Lemma select_blobs_ordered (blobs : list blob) :
  StronglySorted x_le (select_blobs blobs).
Proof.
  rewrite select_blobs_unfold.
  destruct (EXPECTED_COLS <? length blobs)%nat; apply sorted_x_ordered.
Qed.

(** The selection as a split of the detected blobs into the kept ones and
    the dropped ones, every kept blob at least as close to the median row as
    every dropped one. *)
Lemma select_blobs_split (blobs : list blob) :
  exists dropped,
    Permutation blobs (select_blobs blobs ++ dropped)
    /\ ((length blobs <= EXPECTED_COLS)%nat -> dropped = [])
    /\ forall k d, In k (select_blobs blobs) -> In d dropped ->
         deviation (np_median (y_values blobs)) k
         <= deviation (np_median (y_values blobs)) d.
Proof.
  rewrite select_blobs_unfold.
  destruct (EXPECTED_COLS <? length blobs)%nat eqn:E.
  - apply Nat.ltb_lt in E.
    set (m := np_median (y_values blobs)).
    set (byd := sorted (dev_leb m) (sorted x_leb blobs)).
    exists (skipn EXPECTED_COLS byd).
    split; [| split].
    + eapply perm_trans; [apply (sorted_perm x_leb) |].
      eapply perm_trans; [apply (sorted_perm (dev_leb m)) |].
      fold byd.
      rewrite <- (firstn_skipn EXPECTED_COLS byd) at 1.
      apply Permutation_app_tail, sorted_perm.
    + intro H. lia.
    + intros k d Hk Hd.
      apply (Permutation_in _ (Permutation_sym (sorted_perm x_leb _))) in Hk.
      assert (Hs : StronglySorted (fun a b => dev_leb m a b = true)
                     (firstn EXPECTED_COLS byd ++ skipn EXPECTED_COLS byd)).
      { rewrite firstn_skipn.
        apply sorted_ordered; [apply dev_leb_total | apply dev_leb_trans]. }
      apply Qle_bool_iff.
      exact (StronglySorted_app_cross _ _ _ Hs k d Hk Hd).
  - exists []. rewrite app_nil_r.
    split; [apply sorted_perm |].
    split; [reflexivity | intros k d _ []].
Qed.

Example select_strip14 :
  map (fun b => (b_x b, b_y b)) (select_blobs strip14)
  = [(0, 10); (2, 10); (3, 10); (4, 10); (5, 10); (6, 10); (7, 10); (8, 9);
     (9, 11); (10, 10); (12, 10)]%Z.
Proof. vm_compute. reflexivity. Qed.

(** C6.  The selector: the output is sorted by x-centroid and never longer
    than 11; at most 11 blobs are all kept; of more than 11 blobs exactly 11
    are kept, and each kept blob's y-centroid is at least as close to the
    median y-centroid of all blobs as each dropped blob's. *)
Theorem selector_keeps_closest_to_median (blobs : list blob) :
  let out := select_blobs blobs in
  let median_y := np_median (y_values blobs) in
  (length out <= 11)%nat
  /\ StronglySorted x_le out
  /\ ((length blobs <= 11)%nat -> Permutation blobs out)
  /\ ((11 < length blobs)%nat ->
      length out = 11%nat
      /\ exists dropped,
           Permutation blobs (out ++ dropped)
           /\ forall k d, In k out -> In d dropped ->
                deviation median_y k <= deviation median_y d).
Proof.
  intros out median_y.
  pose proof (select_blobs_length blobs) as Hlen.
  fold out in Hlen. unfold EXPECTED_COLS in Hlen.
  destruct (select_blobs_split blobs) as [dropped [Hp [Hnil Hdev]]].
  fold out in Hp, Hdev. fold median_y in Hdev.
  split; [lia |].
  split; [apply select_blobs_ordered |].
  split.
  - intro H. rewrite (Hnil H), app_nil_r in Hp. exact Hp.
  - intro H. split; [lia |].
    exists dropped. split; [exact Hp | exact Hdev].
Qed.

Lemma selector_keeps_closest_to_median_witness :
  (11 < length strip14)%nat
  /\ length (select_blobs strip14) = 11%nat
  /\ exists dropped,
       Permutation strip14 (select_blobs strip14 ++ dropped)
       /\ forall k d, In k (select_blobs strip14) -> In d dropped ->
            deviation (np_median (y_values strip14)) k
            <= deviation (np_median (y_values strip14)) d.
Proof.
  assert (H : (11 < length strip14)%nat) by (vm_compute; lia).
  split; [exact H |].
  exact (proj2 (proj2 (proj2 (selector_keeps_closest_to_median strip14))) H).
Defined.

(** ** Colour sampler *)

Lemma sample_radius_spec (r : Z) :
  sample_radius r = Z.max 1 (Z.quot (r * 72) 100).
Proof.
  unfold sample_radius, py_max, py_int. cbn [Qnum Qden Qmult inject_Z].
  change (Z.pos (1 * 100)) with 100%Z.
  destruct (1 <? r * 72 ÷ 100)%Z eqn:E.
  - apply Z.ltb_lt in E. lia.
  - apply Z.ltb_ge in E. lia.
Qed.

Lemma mask_circle_spec (h w : nat) (cx cy rr : Z) (Y X : nat) :
  In (Y, X) (mask_circle h w cx cy rr) <->
  (Y < h)%nat /\ (X < w)%nat
  /\ ((Z.of_nat X - cx) ^ 2 + (Z.of_nat Y - cy) ^ 2 <= rr * rr)%Z.
Proof.
  unfold mask_circle. rewrite in_flat_map. split.
  - intros [Y' [HY H]]. apply in_flat_map in H. destruct H as [X' [HX H]].
    apply in_seq in HY, HX.
    destruct ((Z.of_nat X' - cx) ^ 2 + (Z.of_nat Y' - cy) ^ 2 <=? rr * rr)%Z
      eqn:E; [| contradiction].
    destruct H as [H | []]. injection H as -> ->.
    apply Z.leb_le in E. repeat split; [lia | lia | exact E].
  - intros [HY [HX H]]. exists Y. split; [apply in_seq; lia |].
    apply in_flat_map. exists X. split; [apply in_seq; lia |].
    apply Z.leb_le in H. rewrite H. now left.
Qed.

Lemma sample_blob_degenerate (np_sqrt : Q -> Q) (img : image) (S : plane)
    (b : blob) :
  mask_circle (length img) (length (hd [] img)) (b_x b) (b_y b)
    (sample_radius (b_r b)) = [] ->
  sample_blob np_sqrt img S b = zero_stats.
Proof.
  intro H. unfold sample_blob. rewrite H. reflexivity.
Qed.

(** C8.  A well whose sampling mask (radius [max(1, int(0.72 r))], pixels
    within that squared distance of the centroid) selects no pixel gets the
    all-zero statistics record; the sampler still returns one record per
    blob. *)
Theorem sampler_degenerate_mask (np_sqrt : Q -> Q) (img : image) (S : plane)
    (blobs : list blob) (i : nat) (b : blob) :
  nth_error blobs i = Some b ->
  (forall Y X : nat,
      (Y < length img)%nat -> (X < length (hd [] img))%nat ->
      (Z.max 1 (Z.quot (b_r b * 72) 100) * Z.max 1 (Z.quot (b_r b * 72) 100)
       < (Z.of_nat X - b_x b) ^ 2 + (Z.of_nat Y - b_y b) ^ 2)%Z) ->
  nth_error (sample_blobs np_sqrt img S blobs) i = Some zero_stats
  /\ zero_stats = mkStats 0 0 0 0 0 0 0
  /\ length (sample_blobs np_sqrt img S blobs) = length blobs.
Proof.
  intros Hb Hempty.
  split; [| split; [reflexivity | apply length_map]].
  unfold sample_blobs. rewrite nth_error_map, Hb. simpl. f_equal.
  apply sample_blob_degenerate.
  destruct (mask_circle _ _ _ _ _) as [| [Y X] m] eqn:E; [reflexivity |].
  assert (Hin : In (Y, X) (mask_circle (length img) (length (hd [] img))
                    (b_x b) (b_y b) (sample_radius (b_r b))))
    by (rewrite E; now left).
  apply mask_circle_spec in Hin. destruct Hin as [HY [HX Hd]].
  rewrite sample_radius_spec in Hd.
  specialize (Hempty Y X HY HX). lia.
Qed.

Lemma sampler_degenerate_mask_witness :
  nth_error
    (sample_blobs sqrt_floor tiny_image tiny_plane
       [mkBlob 2 1 2 80 1; mkBlob 100 100 3 80 1]) 1
  = Some zero_stats
  /\ zero_stats = mkStats 0 0 0 0 0 0 0
  /\ length (sample_blobs sqrt_floor tiny_image tiny_plane
               [mkBlob 2 1 2 80 1; mkBlob 100 100 3 80 1])
     = length [mkBlob 2 1 2 80 1; mkBlob 100 100 3 80 1].
Proof.
  apply (sampler_degenerate_mask sqrt_floor tiny_image tiny_plane
           [mkBlob 2 1 2 80 1; mkBlob 100 100 3 80 1] 1
           (mkBlob 100 100 3 80 1)).
  - reflexivity.
  - simpl. intros Y X HY HX. nia.
Defined.

Lemma selected_stats_padded (np_sqrt : Q -> Q) (img : image) (S : plane)
    (blobs : list blob) :
  let rgb_data := sample_blobs np_sqrt img S (select_blobs blobs) in
  (length rgb_data <= 11)%nat
  /\ pad_or_truncate rgb_data
     = rgb_data ++ repeat zero_stats (11 - length rgb_data).
Proof.
  intro rgb_data.
  assert (Hr : (length rgb_data <= 11)%nat).
  { unfold rgb_data, sample_blobs.
    rewrite length_map, select_blobs_length. unfold EXPECTED_COLS. lia. }
  split; [exact Hr |].
  unfold pad_or_truncate.
  replace (EXPECTED_COLS <? length rgb_data)%nat with false
    by (symmetry; apply Nat.ltb_ge; exact Hr).
  destruct (length rgb_data <? EXPECTED_COLS)%nat eqn:E.
  - reflexivity.
  - apply Nat.ltb_ge in E. unfold EXPECTED_COLS in E.
    replace (11 - length rgb_data)%nat with 0%nat by lia.
    simpl. now rewrite app_nil_r.
Qed.

(** C10.  After selection at most 11 blobs remain, so at most 11 colour
    records reach the length adjustment; its truncation test is false and
    the adjustment only appends all-zero records. *)
Theorem truncation_unreachable (np_sqrt : Q -> Q) (img : image) (S : plane)
    (blobs : list blob) :
  let rgb_data := sample_blobs np_sqrt img S (select_blobs blobs) in
  (length (select_blobs blobs) <= 11)%nat
  /\ (length rgb_data <= 11)%nat
  /\ (EXPECTED_COLS <? length rgb_data)%nat = false
  /\ pad_or_truncate rgb_data
     = rgb_data ++ repeat zero_stats (11 - length rgb_data).
Proof.
  intro rgb_data.
  destruct (selected_stats_padded np_sqrt img S blobs) as [Hr Hp].
  fold rgb_data in Hr, Hp.
  split.
  - rewrite select_blobs_length. unfold EXPECTED_COLS. lia.
  - split; [exact Hr |].
    split; [apply Nat.ltb_ge; exact Hr | exact Hp].
Qed.

(** ** Calibration fitter and report *)

Lemma np_clip_in_range (v : Q) : in_range (np_clip v 0 10).
Proof.
  unfold in_range, np_clip. split.
  - apply Q.min_glb; [apply Q.le_max_r | discriminate].
  - apply Q.le_min_r.
Qed.

Lemma zip_with_length {A B C : Type} (f : A -> B -> C) (l1 : list A)
    (l2 : list B) :
  length (zip_with f l1 l2) = Nat.min (length l1) (length l2).
Proof.
  revert l2. induction l1 as [| a l1 IH]; intros [| b l2]; simpl; auto.
Qed.

Lemma pad_or_truncate_length (l : list color_stats) :
  length (pad_or_truncate l) = EXPECTED_COLS.
Proof.
  unfold pad_or_truncate.
  destruct (EXPECTED_COLS <? length l)%nat eqn:E1.
  - apply Nat.ltb_lt in E1. rewrite length_firstn. lia.
  - apply Nat.ltb_ge in E1.
    destruct (length l <? EXPECTED_COLS)%nat eqn:E2.
    + apply Nat.ltb_lt in E2. rewrite length_app, repeat_length. lia.
    + apply Nat.ltb_ge in E2. lia.
Qed.

Lemma pad_or_truncate_cases (l : list color_stats) :
  ((length l < 11)%nat ->
   pad_or_truncate l = l ++ repeat zero_stats (11 - length l))
  /\ ((11 < length l)%nat -> pad_or_truncate l = firstn 11 l)
  /\ (length l = 11%nat -> pad_or_truncate l = l).
Proof.
  unfold pad_or_truncate, EXPECTED_COLS.
  repeat split; intro H.
  - destruct (11 <? length l)%nat eqn:E1; [apply Nat.ltb_lt in E1; lia |].
    destruct (length l <? 11)%nat eqn:E2; [reflexivity |].
    apply Nat.ltb_ge in E2. lia.
  - destruct (11 <? length l)%nat eqn:E1; [reflexivity |].
    apply Nat.ltb_ge in E1. lia.
  - rewrite H. reflexivity.
Qed.

Section CalibrationFacts.
Variable np_sqrt : Q -> Q.
Variable polyfit : list Q -> list Q -> list Q.

Let fit := fit_and_evaluate np_sqrt polyfit.

(** What a returned ChannelFit holds. *)
Lemma fit_and_evaluate_inv (y x : list Q) (name : string) (cf : ChannelFit) :
  fit y x name = Return cf ->
  coeffs cf = polyfit x y
  /\ inv_coeffs cf = polyfit y x
  /\ actual_x cf = x
  /\ actual_y cf = y
  /\ r2 cf = r2_score y (map (poly1d (coeffs cf)) x)
  /\ predicted_concentration cf
     = map (fun v => np_clip (poly1d (inv_coeffs cf) v) 0 10) y.
Proof.
  unfold fit, fit_and_evaluate.
  destruct x as [| x0 x]; [discriminate |].
  cbn [np_min np_max bind]. intro H. injection H as <-.
  cbn [coeffs inv_coeffs actual_x actual_y r2 predicted_concentration].
  repeat split. now rewrite map_map.
Qed.

Lemma fit_and_evaluate_succeeds (y x : list Q) (name : string) :
  x <> [] -> succeeds (fit y x name).
Proof.
  intro Hx. unfold fit, fit_and_evaluate.
  destruct x as [| x0 x]; [contradiction |].
  cbn [np_min np_max bind]. eexists. reflexivity.
Qed.

Lemma fit_predictions_in_range (y x : list Q) (name : string)
    (cf : ChannelFit) :
  fit y x name = Return cf ->
  Forall in_range (predicted_concentration cf)
  /\ length (predicted_concentration cf) = length y.
Proof.
  intro H. apply fit_and_evaluate_inv in H.
  destruct H as (_ & _ & _ & _ & _ & ->).
  split; [| apply length_map].
  apply Forall_forall. intros v Hv.
  apply in_map_iff in Hv. destruct Hv as [u [<- _]].
  apply np_clip_in_range.
Qed.

Lemma rgb_mean_of_length (rgb_data : list color_stats) :
  length (rgb_mean_of rgb_data) = length rgb_data.
Proof.
  unfold rgb_mean_of. rewrite !zip_with_length, !length_map. lia.
Qed.

(** Calibration of 11 colour records succeeds, and the report is made of
    the four channel fits and one well record per index. *)
Lemma calibrate_eleven (rgb_data : list color_stats) :
  length rgb_data = EXPECTED_COLS ->
  exists r_fit g_fit b_fit rgb_fit,
    fit (map r_mean rgb_data) CONCENTRATIONS "R" = Return r_fit
    /\ fit (map g_mean rgb_data) CONCENTRATIONS "G" = Return g_fit
    /\ fit (map b_mean rgb_data) CONCENTRATIONS "B" = Return b_fit
    /\ fit (rgb_mean_of rgb_data) CONCENTRATIONS "RGB_mean" = Return rgb_fit
    /\ calibrate np_sqrt polyfit rgb_data
       = Return (mkReport
                   (map (well_of rgb_data r_fit g_fit b_fit rgb_fit)
                      (seq 0 EXPECTED_COLS))
                   r_fit g_fit b_fit rgb_fit
                   (mkMetrics (r2 r_fit) (mae r_fit) (rmse r_fit))).
Proof.
  intro Hlen.
  assert (Hx : CONCENTRATIONS <> []) by discriminate.
  destruct (fit_and_evaluate_succeeds (map r_mean rgb_data) _ "R" Hx)
    as [r_fit Hr].
  destruct (fit_and_evaluate_succeeds (map g_mean rgb_data) _ "G" Hx)
    as [g_fit Hg].
  destruct (fit_and_evaluate_succeeds (map b_mean rgb_data) _ "B" Hx)
    as [b_fit Hb].
  destruct (fit_and_evaluate_succeeds (rgb_mean_of rgb_data) _ "RGB_mean" Hx)
    as [rgb_fit Hm].
  exists r_fit, g_fit, b_fit, rgb_fit.
  repeat (split; [assumption |]).
  unfold calibrate. fold (rgb_mean_of rgb_data).
  unfold fit in Hr, Hg, Hb, Hm. rewrite Hr, Hg, Hb, Hm. cbn [bind].
  rewrite Hlen.
  rewrite (mapM_Return _ (well_of rgb_data r_fit g_fit b_fit rgb_fit)).
  - reflexivity.
  - intros i Hi. apply in_seq in Hi. unfold EXPECTED_COLS in *.
    destruct (fit_predictions_in_range _ _ _ _ Hr) as [_ Lr].
    destruct (fit_predictions_in_range _ _ _ _ Hg) as [_ Lg].
    destruct (fit_predictions_in_range _ _ _ _ Hb) as [_ Lb].
    destruct (fit_predictions_in_range _ _ _ _ Hm) as [_ Lm].
    rewrite length_map in Lr, Lg, Lb. rewrite rgb_mean_of_length in Lm.
    unfold well_entry.
    rewrite (py_index_nth CONCENTRATIONS i 0) by (simpl; lia).
    rewrite (py_index_nth rgb_data i zero_stats) by lia.
    rewrite (py_index_nth (rgb_mean_of rgb_data) i 0)
      by (rewrite rgb_mean_of_length; lia).
    rewrite (py_index_nth (predicted_concentration r_fit) i 0) by lia.
    rewrite (py_index_nth (predicted_concentration g_fit) i 0) by lia.
    rewrite (py_index_nth (predicted_concentration b_fit) i 0) by lia.
    rewrite (py_index_nth (predicted_concentration rgb_fit) i 0) by lia.
    reflexivity.
Qed.

(** The analysis either stops for want of blobs or calibrates the padded
    statistics of the selected blobs. *)
Lemma analyze_strip_image_cases (img : image) (S : plane)
    (cnts : list contour) :
  let blobs := map blob_of (filter retained cnts) in
  (blobs = []
   /\ analyze_strip_image np_sqrt polyfit img S cnts
      = Raise (ValueError no_pads_message))
  \/ (blobs <> []
      /\ analyze_strip_image np_sqrt polyfit img S cnts
         = calibrate np_sqrt polyfit
             (pad_or_truncate
                (sample_blobs np_sqrt img S (select_blobs blobs)))).
Proof.
  intro blobs. unfold analyze_strip_image.
  rewrite detect_blobs_spec. cbn [app bind]. fold blobs.
  destruct blobs as [| b bs].
  - left. split; reflexivity.
  - right. split; [discriminate | reflexivity].
Qed.

End CalibrationFacts.

Section ReportFacts.
Variable np_sqrt : Q -> Q.
Variable polyfit : list Q -> list Q -> list Q.

Let analyze := analyze_strip_image np_sqrt polyfit.
Let fit := fit_and_evaluate np_sqrt polyfit.

(** A returned report, taken apart. *)
Lemma analyze_strip_image_inv (img : image) (S : plane) (cnts : list contour)
    (rep : report) :
  analyze img S cnts = Return rep ->
  exists blobs rgb_data r_fit g_fit b_fit rgb_fit,
    detect_blobs cnts [] = Return blobs
    /\ blobs <> []
    /\ rgb_data
       = pad_or_truncate (sample_blobs np_sqrt img S (select_blobs blobs))
    /\ length rgb_data = EXPECTED_COLS
    /\ fit (map r_mean rgb_data) CONCENTRATIONS "R" = Return r_fit
    /\ fit (map g_mean rgb_data) CONCENTRATIONS "G" = Return g_fit
    /\ fit (map b_mean rgb_data) CONCENTRATIONS "B" = Return b_fit
    /\ fit (rgb_mean_of rgb_data) CONCENTRATIONS "RGB_mean" = Return rgb_fit
    /\ rep = mkReport
               (map (well_of rgb_data r_fit g_fit b_fit rgb_fit)
                  (seq 0 EXPECTED_COLS))
               r_fit g_fit b_fit rgb_fit
               (mkMetrics (r2 r_fit) (mae r_fit) (rmse r_fit)).
Proof.
  intro H. unfold analyze in H.
  destruct (analyze_strip_image_cases np_sqrt polyfit img S cnts)
    as [[_ E] | [Hne E]]; rewrite E in H; [discriminate |].
  set (blobs := map blob_of (filter retained cnts)) in *.
  set (rgb_data :=
         pad_or_truncate (sample_blobs np_sqrt img S (select_blobs blobs)))
    in *.
  assert (Hlen : length rgb_data = EXPECTED_COLS)
    by apply pad_or_truncate_length.
  destruct (calibrate_eleven np_sqrt polyfit rgb_data Hlen)
    as (r_fit & g_fit & b_fit & rgb_fit & Hr & Hg & Hb & Hm & Hc).
  rewrite Hc in H. injection H as <-.
  exists blobs, rgb_data, r_fit, g_fit, b_fit, rgb_fit.
  repeat (split; [first [assumption | reflexivity | apply detect_blobs_spec]
                 |]).
  reflexivity.
Qed.

Lemma analyze_strip_image_succeeds (img : image) (S : plane)
    (cnts : list contour) :
  succeeds (analyze img S cnts) <->
  exists b blobs, detect_blobs cnts [] = Return (b :: blobs).
Proof.
  split.
  - intros [rep H]. apply analyze_strip_image_inv in H.
    destruct H as (blobs & _ & _ & _ & _ & _ & Hd & Hne & _).
    destruct blobs as [| b blobs]; [contradiction |]. now exists b, blobs.
  - intros (b & blobs & Hd). unfold analyze.
    destruct (analyze_strip_image_cases np_sqrt polyfit img S cnts)
      as [[E _] | [_ E]].
    + rewrite detect_blobs_spec, E in Hd. discriminate.
    + rewrite E.
      destruct (calibrate_eleven np_sqrt polyfit _
                  (pad_or_truncate_length
                     (sample_blobs np_sqrt img S
                        (select_blobs (map blob_of (filter retained cnts))))))
        as (r_fit & g_fit & b_fit & rgb_fit & _ & _ & _ & _ & Hc).
      rewrite Hc. eexists. reflexivity.
Qed.

(** C4.  When no contour qualifies as a blob the analysis stops with the
    error "No valid color pads detected on the strip." and returns no
    report. *)
Theorem no_pads_detected (img : image) (S : plane) (cnts : list contour) :
  detect_blobs cnts [] = Return [] ->
  analyze_strip_image np_sqrt polyfit img S cnts
  = Raise (ValueError "No valid color pads detected on the strip.")
  /\ ~ succeeds (analyze_strip_image np_sqrt polyfit img S cnts).
Proof.
  intro H.
  assert (E : analyze_strip_image np_sqrt polyfit img S cnts
              = Raise (ValueError no_pads_message))
    by (unfold analyze_strip_image; rewrite H; reflexivity).
  split; [exact E |].
  intros [rep Hrep]. rewrite E in Hrep. discriminate.
Qed.

(** C2.  A returned report lists exactly 11 wells, whatever the number of
    detected blobs: the statistics are brought to length 11 by appending
    all-zero records to a shorter list and cutting a longer one. *)
Theorem report_has_eleven_wells (img : image) (S : plane)
    (cnts : list contour) (rep : report) :
  analyze_strip_image np_sqrt polyfit img S cnts = Return rep ->
  length (color_values rep) = 11%nat
  /\ forall stats : list color_stats,
       length (pad_or_truncate stats) = 11%nat
       /\ ((length stats < 11)%nat ->
           pad_or_truncate stats
           = stats ++ repeat zero_stats (11 - length stats))
       /\ ((11 < length stats)%nat ->
           pad_or_truncate stats = firstn 11 stats).
Proof.
  intro H. apply analyze_strip_image_inv in H.
  destruct H as (blobs & rgb_data & r_fit & g_fit & b_fit & rgb_fit & H).
  destruct H as (_ & _ & _ & _ & _ & _ & _ & _ & ->).
  split.
  - cbn [color_values]. now rewrite length_map, length_seq.
  - intro stats.
    split; [apply pad_or_truncate_length |].
    destruct (pad_or_truncate_cases stats) as (Hp & Ht & _). now split.
Qed.

(** C3.  In a returned report the wells follow the selected blobs, which
    are in non-decreasing order of x-centroid: well [i+1] carries the colour
    sampled at the [i]-th selected blob, and adjacent selected blobs have
    non-decreasing x. *)
Theorem wells_left_to_right (img : image) (S : plane) (cnts : list contour)
    (rep : report) :
  analyze_strip_image np_sqrt polyfit img S cnts = Return rep ->
  exists blobs : list blob,
    detect_blobs cnts [] = Return blobs
    /\ (forall i a b,
           nth_error (select_blobs blobs) i = Some a ->
           nth_error (select_blobs blobs) (Datatypes.S i) = Some b ->
           (b_x a <= b_x b)%Z)
    /\ (forall i b,
           nth_error (select_blobs blobs) i = Some b ->
           exists w,
             nth_error (color_values rep) i = Some w
             /\ well w = (i + 1)%nat
             /\ w_r w = r_mean (sample_blob np_sqrt img S b)
             /\ w_g w = g_mean (sample_blob np_sqrt img S b)
             /\ w_b w = b_mean (sample_blob np_sqrt img S b)
             /\ w_s_mean w = s_mean (sample_blob np_sqrt img S b)).
Proof.
  intro H. apply analyze_strip_image_inv in H.
  destruct H as (blobs & rgb_data & r_fit & g_fit & b_fit & rgb_fit & H).
  destruct H as (Hd & _ & Hdata & Hlen & _ & _ & _ & _ & ->).
  exists blobs. split; [exact Hd |]. split.
  - intros i a b Ha Hb.
    exact (StronglySorted_adjacent _ _ (select_blobs_ordered blobs) i a b Ha Hb).
  - intros i b Hb.
    assert (Hi : (i < length (select_blobs blobs))%nat)
      by (apply nth_error_Some; congruence).
    assert (Hi11 : (i < EXPECTED_COLS)%nat)
      by (rewrite select_blobs_length in Hi; lia).
    exists (well_of rgb_data r_fit g_fit b_fit rgb_fit i).
    assert (Hnth : nth i rgb_data zero_stats = sample_blob np_sqrt img S b).
    { rewrite Hdata.
      destruct (selected_stats_padded np_sqrt img S blobs) as [_ ->].
      unfold sample_blobs.
      rewrite app_nth1 by (now rewrite length_map).
      apply nth_error_nth. now rewrite nth_error_map, Hb. }
    split.
    + cbn [color_values]. rewrite nth_error_map, nth_error_seq.
      apply Nat.ltb_lt in Hi11. rewrite Hi11. reflexivity.
    + cbn [well_of well w_r w_g w_b w_s_mean]. rewrite Hnth.
      repeat split.
Qed.

(** C1.  In a returned report every predicted concentration lies in
    [0, 10]: each channel's list is the inverse polynomial evaluated at the
    channel values and clipped to [0, 10], and each well's four predictions
    are taken from those lists. *)
Theorem predictions_clamped (img : image) (S : plane) (cnts : list contour)
    (rep : report) :
  analyze_strip_image np_sqrt polyfit img S cnts = Return rep ->
  (forall cf : ChannelFit,
      In cf [r_channel rep; g_channel rep; b_channel rep;
             rgb_mean_channel rep] ->
      predicted_concentration cf
      = map (fun y => np_clip (poly1d (inv_coeffs cf) y) 0 10) (actual_y cf)
      /\ forall v, In v (predicted_concentration cf) -> 0 <= v /\ v <= 10)
  /\ (forall w : well_record,
         In w (color_values rep) ->
         (0 <= pred_from_r w /\ pred_from_r w <= 10)
         /\ (0 <= pred_from_g w /\ pred_from_g w <= 10)
         /\ (0 <= pred_from_b w /\ pred_from_b w <= 10)
         /\ (0 <= pred_from_rgb w /\ pred_from_rgb w <= 10)).
Proof.
  intro H. apply analyze_strip_image_inv in H.
  destruct H as (blobs & rgb_data & r_fit & g_fit & b_fit & rgb_fit & H).
  destruct H as (_ & _ & _ & _ & Hr & Hg & Hb & Hm & ->).
  cbn [r_channel g_channel b_channel rgb_mean_channel color_values].
  assert (Hch : forall y name cf, fit y CONCENTRATIONS name = Return cf ->
            predicted_concentration cf
            = map (fun y => np_clip (poly1d (inv_coeffs cf) y) 0 10)
                (actual_y cf)
            /\ Forall in_range (predicted_concentration cf)).
  { intros y name cf Hcf. split.
    - apply fit_and_evaluate_inv in Hcf.
      destruct Hcf as (_ & _ & _ & -> & _ & ->). reflexivity.
    - now apply (fit_predictions_in_range np_sqrt polyfit) in Hcf. }
  assert (Hnth : forall cf i, Forall in_range (predicted_concentration cf) ->
            in_range (nth i (predicted_concentration cf) 0)).
  { intros cf i Hall.
    destruct (nth_in_or_default i (predicted_concentration cf) 0) as [Hin | ->].
    - rewrite Forall_forall in Hall. now apply Hall.
    - split; discriminate. }
  apply Hch in Hr, Hg, Hb, Hm.
  split.
  - intros cf [<- | [<- | [<- | [<- | []]]]];
      (split; [tauto | rewrite <- Forall_forall; tauto]).
  - intros w Hw. apply in_map_iff in Hw. destruct Hw as [i [<- _]].
    cbn [well_of pred_from_r pred_from_g pred_from_b pred_from_rgb].
    repeat split; apply Hnth; tauto.
Qed.

End ReportFacts.

(** ** Runs on a small strip *)

Example sample_contours_blobs :
  match detect_blobs sample_contours [] with
  | Return blobs => map (fun b => (b_x b, b_y b, b_r b)) blobs
  | Raise _ => []
  end = [(2, 1, 2); (0, 1, 2)]%Z.
Proof. vm_compute. reflexivity. Qed.

Example no_contours_no_report :
  analyze_strip_image sqrt_floor lstsq2 tiny_image tiny_plane []
  = Raise (ValueError "No valid color pads detected on the strip.").
Proof. reflexivity. Qed.

Lemma no_pads_detected_witness :
  analyze_strip_image sqrt_floor lstsq2 tiny_image tiny_plane rejected_contours
  = Raise (ValueError "No valid color pads detected on the strip.")
  /\ ~ succeeds
         (analyze_strip_image sqrt_floor lstsq2 tiny_image tiny_plane
            rejected_contours).
Proof.
  apply (no_pads_detected sqrt_floor lstsq2 tiny_image tiny_plane
           rejected_contours).
  vm_compute. reflexivity.
Defined.

(** The analysis of the small strip returns a report. *)
Lemma small_strip_succeeds :
  succeeds
    (analyze_strip_image sqrt_floor lstsq2 tiny_image tiny_plane
       sample_contours).
Proof.
  apply analyze_strip_image_succeeds.
  eexists. eexists. vm_compute. reflexivity.
Qed.

Lemma report_has_eleven_wells_witness :
  exists rep,
    analyze_strip_image sqrt_floor lstsq2 tiny_image tiny_plane sample_contours
    = Return rep
    /\ length (color_values rep) = 11%nat.
Proof.
  destruct small_strip_succeeds as [rep H].
  exists rep. split; [exact H |].
  exact (proj1 (report_has_eleven_wells sqrt_floor lstsq2 tiny_image
                  tiny_plane sample_contours rep H)).
Defined.

(** ** Exact least squares *)

Lemma msum_cons (f : Q -> Q) (x : Q) (xs : list Q) :
  msum f (x :: xs) = f x + msum f xs.
Proof. reflexivity. Qed.

Lemma vand1_cons (xs : list Q) (x y z : Q) :
  vand1 (z :: xs) x y
  == vand1 xs x y
     + ((x - y) * (x - z) * (y - z)) * ((x - y) * (x - z) * (y - z)).
Proof. unfold vand1. rewrite !msum_cons. ring. Qed.

Lemma vand2_cons (xs : list Q) (x y : Q) :
  vand2 (y :: xs) x == vand2 xs x + vand1 xs x y.
Proof. unfold vand2, vand1. rewrite !msum_cons. ring. Qed.

Lemma gram_det_cons (xs : list Q) (x : Q) :
  gram_det (x :: xs) == gram_det xs + vand2 xs x.
Proof. unfold gram_det, vand2, det3. rewrite !msum_cons. ring. Qed.

Lemma Qsquare_nonneg (q : Q) : 0 <= q * q.
Proof. nra. Qed.

Lemma vand1_nonneg (xs : list Q) (x y : Q) : 0 <= vand1 xs x y.
Proof.
  induction xs as [| z xs IH].
  - unfold vand1, msum. simpl. nra.
  - rewrite vand1_cons.
    pose proof (Qsquare_nonneg ((x - y) * (x - z) * (y - z))). lra.
Qed.

Lemma vand2_nonneg (xs : list Q) (x : Q) : 0 <= vand2 xs x.
Proof.
  induction xs as [| y xs IH].
  - unfold vand2, msum. simpl. nra.
  - rewrite vand2_cons. pose proof (vand1_nonneg xs x y). lra.
Qed.

Lemma gram_det_nonneg (xs : list Q) : 0 <= gram_det xs.
Proof.
  induction xs as [| x xs IH].
  - unfold gram_det, det3, msum. simpl. nra.
  - rewrite gram_det_cons. pose proof (vand2_nonneg xs x). lra.
Qed.

Lemma Qsquare_pos (q : Q) : ~ q == 0 -> 0 < q * q.
Proof.
  intro H. destruct (Qlt_le_dec 0 (q * q)) as [Hlt | Hle]; [exact Hlt |].
  exfalso. apply H.
  assert (E : q * q == 0) by (pose proof (Qsquare_nonneg q); lra).
  destruct (Qmult_integral _ _ E); assumption.
Qed.

Lemma Qdiff_nonzero (p q : Q) : ~ p == q -> ~ p - q == 0.
Proof. intros H E. apply H. lra. Qed.

(** Three pairwise distinct abscissae make the normal equations regular. *)
Lemma gram_det_pos (x1 x2 x3 : Q) (xs : list Q) :
  ~ x1 == x2 -> ~ x1 == x3 -> ~ x2 == x3 ->
  0 < gram_det (x1 :: x2 :: x3 :: xs).
Proof.
  intros H12 H13 H23.
  rewrite gram_det_cons, vand2_cons, vand1_cons.
  pose proof (gram_det_nonneg (x2 :: x3 :: xs)).
  pose proof (vand2_nonneg (x3 :: xs) x1).
  pose proof (vand1_nonneg xs x1 x2).
  assert (Hp : 0 < ((x1 - x2) * (x1 - x3) * (x2 - x3))
                   * ((x1 - x2) * (x1 - x3) * (x2 - x3))).
  { apply Qsquare_pos. intro E.
    apply Qmult_integral in E. destruct E as [E | E].
    - apply Qmult_integral in E. destruct E as [E | E].
      + exact (Qdiff_nonzero _ _ H12 E).
      + exact (Qdiff_nonzero _ _ H13 E).
    - exact (Qdiff_nonzero _ _ H23 E). }
  lra.
Qed.

Lemma gram_det_distinct (xs : list Q) :
  (3 <= length xs)%nat -> distinct xs -> 0 < gram_det xs.
Proof.
  intros Hlen Hd.
  destruct xs as [| x1 [| x2 [| x3 xs]]]; simpl in Hlen; try lia.
  inversion Hd as [| ? ? H1 Hd1]; subst.
  inversion Hd1 as [| ? ? H2 _]; subst.
  inversion H1 as [| ? ? H12 H1']; subst.
  inversion H1' as [| ? ? H13 _]; subst.
  inversion H2 as [| ? ? H23 _]; subst.
  now apply gram_det_pos.
Qed.

Lemma mmix_cons (f : Q -> Q) (x y : Q) (xs ys : list Q) :
  mmix f (x :: xs) (y :: ys) = f x * y + mmix f xs ys.
Proof. reflexivity. Qed.

Lemma mmix_quadratic (f : Q -> Q) (a b c : Q) (xs ys : list Q) :
  Forall2 (fun x y => y == quadratic a b c x) xs ys ->
  mmix f xs ys
  == a * msum (fun x => f x * (x * x)) xs
     + b * msum (fun x => f x * x) xs
     + c * msum f xs.
Proof.
  induction 1 as [| x y xs ys Hy _ IH].
  - unfold mmix, msum. simpl. ring.
  - rewrite mmix_cons, !msum_cons, IH, Hy. unfold quadratic. ring.
Qed.

Lemma msum_ext (f g : Q -> Q) (xs : list Q) :
  (forall x, f x == g x) -> msum f xs == msum g xs.
Proof.
  intro H. induction xs as [| x xs IH].
  - reflexivity.
  - rewrite !msum_cons, IH, H. reflexivity.
Qed.

Lemma Qdiv_unique (p d a : Q) : ~ d == 0 -> p == a * d -> p / d == a.
Proof. intros Hd Hp. rewrite Hp. field. exact Hd. Qed.

(** On exactly quadratic data over at least three distinct abscissae the
    normal equations return the generating coefficients. *)
Lemma lstsq2_exact (a b c : Q) (xs ys : list Q) :
  (3 <= length xs)%nat -> distinct xs ->
  Forall2 (fun x y => y == quadratic a b c x) xs ys ->
  Forall2 Qeq (lstsq2 xs ys) [a; b; c].
Proof.
  intros Hlen Hd Hy.
  pose proof (gram_det_distinct xs Hlen Hd) as Hpos.
  assert (Hnz : ~ gram_det xs == 0) by lra.
  pose proof (mmix_quadratic (fun _ => 1) a b c xs ys Hy) as H0.
  pose proof (mmix_quadratic (fun x => x) a b c xs ys Hy) as H1.
  pose proof (mmix_quadratic (fun x => x * x) a b c xs ys Hy) as H2.
  cbv beta in H0, H1, H2.
  rewrite (msum_ext (fun x => 1 * (x * x)) (fun x => x * x)) in H0
    by (intro; ring).
  rewrite (msum_ext (fun x => 1 * x) (fun x => x)) in H0 by (intro; ring).
  rewrite (msum_ext (fun x => x * (x * x)) (fun x => x * x * x)) in H1
    by (intro; ring).
  rewrite (msum_ext (fun x => x * x * (x * x)) (fun x => x * x * x * x)) in H2
    by (intro; ring).
  unfold lstsq2, gram_det in *. cbv zeta in *.
  set (s0 := msum (fun _ => 1) xs) in *.
  set (s1 := msum (fun x => x) xs) in *.
  set (s2 := msum (fun x => x * x) xs) in *.
  set (s3 := msum (fun x => x * x * x) xs) in *.
  set (s4 := msum (fun x => x * x * x * x) xs) in *.
  set (t0 := mmix (fun _ => 1) xs ys) in *.
  set (t1 := mmix (fun x => x) xs ys) in *.
  set (t2 := mmix (fun x => x * x) xs ys) in *.
  repeat constructor;
    (apply Qdiv_unique; [exact Hnz |]);
    unfold det3; rewrite H0, H1, H2; ring.
Qed.

Lemma poly1d_quadratic (cs : list Q) (a b c x : Q) :
  Forall2 Qeq cs [a; b; c] -> poly1d cs x == quadratic a b c x.
Proof.
  intro H.
  inversion H as [| a' ? l1 ? Ha H1]; subst.
  inversion H1 as [| b' ? l2 ? Hb H2]; subst.
  inversion H2 as [| c' ? l3 ? Hc H3]; subst.
  inversion H3; subst.
  unfold poly1d, quadratic. simpl. rewrite Ha, Hb, Hc. ring.
Qed.

Lemma residual_ss_nonneg (cs xs ys : list Q) : 0 <= residual_ss cs xs ys.
Proof.
  unfold residual_ss. revert ys.
  induction xs as [| x xs IH]; intros [| y ys]; simpl; try lra.
  specialize (IH ys).
  pose proof (Qsquare_nonneg (y - poly1d cs x)).
  unfold sq_diff at 1. lra.
Qed.

Lemma residual_ss_exact (cs : list Q) (a b c : Q) (xs ys : list Q) :
  Forall2 Qeq cs [a; b; c] ->
  Forall2 (fun x y => y == quadratic a b c x) xs ys ->
  residual_ss cs xs ys == 0.
Proof.
  intros Hc. unfold residual_ss.
  induction 1 as [| x y xs ys Hy _ IH]; simpl.
  - reflexivity.
  - rewrite IH. unfold sq_diff.
    rewrite (poly1d_quadratic cs a b c x Hc), Hy. ring.
Qed.

Lemma r2_score_perfect (y_true y_pred : list Q) :
  Qsum (zip_with sq_diff y_true y_pred) == 0 -> r2_score y_true y_pred == 1.
Proof.
  intro Hn. unfold r2_score.
  destruct (Qeq_bool _ 0) eqn:Ed.
  - rewrite (Qeq_eq_bool _ _ Hn). reflexivity.
  - apply Qeq_bool_neq in Ed. rewrite Hn. field. exact Ed.
Qed.

(** The fit with [np.polyfit]'s error path. *)

Lemma all_zero_iff (x : list Q) :
  all_zero x = true <-> Forall (fun v => v == 0) x.
Proof.
  unfold all_zero. rewrite forallb_forall, Forall_forall.
  split; intros H v Hv; specialize (H v Hv).
  - now apply Qeq_bool_iff.
  - now apply Qeq_bool_iff.
Qed.

Lemma all_zero_false (x : list Q) (v : Q) :
  In v x -> ~ v == 0 -> all_zero x = false.
Proof.
  intros Hin Hv. destruct (all_zero x) eqn:E; [| reflexivity].
  apply all_zero_iff in E. rewrite Forall_forall in E.
  exfalso. exact (Hv (E v Hin)).
Qed.

Lemma distinct_not_all_zero (xs : list Q) :
  (2 <= length xs)%nat -> distinct xs -> all_zero xs = false.
Proof.
  intros Hlen Hd.
  destruct xs as [| x1 [| x2 xs]]; simpl in Hlen; try lia.
  inversion Hd as [| ? ? H1 _]; subst.
  inversion H1 as [| ? ? H12 _]; subst.
  destruct (Qeq_dec x1 0) as [E1 | N1].
  - apply (all_zero_false _ x2); [right; now left |].
    intro E2. apply H12. rewrite E1, E2. reflexivity.
  - apply (all_zero_false _ x1); [now left | exact N1].
Qed.

Lemma varying_not_all_zero (ys : list Q) (y y' : Q) :
  In y ys -> In y' ys -> ~ y == y' -> all_zero ys = false.
Proof.
  intros Hy Hy' Hne.
  destruct (Qeq_dec y 0) as [E | N].
  - apply (all_zero_false _ y' Hy').
    intro E'. apply Hne. rewrite E, E'. reflexivity.
  - exact (all_zero_false _ y Hy N).
Qed.

(** Where [np.polyfit] raises neither time, the fit is the one computed
    from the solver alone. *)
Lemma fit_and_evaluate_np_regular (np_sqrt : Q -> Q)
    (lstsq : list Q -> list Q -> list Q) (y x : list Q) (name : string) :
  x <> [] -> length y = length x ->
  all_zero x = false -> all_zero y = false ->
  fit_and_evaluate_np np_sqrt lstsq y x name
  = fit_and_evaluate np_sqrt lstsq y x name.
Proof.
  intros Hx Hlen Zx Zy.
  unfold fit_and_evaluate_np, fit_and_evaluate, np_polyfit.
  destruct x as [| x0 x]; [contradiction |].
  destruct y as [| y0 y]; [discriminate Hlen |].
  rewrite Zx, Zy, Hlen, Nat.eqb_refl. reflexivity.
Qed.

(** A returned fit means that neither call of [np.polyfit] raised. *)
Lemma fit_and_evaluate_np_inv (np_sqrt : Q -> Q)
    (lstsq : list Q -> list Q -> list Q) (y x : list Q) (name : string)
    (cf : ChannelFit) :
  fit_and_evaluate_np np_sqrt lstsq y x name = Return cf ->
  x <> [] /\ length y = length x
  /\ all_zero x = false /\ all_zero y = false
  /\ fit_and_evaluate np_sqrt lstsq y x name = Return cf.
Proof.
  intro H.
  assert (Hc : x <> [] /\ length y = length x
               /\ all_zero x = false /\ all_zero y = false).
  { unfold fit_and_evaluate_np, np_polyfit in H.
    destruct x as [| x0 x]; [discriminate H |].
    destruct (length (x0 :: x) =? length y)%nat eqn:El;
      [| discriminate H].
    apply Nat.eqb_eq in El. cbn [negb] in H.
    destruct (all_zero (x0 :: x)) eqn:Zx; [discriminate H |].
    cbn [bind np_min np_max] in H.
    destruct y as [| y0 y]; [discriminate El |].
    rewrite <- El, Nat.eqb_refl in H. cbn [negb] in H.
    destruct (all_zero (y0 :: y)) eqn:Zy; [discriminate H |].
    repeat split; auto. discriminate. }
  destruct Hc as (Hx & Hlen & Zx & Zy).
  rewrite (fit_and_evaluate_np_regular _ _ _ _ _ Hx Hlen Zx Zy) in H.
  repeat split; assumption.
Qed.

(** An all-zero channel makes the inverse [np.polyfit] raise. *)
Lemma fit_and_evaluate_np_zero_channel (np_sqrt : Q -> Q)
    (lstsq : list Q -> list Q -> list Q) (y x : list Q) (name : string) :
  x <> [] -> length y = length x ->
  all_zero x = false -> all_zero y = true ->
  fit_and_evaluate_np np_sqrt lstsq y x name
  = Raise (ValueError svd_message).
Proof.
  intros Hx Hlen Zx Zy.
  unfold fit_and_evaluate_np, np_polyfit.
  destruct x as [| x0 x]; [contradiction |].
  destruct y as [| y0 y]; [discriminate Hlen |].
  rewrite Zx, Zy, Hlen, Nat.eqb_refl. reflexivity.
Qed.

(** C5, for ordinates that are not all equal.  For 11 pairwise distinct
    abscissae and ordinates that are exactly a polynomial of degree at most
    2 in them and are not all equal, the routine returns, the forward fit is
    that polynomial and its R^2, computed on the fitted points, is 1. *)
Theorem forward_fit_r2_nonconstant (np_sqrt : Q -> Q) (xs ys : list Q)
    (a b c : Q) (name : string) :
  length xs = 11%nat ->
  ForallOrdPairs (fun x x' => ~ x == x') xs ->
  Forall2 (fun x y => y == a * x * x + b * x + c) xs ys ->
  (exists y y', In y ys /\ In y' ys /\ ~ y == y') ->
  exists cf : ChannelFit,
    fit_and_evaluate_np np_sqrt lstsq2 ys xs name = Return cf
    /\ Forall2 Qeq (coeffs cf) [a; b; c]
    /\ r2 cf == 1.
Proof.
  intros Hlen Hd Hy (y & y' & Hin & Hin' & Hne).
  assert (Hnil : xs <> []) by (intro E; rewrite E in Hlen; discriminate).
  assert (Hl : length ys = length xs)
    by (symmetry; exact (Forall2_length Hy)).
  rewrite (fit_and_evaluate_np_regular np_sqrt lstsq2 ys xs name Hnil Hl
             (distinct_not_all_zero xs ltac:(lia) Hd)
             (varying_not_all_zero ys y y' Hin Hin' Hne)).
  destruct (fit_and_evaluate_succeeds np_sqrt lstsq2 ys xs name Hnil)
    as [cf Hcf].
  exists cf. split; [exact Hcf |].
  assert (Hc : Forall2 Qeq (lstsq2 xs ys) [a; b; c])
    by (apply lstsq2_exact; [lia | exact Hd | exact Hy]).
  pose proof (fit_and_evaluate_inv _ _ _ _ _ _ Hcf) as (Ec & _ & _ & _ & Er & _).
  split.
  - rewrite Ec. exact Hc.
  - rewrite Er, Ec. apply r2_score_perfect.
    exact (residual_ss_exact _ a b c xs ys Hc Hy).
Qed.

Lemma forward_fit_r2_nonconstant_witness :
  exists cf : ChannelFit,
    fit_and_evaluate_np sqrt_floor lstsq2 quadratic_readings CONCENTRATIONS "R"
    = Return cf
    /\ Forall2 Qeq (coeffs cf) [2; -3; 7]
    /\ r2 cf == 1.
Proof.
  apply (forward_fit_r2_nonconstant sqrt_floor CONCENTRATIONS
           quadratic_readings 2 (-3) 7 "R").
  - reflexivity.
  - repeat (constructor; [repeat (constructor; [discriminate |]); constructor |]).
    constructor.
  - repeat (constructor; [vm_compute; reflexivity |]). constructor.
  - exists (nth 0 quadratic_readings 0), (nth 2 quadratic_readings 0).
    split; [left; reflexivity |].
    split; [right; right; left; reflexivity |].
    vm_compute. discriminate.
Defined.

(** The claim without the restriction fails: the zero readings are an
    exact polynomial (a = b = c = 0) of the 11 distinct reference
    concentrations, and the routine raises instead of reporting an R^2. *)
Lemma forward_fit_r2_zero_counterexample :
  length CONCENTRATIONS = 11%nat
  /\ ForallOrdPairs (fun x x' => ~ x == x') CONCENTRATIONS
  /\ Forall2 (fun x y => y == 0 * x * x + 0 * x + 0) CONCENTRATIONS
       (repeat 0 11)
  /\ ~ exists cf : ChannelFit,
         fit_and_evaluate_np sqrt_floor lstsq2 (repeat 0 11) CONCENTRATIONS "R"
         = Return cf
         /\ r2 cf == 1.
Proof.
  split; [reflexivity |].
  split.
  { repeat (constructor; [repeat (constructor; [discriminate |]); constructor |]).
    constructor. }
  split.
  { repeat (constructor; [vm_compute; reflexivity |]). constructor. }
  intros (cf & H & _).
  rewrite (fit_and_evaluate_np_zero_channel sqrt_floor lstsq2 (repeat 0 11)
             CONCENTRATIONS "R") in H; try reflexivity; discriminate.
Qed.

(** C9.  A channel of 11 identical readings equal to 0 is not fitted: the
    inverse [np.polyfit] raises [LinAlgError] and the routine returns no
    ChannelFit, whatever the solver and the square root. *)
Theorem zero_channel_fit_raises (np_sqrt : Q -> Q)
    (lstsq : list Q -> list Q -> list Q) (name : string) :
  fit_and_evaluate_np np_sqrt lstsq (repeat 0 11) CONCENTRATIONS name
  = Raise (ValueError "SVD did not converge in Linear Least Squares")
  /\ ~ succeeds
         (fit_and_evaluate_np np_sqrt lstsq (repeat 0 11) CONCENTRATIONS name).
Proof.
  assert (E : fit_and_evaluate_np np_sqrt lstsq (repeat 0 11) CONCENTRATIONS
                name
              = Raise (ValueError svd_message))
    by (apply fit_and_evaluate_np_zero_channel; try reflexivity; discriminate).
  split; [exact E |].
  intros [cf H]. rewrite E in H. discriminate H.
Qed.

Lemma wells_left_to_right_witness :
  exists rep blobs,
    analyze_strip_image sqrt_floor lstsq2 tiny_image tiny_plane sample_contours
    = Return rep
    /\ detect_blobs sample_contours [] = Return blobs
    /\ map b_x blobs = [2; 0]%Z
    /\ map b_x (select_blobs blobs) = [0; 2]%Z
    /\ forall i a b,
         nth_error (select_blobs blobs) i = Some a ->
         nth_error (select_blobs blobs) (S i) = Some b ->
         (b_x a <= b_x b)%Z.
Proof.
  destruct small_strip_succeeds as [rep H].
  destruct (wells_left_to_right sqrt_floor lstsq2 tiny_image tiny_plane
              sample_contours rep H) as (blobs & Hd & Hadj & _).
  exists rep, blobs.
  split; [exact H |]. split; [exact Hd |].
  vm_compute in Hd. injection Hd as <-.
  split; [reflexivity |]. split; [reflexivity | exact Hadj].
Defined.

Lemma predictions_clamped_witness :
  exists rep,
    analyze_strip_image sqrt_floor lstsq2 tiny_image tiny_plane sample_contours
    = Return rep
    /\ forall w : well_record,
         In w (color_values rep) ->
         (0 <= pred_from_r w /\ pred_from_r w <= 10)
         /\ (0 <= pred_from_g w /\ pred_from_g w <= 10)
         /\ (0 <= pred_from_b w /\ pred_from_b w <= 10)
         /\ (0 <= pred_from_rgb w /\ pred_from_rgb w <= 10).
Proof.
  destruct small_strip_succeeds as [rep H].
  exists rep. split; [exact H |].
  exact (proj2 (predictions_clamped sqrt_floor lstsq2 tiny_image tiny_plane
                  sample_contours rep H)).
Defined.

(** The clip is what keeps predictions in range: on these red-channel
    readings the inverse quadratic exceeds 10 at the last well. *)
Example clip_is_needed :
  let y := [242; 167; 159; 142; 135; 122; 125; 121; 115; 106; 99] in
  let inv := lstsq2 y CONCENTRATIONS in
  existsb (fun v => Qltb (poly1d inv v) 0 || Qltb 10 (poly1d inv v)) y = true
  /\ forallb
       (fun v => Qle_bool 0 (np_clip (poly1d inv v) 0 10)
                 && Qle_bool (np_clip (poly1d inv v) 0 10) 10) y = true.
Proof. vm_compute. split; reflexivity. Qed.

(* ================================================================= *)
(** * Further properties *)

(** ** RGB to HSV *)

Example rgb_to_hsv_primaries :
  match rgb_to_hsv_np [255; 0; 0; 255; 0] [0; 255; 0; 255; 0] [0; 0; 255; 0; 0]
  with
  | Return (h, s, v) => (map Qred h, map Qred s, map Qred v)
  | Raise _ => ([], [], [])
  end
  = ([0; 1 # 3; 2 # 3; 1 # 6; 0], [1; 1; 1; 1; 0], [1; 1; 1; 1; 0]).
Proof. vm_compute. reflexivity. Qed.

Lemma np_mod_range (x : Q) : 0 <= np_mod x 6 /\ np_mod x 6 < 6.
Proof.
  unfold np_mod.
  pose proof (Qfloor_le (x / 6)) as Hlo.
  pose proof (Qlt_floor (x / 6)) as Hhi.
  rewrite inject_Z_plus in Hhi.
  assert (E : x == 6 * (x / 6)) by (field; discriminate).
  set (q := x / 6) in *. set (f := inject_Z (Qfloor q)) in *.
  change (inject_Z 1) with 1 in Hhi.
  split; lra.
Qed.

Lemma Qfloor_unique (q : Q) (n : Z) :
  inject_Z n <= q -> q < inject_Z n + 1 -> Qfloor q = n.
Proof.
  intros Hlo Hhi.
  pose proof (Qfloor_le q) as Flo.
  pose proof (Qlt_floor q) as Fhi.
  rewrite inject_Z_plus in Fhi. change (inject_Z 1) with 1 in Fhi.
  assert (H1 : inject_Z (Qfloor q) < inject_Z (n + 1))
    by (rewrite inject_Z_plus; change (inject_Z 1) with 1; lra).
  assert (H2 : inject_Z n < inject_Z (Qfloor q + 1))
    by (rewrite inject_Z_plus; change (inject_Z 1) with 1; lra).
  rewrite <- Zlt_Qlt in H1, H2. lia.
Qed.

Lemma np_mod_shift (x : Q) (n : Z) :
  inject_Z n * 6 <= x -> x < inject_Z n * 6 + 6 ->
  np_mod x 6 == x - 6 * inject_Z n.
Proof.
  intros Hlo Hhi. unfold np_mod.
  rewrite (Qfloor_unique (x / 6) n).
  - reflexivity.
  - apply Qle_shift_div_l; [reflexivity | exact Hlo].
  - apply Qlt_shift_div_r; [reflexivity | lra].
Qed.

Lemma ratio_bounds (a d lo hi : Q) :
  0 < d -> lo * d <= a -> a <= hi * d -> lo <= a / d /\ a / d <= hi.
Proof.
  intros Hd Hlo Hhi. split.
  - now apply Qle_shift_div_l.
  - now apply Qle_shift_div_r.
Qed.

Lemma max3_spec (r g b : Q) :
  let cmax := Qmax (Qmax r g) b in
  r <= cmax /\ g <= cmax /\ b <= cmax
  /\ (cmax == r \/ cmax == g \/ cmax == b).
Proof.
  intro cmax. unfold cmax.
  destruct (Q.max_spec r g) as [[H1 E1] | [H1 E1]];
    destruct (Q.max_spec (Qmax r g) b) as [[H2 E2] | [H2 E2]];
    rewrite E2; rewrite ?E1 in *; repeat split; try lra; auto.
Qed.

Lemma min3_spec (r g b : Q) :
  let cmin := Qmin (Qmin r g) b in
  cmin <= r /\ cmin <= g /\ cmin <= b
  /\ (cmin == r \/ cmin == g \/ cmin == b).
Proof.
  intro cmin. unfold cmin.
  destruct (Q.min_spec r g) as [[H1 E1] | [H1 E1]];
    destruct (Q.min_spec (Qmin r g) b) as [[H2 E2] | [H2 E2]];
    rewrite E2; rewrite ?E1 in *; repeat split; try lra; auto.
Qed.

Lemma Qeq_bool_true (a b : Q) : a == b -> Qeq_bool a b = true.
Proof. apply Qeq_eq_bool. Qed.

Lemma Qeq_bool_false (a b : Q) : ~ a == b -> Qeq_bool a b = false.
Proof.
  intro H. destruct (Qeq_bool a b) eqn:E; [| reflexivity].
  apply Qeq_bool_iff in E. contradiction.
Qed.

(** The pixel function in closed form, by cases on the chroma and on the
    channel that holds the maximum (blue before green before red). *)
Lemma rgb_to_hsv_px_cases (r g b : Q) :
  let r' := r / 255 in
  let g' := g / 255 in
  let b' := b / 255 in
  let cmax := Qmax (Qmax r' g') b' in
  let cmin := Qmin (Qmin r' g') b' in
  let diff := cmax - cmin in
  let h := fst (fst (rgb_to_hsv_px r g b)) in
  let s := snd (fst (rgb_to_hsv_px r g b)) in
  let v := snd (rgb_to_hsv_px r g b) in
  v = cmax
  /\ ((cmax == 0 /\ s = 0) \/ (~ cmax == 0 /\ s = diff / cmax))
  /\ ((diff == 0 /\ h = 0 / 6)
      \/ (~ diff == 0 /\ cmax == b' /\ h = ((r' - g') / diff + 4) / 6)
      \/ (~ diff == 0 /\ ~ cmax == b' /\ cmax == g'
          /\ h = ((b' - r') / diff + 2) / 6)
      \/ (~ diff == 0 /\ ~ cmax == b' /\ ~ cmax == g' /\ cmax == r'
          /\ h = np_mod ((g' - b') / diff) 6 / 6)).
Proof.
  intros r' g' b' cmax cmin diff h s v.
  unfold h, s, v, rgb_to_hsv_px. cbv zeta.
  fold r' g' b'. fold cmax. fold cmin. fold diff.
  cbn [fst snd].
  split; [reflexivity |]. split.
  - destruct (Qeq_bool cmax 0) eqn:E0; cbn [negb].
    + left. apply Qeq_bool_iff in E0. now split.
    + right. apply Qeq_bool_neq in E0. now split.
  - destruct (Qeq_bool diff 0) eqn:Ed; cbn [negb].
    + left. apply Qeq_bool_iff in Ed. rewrite !andb_false_r. now split.
    + right. apply Qeq_bool_neq in Ed. rewrite !andb_true_r.
      destruct (Qeq_bool cmax b') eqn:Eb.
      * left. apply Qeq_bool_iff in Eb. repeat split; auto.
      * right. apply Qeq_bool_neq in Eb.
        destruct (Qeq_bool cmax g') eqn:Eg.
        -- left. apply Qeq_bool_iff in Eg. repeat split; auto.
        -- right. apply Qeq_bool_neq in Eg.
           destruct (Qeq_bool cmax r') eqn:Er.
           ++ apply Qeq_bool_iff in Er. repeat split; auto.
           ++ apply Qeq_bool_neq in Er. exfalso.
              destruct (max3_spec r' g' b') as (_ & _ & _ & [H | [H | H]]);
                fold cmax in H; contradiction.
Qed.

Lemma Qdiv_mult_const (x c : Q) : ~ c == 0 -> x / c * c == x.
Proof. intro H. field. exact H. Qed.

Ltac hsv_setup r g b :=
  pose proof (rgb_to_hsv_px_cases r g b) as Hcases;
  cbv zeta in Hcases;
  pose proof (max3_spec (r / 255) (g / 255) (b / 255)) as Hmax;
  pose proof (min3_spec (r / 255) (g / 255) (b / 255)) as Hmin;
  cbv zeta in Hmax, Hmin;
  set (cmax := Qmax (Qmax (r / 255) (g / 255)) (b / 255)) in *;
  set (cmin := Qmin (Qmin (r / 255) (g / 255)) (b / 255)) in *;
  clearbody cmax cmin;
  assert (Er : r / 255 * 255 == r) by (apply Qdiv_mult_const; discriminate);
  assert (Eg : g / 255 * 255 == g) by (apply Qdiv_mult_const; discriminate);
  assert (Eb : b / 255 * 255 == b) by (apply Qdiv_mult_const; discriminate);
  set (r' := r / 255) in *; set (g' := g / 255) in *;
  set (b' := b / 255) in *; clearbody r' g' b';
  destruct Hmax as (Mr & Mg & Mb & Mone);
  destruct Hmin as (mr & mg & mb & mone);
  destruct Hcases as (Hv & Hs & Hh).

Lemma rgb_to_hsv_px_range (r g b : Q) :
  0 <= r <= 255 -> 0 <= g <= 255 -> 0 <= b <= 255 ->
  (0 <= fst (fst (rgb_to_hsv_px r g b)) /\ fst (fst (rgb_to_hsv_px r g b)) < 1)
  /\ (0 <= snd (fst (rgb_to_hsv_px r g b))
      /\ snd (fst (rgb_to_hsv_px r g b)) <= 1)
  /\ (0 <= snd (rgb_to_hsv_px r g b) /\ snd (rgb_to_hsv_px r g b) <= 1).
Proof.
  intros Hr Hg Hb. hsv_setup r g b.
  split; [| split].
  - destruct Hh as [[_ ->] | [(Hd & _ & ->) | [(Hd & _ & _ & ->)
                                               | (Hd & _ & _ & _ & ->)]]].
    + split; [discriminate | reflexivity].
    + destruct (ratio_bounds (r' - g') (cmax - cmin) (-1) 1)
        as [L U]; [lra | lra | lra |].
      set (q := (r' - g') / (cmax - cmin)) in *.
      pose proof (Qdiv_mult_const (q + 4) 6) as E6.
      set (h := (q + 4) / 6) in *. split; lra.
    + destruct (ratio_bounds (b' - r') (cmax - cmin) (-1) 1)
        as [L U]; [lra | lra | lra |].
      set (q := (b' - r') / (cmax - cmin)) in *.
      pose proof (Qdiv_mult_const (q + 2) 6) as E6.
      set (h := (q + 2) / 6) in *. split; lra.
    + destruct (np_mod_range ((g' - b') / (cmax - cmin))) as [L U].
      set (q := np_mod _ 6) in *.
      pose proof (Qdiv_mult_const q 6) as E6.
      set (h := q / 6) in *. split; lra.
  - destruct Hs as [[_ ->] | [Hz ->]].
    + split; lra.
    + destruct (ratio_bounds (cmax - cmin) cmax 0 1) as [L U];
        [lra | lra | lra | split; assumption].
  - rewrite Hv. split; [lra |].
    destruct Mone as [E | [E | E]]; rewrite E; lra.
Qed.

Lemma rgb_to_hsv_px_grey (r g b : Q) :
  0 <= r -> 0 <= g -> 0 <= b ->
  (snd (fst (rgb_to_hsv_px r g b)) == 0 <-> r == g /\ g == b)
  /\ (r == g /\ g == b ->
      fst (fst (rgb_to_hsv_px r g b)) == 0
      /\ snd (rgb_to_hsv_px r g b) * 255 == r).
Proof.
  intros Hr Hg Hb. hsv_setup r g b.
  split.
  - split.
    + intro Hz. destruct Hs as [[Hc _] | [Hc Es]].
      * split; lra.
      * rewrite Es in Hz.
        assert (Hd : cmax - cmin == 0).
        { assert (E : cmax - cmin == (cmax - cmin) / cmax * cmax)
            by (field; exact Hc).
          rewrite E, Hz. ring. }
        split; lra.
    + intros [E1 E2]. destruct Hs as [[_ ->] | [Hc ->]]; [reflexivity |].
      assert (Hd : cmax - cmin == 0)
        by (destruct Mone as [E | [E | E]], mone as [F | [F | F]];
            rewrite E, F; lra).
      rewrite Hd. field. exact Hc.
  - intros [E1 E2]. split.
    + assert (Hd : cmax - cmin == 0)
        by (destruct Mone as [E | [E | E]], mone as [F | [F | F]];
            rewrite E, F; lra).
      destruct Hh as [[_ ->] | [(Hn & _) | [(Hn & _) | (Hn & _)]]];
        [reflexivity | contradiction | contradiction | contradiction].
    + rewrite Hv. destruct Mone as [E | [E | E]]; rewrite E; lra.
Qed.

Lemma rgb_to_hsv_px_full_saturation (r g b : Q) :
  0 <= r -> 0 <= g -> 0 <= b ->
  (snd (fst (rgb_to_hsv_px r g b)) == 1 <->
   (r == 0 \/ g == 0 \/ b == 0) /\ ~ (r == 0 /\ g == 0 /\ b == 0)).
Proof.
  intros Hr Hg Hb. hsv_setup r g b.
  destruct Hs as [[Hc ->] | [Hc ->]].
  - split.
    + intro H. exfalso. lra.
    + intros [_ Hn]. exfalso. apply Hn. repeat split; lra.
  - split.
    + intro H1.
      assert (Hm : cmin == 0).
      { assert (E : cmax - cmin == (cmax - cmin) / cmax * cmax)
          by (field; exact Hc).
        rewrite H1 in E. lra. }
      split.
      * destruct mone as [F | [F | F]]; rewrite F in Hm; [left | right; left | right; right]; lra.
      * intros (Z1 & Z2 & Z3). apply Hc.
        destruct Mone as [E | [E | E]]; rewrite E; lra.
    + intros [Hz _].
      assert (Hm : cmin == 0) by (destruct Hz as [Z | [Z | Z]]; lra).
      rewrite Hm. field. exact Hc.
Qed.

Lemma rgb_to_hsv_px_sector (r g b : Q) :
  let h := fst (fst (rgb_to_hsv_px r g b)) in
  ~ (r == g /\ g == b) ->
  (r <= b /\ g <= b -> (1 # 2) <= h /\ h <= (5 # 6))
  /\ (r <= g /\ b < g -> (1 # 6) <= h /\ h <= (1 # 2))
  /\ (g < r /\ b < r -> (0 <= h /\ h <= (1 # 6)) \/ ((5 # 6) <= h /\ h < 1)).
Proof.
  intros h Hcol. unfold h. clear h. hsv_setup r g b.
  assert (Hd : ~ cmax - cmin == 0).
  { intro E. apply Hcol. split; lra. }
  destruct Hh as [[Hz _] | Hh]; [contradiction |].
  split; [| split].
  - intros [H1 H2].
    destruct Hh as [(_ & _ & ->) | [(_ & Hn & _) | (_ & Hn & _)]].
    + destruct (ratio_bounds (r' - g') (cmax - cmin) (-1) 1)
        as [L U]; [lra | lra | lra |].
      set (q := (r' - g') / (cmax - cmin)) in *.
      pose proof (Qdiv_mult_const (q + 4) 6) as E6.
      set (h := (q + 4) / 6) in *. split; lra.
    + exfalso. apply Hn. destruct Mone as [E | [E | E]]; lra.
    + exfalso. apply Hn. destruct Mone as [E | [E | E]]; lra.
  - intros [H1 H2].
    destruct Hh as [(_ & Hb & _) | [(_ & _ & _ & ->) | (_ & _ & Hn & _)]].
    + exfalso. lra.
    + destruct (ratio_bounds (b' - r') (cmax - cmin) (-1) 1)
        as [L U]; [lra | lra | lra |].
      set (q := (b' - r') / (cmax - cmin)) in *.
      pose proof (Qdiv_mult_const (q + 2) 6) as E6.
      set (h := (q + 2) / 6) in *. split; lra.
    + exfalso. apply Hn. destruct Mone as [E | [E | E]]; lra.
  - intros [H1 H2].
    destruct Hh as [(_ & Hb & _) | [(_ & _ & Hg & _) | (_ & _ & _ & _ & ->)]].
    + exfalso. lra.
    + exfalso. lra.
    + destruct (ratio_bounds (g' - b') (cmax - cmin) (-1) 1)
        as [L U]; [lra | lra | lra |].
      set (q := (g' - b') / (cmax - cmin)) in *.
      destruct (Qlt_le_dec q 0) as [Hneg | Hpos].
      * right.
        pose proof (np_mod_shift q (-1)) as Hm.
        change (inject_Z (-1)) with (-1) in Hm.
        rewrite Hm by lra.
        pose proof (Qdiv_mult_const (q - 6 * -1) 6) as E6.
        set (h := (q - 6 * -1) / 6) in *. split; lra.
      * left.
        pose proof (np_mod_shift q 0) as Hm.
        change (inject_Z 0) with 0 in Hm.
        rewrite Hm by lra.
        pose proof (Qdiv_mult_const (q - 6 * 0) 6) as E6.
        set (h := (q - 6 * 0) / 6) in *. split; lra.
Qed.

Lemma Qdiv_unit (a d : Q) : ~ d == 0 -> a == d -> a / d == 1.
Proof. intros Hd E. rewrite E. field. exact Hd. Qed.

Lemma Qdiv_neg_unit (a d : Q) : ~ d == 0 -> a == - d -> a / d == -1.
Proof. intros Hd E. rewrite E. field. exact Hd. Qed.

Lemma np_mod_compat (x y : Q) : x == y -> np_mod x 6 == np_mod y 6.
Proof.
  intro E. unfold np_mod.
  assert (F : Qfloor (x / 6) = Qfloor (y / 6))
    by (apply Qfloor_comp; now rewrite E).
  rewrite F, E. reflexivity.
Qed.

Lemma rgb_to_hsv_px_order_free (r g b : Q) :
  fst (fst (rgb_to_hsv_px r g b)) == hue_first_match r g b.
Proof.
  unfold hue_first_match. cbv zeta.
  pose proof (rgb_to_hsv_px_cases r g b) as Hcases. cbv zeta in Hcases.
  pose proof (max3_spec (r / 255) (g / 255) (b / 255)) as Hmax.
  pose proof (min3_spec (r / 255) (g / 255) (b / 255)) as Hmin.
  cbv zeta in Hmax, Hmin.
  set (cmax := Qmax (Qmax (r / 255) (g / 255)) (b / 255)) in *.
  set (cmin := Qmin (Qmin (r / 255) (g / 255)) (b / 255)) in *.
  clearbody cmax cmin.
  set (r' := r / 255) in *. set (g' := g / 255) in *. set (b' := b / 255) in *.
  clearbody r' g' b'.
  destruct Hmax as (Mr & Mg & Mb & Mone).
  destruct Hmin as (mr & mg & mb & mone).
  destruct Hcases as (_ & _ & Hh).
  destruct Hh as [[Hd ->] | [(Hd & Eb & ->) | [(Hd & Nb & Eg & ->)
                                             | (Hd & Nb & Ng & Er & ->)]]].
  - now rewrite (Qeq_bool_true _ _ Hd).
  - rewrite (Qeq_bool_false _ _ Hd).
    destruct (Qeq_bool cmax r') eqn:Er.
    + apply Qeq_bool_iff in Er.
      assert (Hg : cmin == g') by (destruct mone as [F | [F | F]]; lra).
      rewrite (np_mod_compat _ (-1))
        by (apply Qdiv_neg_unit; [exact Hd | lra]).
      rewrite (Qdiv_unit (r' - g') (cmax - cmin)) by (auto; lra).
      reflexivity.
    + destruct (Qeq_bool cmax g') eqn:Eg.
      * apply Qeq_bool_iff in Eg.
        assert (Hr : cmin == r') by (destruct mone as [F | [F | F]]; lra).
        rewrite (Qdiv_unit (b' - r') (cmax - cmin)) by (auto; lra).
        rewrite (Qdiv_neg_unit (r' - g') (cmax - cmin)) by (auto; lra).
        reflexivity.
      * reflexivity.
  - rewrite (Qeq_bool_false _ _ Hd).
    destruct (Qeq_bool cmax r') eqn:Er.
    + apply Qeq_bool_iff in Er.
      assert (Hb : cmin == b') by (destruct mone as [F | [F | F]]; lra).
      rewrite (np_mod_compat _ 1) by (apply Qdiv_unit; [exact Hd | lra]).
      rewrite (Qdiv_neg_unit (b' - r') (cmax - cmin)) by (auto; lra).
      reflexivity.
    + now rewrite (Qeq_bool_true _ _ Eg).
  - rewrite (Qeq_bool_false _ _ Hd), (Qeq_bool_true _ _ Er). reflexivity.
Qed.

Lemma zip_with_nth {A B C : Type} (f : A -> B -> C) (l1 : list A)
    (l2 : list B) (i : nat) (da : A) (db : B) (dc : C) :
  (i < length l1)%nat -> (i < length l2)%nat ->
  nth i (zip_with f l1 l2) dc = f (nth i l1 da) (nth i l2 db).
Proof.
  revert l2 i.
  induction l1 as [| a l1 IH]; intros [| b l2] [| i]; simpl; intros H1 H2;
    try lia; auto.
  apply IH; lia.
Qed.

(** What a returned triple of arrays holds, element by element. *)
Lemma rgb_to_hsv_np_inv (r g b h s v : list Q) :
  rgb_to_hsv_np r g b = Return (h, s, v) ->
  length g = length r /\ length b = length r
  /\ length h = length r /\ length s = length r /\ length v = length r
  /\ forall i, (i < length r)%nat ->
       rgb_to_hsv_px (nth i r 0) (nth i g 0) (nth i b 0)
       = (nth i h 0, nth i s 0, nth i v 0).
Proof.
  unfold rgb_to_hsv_np.
  destruct ((length r =? length g)%nat && (length g =? length b)%nat) eqn:E;
    [| discriminate].
  apply andb_true_iff in E. destruct E as [E1 E2].
  apply Nat.eqb_eq in E1, E2.
  intro H. injection H as <- <- <-.
  rewrite !length_map, !zip_with_length.
  repeat (split; [lia |]).
  intros i Hi.
  set (px := zip_with _ (zip_with pair r g) b).
  assert (Hpx : nth i px (0, 0, 0)
                = rgb_to_hsv_px (nth i r 0) (nth i g 0) (nth i b 0)).
  { unfold px.
    rewrite (zip_with_nth _ _ _ i (0, 0) 0 (0, 0, 0))
      by (rewrite ?zip_with_length; lia).
    rewrite (zip_with_nth pair r g i 0 0 (0, 0)) by lia.
    reflexivity. }
  rewrite <- Hpx.
  assert (Eh : nth i (map (fun t : Q * Q * Q => fst (fst t)) px) 0
               = fst (fst (nth i px (0, 0, 0))))
    by exact (map_nth (fun t : Q * Q * Q => fst (fst t)) px (0, 0, 0) i).
  assert (Es : nth i (map (fun t : Q * Q * Q => snd (fst t)) px) 0
               = snd (fst (nth i px (0, 0, 0))))
    by exact (map_nth (fun t : Q * Q * Q => snd (fst t)) px (0, 0, 0) i).
  assert (Ev : nth i (map snd px) 0 = snd (nth i px (0, 0, 0)))
    by exact (map_nth (@snd (Q * Q) Q) px (0, 0, 0) i).
  rewrite Eh, Es, Ev.
  now destruct (nth i px (0, 0, 0)) as [[? ?] ?].
Qed.

Lemma rgb_to_hsv_np_shape (r g b : list Q) :
  succeeds (rgb_to_hsv_np r g b) <->
  length r = length g /\ length g = length b.
Proof.
  unfold rgb_to_hsv_np, succeeds.
  destruct ((length r =? length g)%nat && (length g =? length b)%nat) eqn:E.
  - apply andb_true_iff in E. rewrite !Nat.eqb_eq in E.
    split; [intros _; exact E | intros _; eexists; reflexivity].
  - split; [intros [a H]; discriminate |].
    intros [E1 E2]. rewrite E1, E2, !Nat.eqb_refl in E. discriminate.
Qed.

Lemma In_nth_Q (l : list Q) (x : Q) :
  In x l -> exists i, (i < length l)%nat /\ nth i l 0 = x.
Proof. apply In_nth. Qed.

(** X1.  [rgb_to_hsv_np] on channel arrays with values in 0..255 returns
    three arrays of the input length with every hue in [0, 1) and every
    saturation and value in [0, 1]. *)
Theorem rgb_to_hsv_np_ranges (r g b h s v : list Q) :
  rgb_to_hsv_np r g b = Return (h, s, v) ->
  Forall (fun x => 0 <= x /\ x <= 255) (r ++ g ++ b) ->
  (length h = length r /\ length s = length r /\ length v = length r)
  /\ Forall (fun x => 0 <= x /\ x < 1) h
  /\ Forall (fun x => 0 <= x /\ x <= 1) s
  /\ Forall (fun x => 0 <= x /\ x <= 1) v.
Proof.
  intros H Hin.
  destruct (rgb_to_hsv_np_inv _ _ _ _ _ _ H)
    as (Lg & Lb & Lh & Ls & Lv & Hpx).
  rewrite !Forall_app in Hin. destruct Hin as (Fr & Fg & Fb).
  rewrite Forall_forall in Fr, Fg, Fb.
  assert (Hall : forall i, (i < length r)%nat ->
            (0 <= nth i h 0 /\ nth i h 0 < 1)
            /\ (0 <= nth i s 0 /\ nth i s 0 <= 1)
            /\ (0 <= nth i v 0 /\ nth i v 0 <= 1)).
  { intros i Hi.
    assert (Hig : (i < length g)%nat) by lia.
    assert (Hib : (i < length b)%nat) by lia.
    pose proof (rgb_to_hsv_px_range (nth i r 0) (nth i g 0) (nth i b 0)
                  (Fr _ (nth_In r 0 Hi))
                  (Fg _ (nth_In g 0 Hig))
                  (Fb _ (nth_In b 0 Hib))) as P.
    rewrite (Hpx i Hi) in P. exact P. }
  split; [repeat split; assumption |].
  repeat split; apply Forall_forall; intros x Hx;
    apply In_nth_Q in Hx; destruct Hx as (i & Hi & <-);
    apply Hall; lia.
Qed.

Lemma rgb_to_hsv_np_ranges_witness :
  exists h s v,
    rgb_to_hsv_np hsv_r hsv_g hsv_b = Return (h, s, v)
    /\ Forall (fun x => 0 <= x /\ x < 1) h
    /\ Forall (fun x => 0 <= x /\ x <= 1) s
    /\ Forall (fun x => 0 <= x /\ x <= 1) v.
Proof.
  destruct (rgb_to_hsv_np hsv_r hsv_g hsv_b) as [[[h s] v] | e] eqn:E.
  - exists h, s, v. split; [reflexivity |].
    apply (rgb_to_hsv_np_ranges hsv_r hsv_g hsv_b h s v E).
    repeat (constructor; [split; discriminate |]). constructor.
  - vm_compute in E. discriminate E.
Defined.

Lemma Forall_app3_nth (P : Q -> Prop) (r g b : list Q) (i : nat) :
  Forall P (r ++ g ++ b) ->
  length g = length r -> length b = length r -> (i < length r)%nat ->
  P (nth i r 0) /\ P (nth i g 0) /\ P (nth i b 0).
Proof.
  intros H Lg Lb Hi.
  rewrite !Forall_app in H. destruct H as (Fr & Fg & Fb).
  rewrite Forall_forall in Fr, Fg, Fb.
  repeat split; [apply Fr | apply Fg | apply Fb]; apply nth_In; lia.
Qed.

(** X2.  Saturation is zero exactly at the grey elements (equal red, green
    and blue); there the hue is 0 and the value is the common level over
    255, with no division by the zero chroma. *)
Theorem rgb_to_hsv_np_grey (r g b h s v : list Q) :
  rgb_to_hsv_np r g b = Return (h, s, v) ->
  Forall (fun x => 0 <= x) (r ++ g ++ b) ->
  forall i, (i < length r)%nat ->
    (nth i s 0 == 0 <-> nth i r 0 == nth i g 0 /\ nth i g 0 == nth i b 0)
    /\ (nth i r 0 == nth i g 0 /\ nth i g 0 == nth i b 0 ->
        nth i h 0 == 0 /\ nth i v 0 * 255 == nth i r 0).
Proof.
  intros H Hin i Hi.
  destruct (rgb_to_hsv_np_inv _ _ _ _ _ _ H) as (Lg & Lb & _ & _ & _ & Hpx).
  destruct (Forall_app3_nth _ r g b i Hin Lg Lb Hi) as (Pr & Pg & Pb).
  pose proof (rgb_to_hsv_px_grey _ _ _ Pr Pg Pb) as P.
  rewrite (Hpx i Hi) in P. exact P.
Qed.

Lemma rgb_to_hsv_np_grey_witness :
  exists h s v,
    rgb_to_hsv_np hsv_r hsv_g hsv_b = Return (h, s, v)
    /\ nth 5 s 0 == 0 /\ nth 5 h 0 == 0 /\ nth 5 v 0 * 255 == 128.
Proof.
  destruct (rgb_to_hsv_np hsv_r hsv_g hsv_b) as [[[h s] v] | e] eqn:E.
  - exists h, s, v. split; [reflexivity |].
    assert (Hnn : Forall (fun x => 0 <= x) (hsv_r ++ hsv_g ++ hsv_b))
      by (repeat (constructor; [discriminate |]); constructor).
    assert (Hi : (5 < length hsv_r)%nat) by (simpl; lia).
    destruct (rgb_to_hsv_np_grey hsv_r hsv_g hsv_b h s v E Hnn 5%nat Hi)
      as [Hs Hhv].
    assert (Hgrey : nth 5 hsv_r 0 == nth 5 hsv_g 0
                    /\ nth 5 hsv_g 0 == nth 5 hsv_b 0)
      by (split; reflexivity).
    split; [apply Hs; exact Hgrey | exact (Hhv Hgrey)].
  - vm_compute in E. discriminate E.
Defined.

(** X3.  The hue of a coloured element lies in the sector of its largest
    channel: [1/2, 5/6] when blue is a maximum, [1/6, 1/2] when green is a
    maximum and blue is not, and [0, 1/6] or [5/6, 1) when red alone is the
    maximum. *)
Theorem rgb_to_hsv_np_hue_sector (r g b h s v : list Q) :
  rgb_to_hsv_np r g b = Return (h, s, v) ->
  forall i, (i < length r)%nat ->
    ~ (nth i r 0 == nth i g 0 /\ nth i g 0 == nth i b 0) ->
    (nth i r 0 <= nth i b 0 /\ nth i g 0 <= nth i b 0 ->
     (1 # 2) <= nth i h 0 /\ nth i h 0 <= (5 # 6))
    /\ (nth i r 0 <= nth i g 0 /\ nth i b 0 < nth i g 0 ->
        (1 # 6) <= nth i h 0 /\ nth i h 0 <= (1 # 2))
    /\ (nth i g 0 < nth i r 0 /\ nth i b 0 < nth i r 0 ->
        (0 <= nth i h 0 /\ nth i h 0 <= (1 # 6))
        \/ ((5 # 6) <= nth i h 0 /\ nth i h 0 < 1)).
Proof.
  intros H i Hi Hcol.
  destruct (rgb_to_hsv_np_inv _ _ _ _ _ _ H) as (_ & _ & _ & _ & _ & Hpx).
  pose proof (rgb_to_hsv_px_sector (nth i r 0) (nth i g 0) (nth i b 0)) as P.
  cbv zeta in P. rewrite (Hpx i Hi) in P. exact (P Hcol).
Qed.

Lemma rgb_to_hsv_np_hue_sector_witness :
  exists h s v,
    rgb_to_hsv_np hsv_r hsv_g hsv_b = Return (h, s, v)
    /\ ((0 <= nth 7 h 0 /\ nth 7 h 0 <= (1 # 6))
        \/ ((5 # 6) <= nth 7 h 0 /\ nth 7 h 0 < 1)).
Proof.
  destruct (rgb_to_hsv_np hsv_r hsv_g hsv_b) as [[[h s] v] | e] eqn:E.
  - exists h, s, v. split; [reflexivity |].
    assert (Hi : (7 < length hsv_r)%nat) by (simpl; lia).
    assert (Hcol : ~ (nth 7 hsv_r 0 == nth 7 hsv_g 0
                      /\ nth 7 hsv_g 0 == nth 7 hsv_b 0))
      by (intros [H1 _]; discriminate H1).
    apply (proj2 (proj2 (rgb_to_hsv_np_hue_sector hsv_r hsv_g hsv_b h s v E
                           7%nat Hi Hcol))).
    split; reflexivity.
  - vm_compute in E. discriminate E.
Defined.

(** X4.  The hue does not depend on the order of the three masked
    assignments: where two channels tie for the maximum their formulas give
    the same hue, so taking the first matching channel instead of the last
    returns the same array. *)
Theorem rgb_to_hsv_np_hue_order_free (r g b h s v : list Q) :
  rgb_to_hsv_np r g b = Return (h, s, v) ->
  forall i, (i < length r)%nat ->
    nth i h 0 == hue_first_match (nth i r 0) (nth i g 0) (nth i b 0).
Proof.
  intros H i Hi.
  destruct (rgb_to_hsv_np_inv _ _ _ _ _ _ H) as (_ & _ & _ & _ & _ & Hpx).
  pose proof (rgb_to_hsv_px_order_free (nth i r 0) (nth i g 0) (nth i b 0))
    as P.
  rewrite (Hpx i Hi) in P. exact P.
Qed.

Lemma rgb_to_hsv_np_hue_order_free_witness :
  exists h s v,
    rgb_to_hsv_np hsv_r hsv_g hsv_b = Return (h, s, v)
    /\ nth 3 h 0 == hue_first_match 255 255 0
    /\ nth 6 h 0 == hue_first_match 255 0 255.
Proof.
  destruct (rgb_to_hsv_np hsv_r hsv_g hsv_b) as [[[h s] v] | e] eqn:E.
  - exists h, s, v. split; [reflexivity |].
    split.
    + apply (rgb_to_hsv_np_hue_order_free hsv_r hsv_g hsv_b h s v E 3%nat).
      simpl. lia.
    + apply (rgb_to_hsv_np_hue_order_free hsv_r hsv_g hsv_b h s v E 6%nat).
      simpl. lia.
  - vm_compute in E. discriminate E.
Defined.

(** X5.  Saturation is 1 exactly at the elements that have a zero channel
    and are not black. *)
Theorem rgb_to_hsv_np_full_saturation (r g b h s v : list Q) :
  rgb_to_hsv_np r g b = Return (h, s, v) ->
  Forall (fun x => 0 <= x) (r ++ g ++ b) ->
  forall i, (i < length r)%nat ->
    nth i s 0 == 1 <->
    (nth i r 0 == 0 \/ nth i g 0 == 0 \/ nth i b 0 == 0)
    /\ ~ (nth i r 0 == 0 /\ nth i g 0 == 0 /\ nth i b 0 == 0).
Proof.
  intros H Hin i Hi.
  destruct (rgb_to_hsv_np_inv _ _ _ _ _ _ H) as (Lg & Lb & _ & _ & _ & Hpx).
  destruct (Forall_app3_nth _ r g b i Hin Lg Lb Hi) as (Pr & Pg & Pb).
  pose proof (rgb_to_hsv_px_full_saturation _ _ _ Pr Pg Pb) as P.
  rewrite (Hpx i Hi) in P. exact P.
Qed.

Lemma rgb_to_hsv_np_full_saturation_witness :
  exists h s v,
    rgb_to_hsv_np hsv_r hsv_g hsv_b = Return (h, s, v)
    /\ nth 3 s 0 == 1 /\ ~ nth 4 s 0 == 1 /\ ~ nth 7 s 0 == 1.
Proof.
  destruct (rgb_to_hsv_np hsv_r hsv_g hsv_b) as [[[h s] v] | e] eqn:E.
  - exists h, s, v. split; [reflexivity |].
    assert (Hnn : Forall (fun x => 0 <= x) (hsv_r ++ hsv_g ++ hsv_b))
      by (repeat (constructor; [discriminate |]); constructor).
    pose proof (rgb_to_hsv_np_full_saturation hsv_r hsv_g hsv_b h s v E Hnn)
      as T.
    split; [| split].
    + apply (T 3%nat); [simpl; lia |].
      split; [right; right; reflexivity | intros (H1 & _); discriminate H1].
    + intro H4. apply (T 4%nat) in H4; [| simpl; lia].
      destruct H4 as [_ Hn]. apply Hn. repeat split; reflexivity.
    + intro H7. apply (T 7%nat) in H7; [| simpl; lia].
      destruct H7 as [[Z | [Z | Z]] _]; discriminate Z.
  - vm_compute in E. discriminate E.
Defined.

(** ** Blobs and their selection *)

Section SortStability.
Context {A : Type} (leb : A -> A -> bool) (P : A -> bool).

Hypothesis same_class :
  forall a b, P a = true -> P b = true -> leb a b = true.

Lemma insert_sorted_filter (a : A) (l : list A) :
  filter P (insert_sorted leb a l)
  = if P a then a :: filter P l else filter P l.
Proof.
  induction l as [| b l IH]; simpl.
  - reflexivity.
  - destruct (leb a b) eqn:E; simpl.
    + reflexivity.
    + rewrite IH.
      destruct (P a) eqn:Pa; destruct (P b) eqn:Pb; try reflexivity.
      rewrite (same_class a b Pa Pb) in E. discriminate.
Qed.

Lemma sorted_filter (l : list A) : filter P (sorted leb l) = filter P l.
Proof.
  induction l as [| a l IH]; simpl.
  - reflexivity.
  - rewrite insert_sorted_filter, IH. reflexivity.
Qed.
End SortStability.

Lemma sorted_fixed {A : Type} (leb : A -> A -> bool) (l : list A) :
  StronglySorted (fun a b => leb a b = true) l -> sorted leb l = l.
Proof.
  induction 1 as [| a l Hs IH Ha]; simpl.
  - reflexivity.
  - rewrite IH. destruct l as [| b l]; simpl.
    + reflexivity.
    + inversion Ha as [| ? ? Hab _]; subst. now rewrite Hab.
Qed.

Lemma select_blobs_sorted_leb (blobs : list blob) :
  StronglySorted (fun a b => x_leb a b = true) (select_blobs blobs).
Proof.
  rewrite select_blobs_unfold.
  destruct (EXPECTED_COLS <? length blobs)%nat;
    apply sorted_ordered; first [exact x_leb_total | exact x_leb_trans].
Qed.

(** X6.  Selecting twice changes nothing: the selector returns its own
    output unchanged. *)
Theorem select_blobs_idempotent (blobs : list blob) :
  select_blobs (select_blobs blobs) = select_blobs blobs.
Proof.
  rewrite (select_blobs_unfold (select_blobs blobs)).
  assert (H : (EXPECTED_COLS <? length (select_blobs blobs))%nat = false).
  { apply Nat.ltb_ge. rewrite select_blobs_length. lia. }
  rewrite H. apply sorted_fixed, select_blobs_sorted_leb.
Qed.

(** X7.  With at most 11 blobs, blobs that share an x-centroid stay in
    their detection order: for every x, the selected blobs with that x are
    the detected blobs with that x, in the same order. *)
Theorem select_blobs_stable (blobs : list blob) (x : Z) :
  (length blobs <= 11)%nat ->
  filter (fun b => (b_x b =? x)%Z) (select_blobs blobs)
  = filter (fun b => (b_x b =? x)%Z) blobs.
Proof.
  intro H. rewrite select_blobs_unfold.
  replace (EXPECTED_COLS <? length blobs)%nat with false
    by (symmetry; apply Nat.ltb_ge; exact H).
  apply sorted_filter.
  intros a b Ha Hb. unfold x_leb.
  apply Z.eqb_eq in Ha, Hb. apply Z.leb_le. lia.
Qed.

Lemma select_blobs_stable_witness :
  (length tied_blobs <= 11)%nat
  /\ map b_y (filter (fun b => (b_x b =? 7)%Z) (select_blobs tied_blobs))
     = [1; 3; 5]%Z.
Proof.
  assert (H : (length tied_blobs <= 11)%nat) by (simpl; lia).
  split; [exact H |].
  rewrite (select_blobs_stable tied_blobs 7 H). reflexivity.
Defined.

(** X8.  Every blob the loop returns comes from a contour of the list and
    has that contour's area, at least 60, and circularity, at least 0.3;
    there are never more blobs than contours. *)
Theorem detected_blobs_qualify (cnts : list contour) (blobs : list blob) :
  detect_blobs cnts [] = Return blobs ->
  (length blobs <= length cnts)%nat
  /\ Forall
       (fun b =>
          (60 <= b_area b /\ (3 # 10) <= b_circ b)
          /\ exists c, In c cnts /\ b = blob_of c
                       /\ b_area b = contourArea c
                       /\ ~ arcLength c == 0)
       blobs.
Proof.
  rewrite detect_blobs_spec. cbn [app]. intro H. injection H as <-.
  split.
  - rewrite length_map. apply filter_length_le.
  - apply Forall_forall. intros b Hb.
    apply in_map_iff in Hb. destruct Hb as (c & <- & Hc).
    apply filter_In in Hc. destruct Hc as [Hin Hret].
    apply retained_iff in Hret. destruct Hret as (Hp & Ha & Hcirc).
    assert (Ea : b_area (blob_of c) = contourArea c)
      by (unfold blob_of; now destruct (minEnclosingCircle c) as [[? ?] ?]).
    assert (Ec : b_circ (blob_of c) = circularity c)
      by (unfold blob_of; now destruct (minEnclosingCircle c) as [[? ?] ?]).
    rewrite Ea, Ec. split; [now split |].
    exists c. repeat split; auto.
Qed.

Lemma detected_blobs_qualify_witness :
  exists blobs,
    detect_blobs sample_contours [] = Return blobs
    /\ (length blobs <= length sample_contours)%nat
    /\ Forall (fun b => 60 <= b_area b /\ (3 # 10) <= b_circ b) blobs.
Proof.
  destruct (detect_blobs sample_contours []) as [blobs | e] eqn:E.
  - exists blobs. split; [reflexivity |].
    destruct (detected_blobs_qualify sample_contours blobs E) as [Hl Hq].
    split; [exact Hl |].
    eapply Forall_impl; [| exact Hq]. intros b [Hb _]. exact Hb.
  - vm_compute in E. discriminate E.
Defined.

(** ** Colour sampler *)

Lemma Qsum_bounds (lo hi : Q) (l : list Q) :
  Forall (fun v => lo <= v /\ v <= hi) l ->
  inject_Z (Z.of_nat (length l)) * lo <= Qsum l
  /\ Qsum l <= inject_Z (Z.of_nat (length l)) * hi.
Proof.
  induction 1 as [| v l [Hlo Hhi] _ [IHlo IHhi]].
  - unfold Qsum. cbn [length fold_right Z.of_nat].
    change (inject_Z 0) with 0. split; lra.
  - cbn [length Qsum fold_right]. fold (Qsum l).
    rewrite Nat2Z.inj_succ. unfold Z.succ. rewrite inject_Z_plus.
    change (inject_Z 1) with 1.
    set (n := inject_Z (Z.of_nat (length l))) in *. split; lra.
Qed.

Lemma np_mean_bounds (lo hi : Q) (l : list Q) :
  l <> [] -> Forall (fun v => lo <= v /\ v <= hi) l ->
  lo <= np_mean l /\ np_mean l <= hi.
Proof.
  intros Hne Hall. destruct (Qsum_bounds lo hi l Hall) as [Hlo Hhi].
  unfold np_mean.
  assert (Hn : 0 < inject_Z (Z.of_nat (length l))).
  { destruct l as [| v l]; [contradiction |].
    change 0 with (inject_Z 0). rewrite <- Zlt_Qlt. simpl. lia. }
  apply ratio_bounds; [exact Hn | lra | lra].
Qed.

Lemma uint8_inject (z : Z) : uint8 z -> 0 <= inject_Z z /\ inject_Z z <= 255.
Proof.
  intros [H0 H1]. split.
  - change 0 with (inject_Z 0). now rewrite <- Zle_Qle.
  - change 255 with (inject_Z 255). now rewrite <- Zle_Qle.
Qed.

Lemma pixel_at_uint8 (img : image) (p : nat * nat) :
  Forall (Forall (fun px => uint8 (fst (fst px)) /\ uint8 (snd (fst px))
                            /\ uint8 (snd px))) img ->
  uint8 (fst (fst (pixel_at img p))) /\ uint8 (snd (fst (pixel_at img p)))
  /\ uint8 (snd (pixel_at img p)).
Proof.
  intro H. unfold pixel_at.
  assert (Hrow : Forall (fun px => uint8 (fst (fst px)) /\ uint8 (snd (fst px))
                                   /\ uint8 (snd px)) (nth (fst p) img [])).
  { destruct (nth_in_or_default (fst p) img []) as [Hin | ->];
      [| constructor].
    rewrite Forall_forall in H. now apply H. }
  destruct (nth_in_or_default (snd p) (nth (fst p) img []) (0, 0, 0)%Z)
    as [Hin | ->].
  - rewrite Forall_forall in Hrow. now apply Hrow.
  - cbn [fst snd]. unfold uint8. lia.
Qed.

Lemma value_at_uint8 (pl : plane) (p : nat * nat) :
  Forall (Forall uint8) pl -> uint8 (value_at pl p).
Proof.
  intro H. unfold value_at.
  assert (Hrow : Forall uint8 (nth (fst p) pl [])).
  { destruct (nth_in_or_default (fst p) pl []) as [Hin | ->];
      [| constructor].
    rewrite Forall_forall in H. now apply H. }
  destruct (nth_in_or_default (snd p) (nth (fst p) pl []) 0%Z) as [Hin | ->].
  - rewrite Forall_forall in Hrow. now apply Hrow.
  - unfold uint8. lia.
Qed.

Lemma sample_blob_cases (np_sqrt : Q -> Q) (img : image) (S : plane)
    (b : blob) :
  let mask := mask_circle (length img) (length (hd [] img)) (b_x b) (b_y b)
                (sample_radius (b_r b)) in
  (mask = [] /\ sample_blob np_sqrt img S b = zero_stats)
  \/ (mask <> []
      /\ sample_blob np_sqrt img S b
         = mkStats
             (np_mean (map (fun p => chan_r (pixel_at img p)) mask))
             (np_mean (map (fun p => chan_g (pixel_at img p)) mask))
             (np_mean (map (fun p => chan_b (pixel_at img p)) mask))
             (np_mean (map (fun p => inject_Z (value_at S p)) mask))
             (np_std np_sqrt (map (fun p => chan_r (pixel_at img p)) mask))
             (np_std np_sqrt (map (fun p => chan_g (pixel_at img p)) mask))
             (np_std np_sqrt (map (fun p => chan_b (pixel_at img p)) mask))).
Proof.
  intro mask. unfold sample_blob. fold mask.
  destruct mask as [| p m].
  - left. split; reflexivity.
  - right. split; [discriminate | reflexivity].
Qed.

(** X9.  On an 8-bit image and saturation plane every sampled mean (red,
    green, blue, saturation) lies in [0, 255], for any blob. *)
Theorem sampled_means_in_range (np_sqrt : Q -> Q) (img : image) (S : plane)
    (b : blob) :
  Forall (Forall (fun px => uint8 (fst (fst px)) /\ uint8 (snd (fst px))
                            /\ uint8 (snd px))) img ->
  Forall (Forall uint8) S ->
  let st := sample_blob np_sqrt img S b in
  (0 <= r_mean st /\ r_mean st <= 255)
  /\ (0 <= g_mean st /\ g_mean st <= 255)
  /\ (0 <= b_mean st /\ b_mean st <= 255)
  /\ (0 <= s_mean st /\ s_mean st <= 255).
Proof.
  intros Himg HS st. unfold st.
  destruct (sample_blob_cases np_sqrt img S b) as [[_ ->] | [Hne ->]].
  - cbn. repeat split; discriminate.
  - cbn [r_mean g_mean b_mean s_mean]. unfold chan_r, chan_g, chan_b.
    set (mask := mask_circle _ _ _ _ _) in *.
    assert (Hm : forall A (f : nat * nat -> A), map f mask <> [])
      by (intros A f E; apply map_eq_nil in E; contradiction).
    assert (Hpx : forall (f : Z * Z * Z -> Z),
              (forall px, uint8 (fst (fst px)) /\ uint8 (snd (fst px))
                          /\ uint8 (snd px) -> uint8 (f px)) ->
              0 <= np_mean (map (fun p => inject_Z (f (pixel_at img p))) mask)
              /\ np_mean (map (fun p => inject_Z (f (pixel_at img p))) mask)
                 <= 255).
    { intros f Hf. apply np_mean_bounds; [apply Hm |].
      apply Forall_forall. intros v Hv.
      apply in_map_iff in Hv. destruct Hv as (p & <- & _).
      apply uint8_inject, Hf, pixel_at_uint8, Himg. }
    split; [| split; [| split]].
    + apply (Hpx (fun px => snd px)). tauto.
    + apply (Hpx (fun px => snd (fst px))). tauto.
    + apply (Hpx (fun px => fst (fst px))). tauto.
    + apply np_mean_bounds; [apply Hm |].
      apply Forall_forall. intros v Hv.
      apply in_map_iff in Hv. destruct Hv as (p & <- & _).
      apply uint8_inject, value_at_uint8, HS.
Qed.

Lemma sampled_means_in_range_witness :
  let st := sample_blob sqrt_floor tiny_image tiny_plane (mkBlob 2 1 2 80 1) in
  (0 <= r_mean st /\ r_mean st <= 255)
  /\ (0 <= g_mean st /\ g_mean st <= 255)
  /\ (0 <= b_mean st /\ b_mean st <= 255)
  /\ (0 <= s_mean st /\ s_mean st <= 255).
Proof.
  apply (sampled_means_in_range sqrt_floor tiny_image tiny_plane
           (mkBlob 2 1 2 80 1)).
  - repeat (constructor;
            [repeat (constructor; [unfold uint8; cbn; lia |]); constructor |]).
    constructor.
  - repeat (constructor;
            [repeat (constructor; [unfold uint8; lia |]); constructor |]).
    constructor.
Defined.

Lemma sample_radius_positive (r : Z) : (1 <= sample_radius r)%Z.
Proof. rewrite sample_radius_spec. lia. Qed.

Lemma mask_contains_centroid (h w : nat) (cx cy rr : Z) :
  (0 <= cx < Z.of_nat w)%Z -> (0 <= cy < Z.of_nat h)%Z -> (1 <= rr)%Z ->
  In (Z.to_nat cy, Z.to_nat cx) (mask_circle h w cx cy rr).
Proof.
  intros Hx Hy Hr. apply mask_circle_spec.
  rewrite !Z2Nat.id by lia.
  repeat split; first [lia | nia].
Qed.

Lemma sampler_centroid_inside_lemma (np_sqrt : Q -> Q) (img : image) (S : plane)
    (b : blob) :
  (0 <= b_x b < Z.of_nat (length (hd [] img)))%Z ->
  (0 <= b_y b < Z.of_nat (length img))%Z ->
  let mask := mask_circle (length img) (length (hd [] img)) (b_x b) (b_y b)
                (sample_radius (b_r b)) in
  In (Z.to_nat (b_y b), Z.to_nat (b_x b)) mask
  /\ (forall Y X, In (Y, X) mask ->
        (Y < length img)%nat /\ (X < length (hd [] img))%nat
        /\ ((Z.of_nat X - b_x b) ^ 2 + (Z.of_nat Y - b_y b) ^ 2
            <= sample_radius (b_r b) * sample_radius (b_r b))%Z)
  /\ r_mean (sample_blob np_sqrt img S b)
     = np_mean (map (fun p => chan_r (pixel_at img p)) mask)
  /\ g_mean (sample_blob np_sqrt img S b)
     = np_mean (map (fun p => chan_g (pixel_at img p)) mask)
  /\ b_mean (sample_blob np_sqrt img S b)
     = np_mean (map (fun p => chan_b (pixel_at img p)) mask)
  /\ s_mean (sample_blob np_sqrt img S b)
     = np_mean (map (fun p => inject_Z (value_at S p)) mask).
Proof.
  intros Hx Hy mask.
  assert (Hin : In (Z.to_nat (b_y b), Z.to_nat (b_x b)) mask)
    by (apply mask_contains_centroid; auto using sample_radius_positive).
  split; [exact Hin |].
  split; [intros Y X H; now apply mask_circle_spec in H |].
  destruct (sample_blob_cases np_sqrt img S b) as [[E _] | [_ ->]].
  - fold mask in E. rewrite E in Hin. contradiction.
  - repeat split.
Qed.

(** X10.  A blob whose centroid lies inside the image is never degenerate:
    its mask contains the centroid pixel, every masked pixel lies in the
    image within the sampling radius of the centroid, and the record holds
    the means over the masked pixels. *)
Theorem sampler_centroid_inside (np_sqrt : Q -> Q) (img : image) (S : plane)
    (b : blob) :
  (0 <= b_x b < Z.of_nat (length (hd [] img)))%Z ->
  (0 <= b_y b < Z.of_nat (length img))%Z ->
  let mask := mask_circle (length img) (length (hd [] img)) (b_x b) (b_y b)
                (sample_radius (b_r b)) in
  In (Z.to_nat (b_y b), Z.to_nat (b_x b)) mask
  /\ (forall Y X, In (Y, X) mask ->
        (Y < length img)%nat /\ (X < length (hd [] img))%nat
        /\ ((Z.of_nat X - b_x b) ^ 2 + (Z.of_nat Y - b_y b) ^ 2
            <= sample_radius (b_r b) * sample_radius (b_r b))%Z)
  /\ r_mean (sample_blob np_sqrt img S b)
     = np_mean (map (fun p => chan_r (pixel_at img p)) mask)
  /\ g_mean (sample_blob np_sqrt img S b)
     = np_mean (map (fun p => chan_g (pixel_at img p)) mask)
  /\ b_mean (sample_blob np_sqrt img S b)
     = np_mean (map (fun p => chan_b (pixel_at img p)) mask)
  /\ s_mean (sample_blob np_sqrt img S b)
     = np_mean (map (fun p => inject_Z (value_at S p)) mask).
Proof.
  exact (sampler_centroid_inside_lemma np_sqrt img S b).
Qed.

Lemma sampler_centroid_inside_witness :
  In (1%nat, 2%nat)
     (mask_circle 4 6 2 1 (sample_radius 2))
  /\ r_mean (sample_blob sqrt_floor tiny_image tiny_plane (mkBlob 2 1 2 80 1))
     = np_mean
         (map (fun p => chan_r (pixel_at tiny_image p))
            (mask_circle 4 6 2 1 (sample_radius 2))).
Proof.
  assert (Hx : (0 <= 2 < Z.of_nat (length (hd [] tiny_image)))%Z)
    by (simpl; lia).
  assert (Hy : (0 <= 1 < Z.of_nat (length tiny_image))%Z) by (simpl; lia).
  destruct (sampler_centroid_inside sqrt_floor tiny_image tiny_plane
              (mkBlob 2 1 2 80 1) Hx Hy) as (H1 & _ & H2 & _).
  split; [exact H1 | exact H2].
Defined.

Lemma nth_repeat_in {A : Type} (a d : A) (n i : nat) :
  (i < n)%nat -> nth i (repeat a n) d = a.
Proof.
  revert i. induction n as [| n IH]; intros [| i] H; simpl; try lia; auto.
  apply IH. lia.
Qed.

Lemma np_mean_constant (c : Q) (l : list Q) :
  l <> [] -> Forall (fun v => v == c) l -> np_mean l == c.
Proof.
  intros Hne Hall.
  destruct (np_mean_bounds c c l Hne) as [Hlo Hhi].
  - eapply Forall_impl; [| exact Hall]. intros v Hv. cbv beta in *. split; lra.
  - apply Qle_antisym; assumption.
Qed.

(** X11.  On a uniformly coloured image (and uniform saturation plane) a
    blob whose centroid lies inside the image is sampled with exactly that
    colour: the red, green, blue and saturation means equal the pixel
    values. *)
Theorem sampler_uniform_image (np_sqrt : Q -> Q) (px : Z * Z * Z) (sat : Z)
    (h w : nat) (b : blob) :
  (0 <= b_x b < Z.of_nat w)%Z ->
  (0 <= b_y b < Z.of_nat h)%Z ->
  let st := sample_blob np_sqrt (repeat (repeat px w) h)
              (repeat (repeat sat w) h) b in
  r_mean st == inject_Z (snd px)
  /\ g_mean st == inject_Z (snd (fst px))
  /\ b_mean st == inject_Z (fst (fst px))
  /\ s_mean st == inject_Z sat.
Proof.
  intros Hx Hy st. unfold st. clear st.
  set (img := repeat (repeat px w) h). set (S := repeat (repeat sat w) h).
  assert (Hh : length img = h) by apply repeat_length.
  assert (Hw : length (hd [] img) = w).
  { unfold img. destruct h as [| h]; [lia |]. simpl. apply repeat_length. }
  assert (Hx' : (0 <= b_x b < Z.of_nat (length (hd [] img)))%Z)
    by (rewrite Hw; exact Hx).
  assert (Hy' : (0 <= b_y b < Z.of_nat (length img))%Z)
    by (rewrite Hh; exact Hy).
  destruct (sampler_centroid_inside_lemma np_sqrt img S b Hx' Hy')
    as (Hin & Hb & -> & -> & -> & ->).
  set (mask := mask_circle _ _ _ _ _) in *.
  assert (Hne : forall A (f : nat * nat -> A), map f mask <> []).
  { intros A f E. apply map_eq_nil in E. rewrite E in Hin. contradiction. }
  assert (Hpx : forall p, In p mask -> pixel_at img p = px).
  { intros [Y X] Hp. destruct (Hb Y X Hp) as (HY & HX & _).
    unfold pixel_at, img. cbn [fst snd].
    rewrite (nth_repeat_in _ _ h Y) by lia.
    apply nth_repeat_in. lia. }
  assert (Hs : forall p, In p mask -> value_at S p = sat).
  { intros [Y X] Hp. destruct (Hb Y X Hp) as (HY & HX & _).
    unfold value_at, S. cbn [fst snd].
    rewrite (nth_repeat_in _ _ h Y) by lia.
    apply nth_repeat_in. lia. }
  repeat split; (apply np_mean_constant; [apply Hne |]);
    apply Forall_forall; intros v Hv;
    apply in_map_iff in Hv; destruct Hv as (p & <- & Hp);
    rewrite ?(Hpx p Hp), ?(Hs p Hp); reflexivity.
Qed.

Lemma sampler_uniform_image_witness :
  let st := sample_blob sqrt_floor (repeat (repeat (10, 20, 30)%Z 6) 4)
              (repeat (repeat 50%Z 6) 4) (mkBlob 2 1 2 80 1) in
  r_mean st == 30 /\ g_mean st == 20 /\ b_mean st == 10 /\ s_mean st == 50.
Proof.
  apply (sampler_uniform_image sqrt_floor (10, 20, 30)%Z 50%Z 4 6
           (mkBlob 2 1 2 80 1)); simpl; lia.
Defined.

(** ** Fit quality and the dense curve *)

Lemma fit_and_evaluate_record (np_sqrt : Q -> Q)
    (polyfit : list Q -> list Q -> list Q) (y x : list Q) (name : string)
    (cf : ChannelFit) :
  fit_and_evaluate np_sqrt polyfit y x name = Return cf ->
  exists x0 xs,
    x = x0 :: xs
    /\ cf = mkChannelFit (polyfit x y) (polyfit y x)
              (r2_score y (map (poly1d (polyfit x y)) x))
              (mean_absolute_error y (map (poly1d (polyfit x y)) x))
              (np_sqrt (mean_squared_error y (map (poly1d (polyfit x y)) x)))
              (np_linspace (fold_left Qmin xs x0) (fold_left Qmax xs x0) 50)
              (map (poly1d (polyfit x y))
                 (np_linspace (fold_left Qmin xs x0) (fold_left Qmax xs x0)
                    50))
              x y
              (map (fun v => np_clip v 0 10)
                 (map (poly1d (polyfit y x)) y)).
Proof.
  unfold fit_and_evaluate.
  destruct x as [| x0 xs]; [discriminate |].
  cbn [np_min np_max bind]. intro H. injection H as <-.
  exists x0, xs. split; reflexivity.
Qed.

Lemma Qsum_nonneg (l : list Q) : Forall (fun v => 0 <= v) l -> 0 <= Qsum l.
Proof.
  induction 1 as [| v l Hv _ IH]; unfold Qsum; cbn [fold_right].
  - lra.
  - fold (Qsum l). lra.
Qed.

Lemma zip_sq_diff_nonneg (ys ps : list Q) :
  Forall (fun v => 0 <= v) (zip_with sq_diff ys ps).
Proof.
  revert ps. induction ys as [| y ys IH]; intro ps.
  - constructor.
  - destruct ps as [| p ps]; simpl;
      [constructor | constructor; [apply Qsquare_nonneg | apply IH]].
Qed.

Lemma zip_abs_nonneg (ys ps : list Q) :
  Forall (fun v => 0 <= v) (zip_with (fun t p => Qabs (p - t)) ys ps).
Proof.
  revert ps. induction ys as [| y ys IH]; intro ps.
  - constructor.
  - destruct ps as [| p ps]; cbn [zip_with];
      [constructor | constructor; [apply Qabs_nonneg | apply IH]].
Qed.

Lemma r2_score_le_1 (ys ps : list Q) : r2_score ys ps <= 1.
Proof.
  unfold r2_score.
  pose proof (Qsum_nonneg _ (zip_sq_diff_nonneg ys ps)) as Hn.
  set (num := Qsum (zip_with sq_diff ys ps)) in *.
  set (den := Qsum (map (fun t => sq_diff t (np_mean ys)) ys)).
  assert (Hd : 0 <= den).
  { apply Qsum_nonneg, Forall_forall. intros v Hv.
    apply in_map_iff in Hv. destruct Hv as (t & <- & _).
    apply Qsquare_nonneg. }
  destruct (Qeq_bool den 0) eqn:Ed.
  - destruct (Qeq_bool num 0); [apply Qle_refl | discriminate].
  - apply Qeq_bool_neq in Ed.
    destruct (ratio_bounds num den 0 (num / den)) as [L _];
      [lra | lra | | ].
    + rewrite Qmult_comm. rewrite Qmult_div_r by exact Ed. apply Qle_refl.
    + set (q := num / den) in *. lra.
Qed.

(** X12.  For every returned channel fit, whatever the polynomial fit
    returns, R^2 is at most 1 and the mean absolute error is at least 0. *)
Theorem fit_quality_bounds (np_sqrt : Q -> Q)
    (polyfit : list Q -> list Q -> list Q) (y x : list Q) (name : string)
    (cf : ChannelFit) :
  fit_and_evaluate np_sqrt polyfit y x name = Return cf ->
  r2 cf <= 1 /\ 0 <= mae cf.
Proof.
  intro H.
  destruct (fit_and_evaluate_record _ _ _ _ _ _ H) as (x0 & xs & _ & ->).
  cbn [r2 mae].
  set (ps := map (poly1d (polyfit x y)) x).
  split; [apply r2_score_le_1 |].
  unfold mean_absolute_error, np_mean.
  pose proof (Qsum_nonneg _ (zip_abs_nonneg y ps)) as Hs.
  set (s := Qsum _) in *.
  set (n := Z.of_nat _).
  destruct (Z.eq_dec n 0) as [-> | Hn].
  - unfold Qdiv. change (/ inject_Z 0) with 0. lra.
  - assert (Hpos : 0 < inject_Z n).
    { change 0 with (inject_Z 0). rewrite <- Zlt_Qlt. unfold n in *. lia. }
    apply Qle_shift_div_l; [exact Hpos | lra].
Qed.

Lemma fit_quality_bounds_witness :
  exists cf,
    fit_and_evaluate sqrt_floor lstsq2 quadratic_readings CONCENTRATIONS "R"
    = Return cf
    /\ r2 cf <= 1 /\ 0 <= mae cf.
Proof.
  destruct (fit_and_evaluate_succeeds sqrt_floor lstsq2 quadratic_readings
              CONCENTRATIONS "R") as [cf H]; [discriminate |].
  exists cf. split; [exact H |].
  exact (fit_quality_bounds sqrt_floor lstsq2 quadratic_readings
           CONCENTRATIONS "R" cf H).
Defined.

Lemma Qmin_cases (a b : Q) :
  (Qmin a b = a /\ a <= b) \/ (Qmin a b = b /\ b <= a).
Proof.
  unfold Qmin, GenericMinMax.gmin.
  destruct (a ?= b) eqn:E.
  - left. split; [reflexivity |]. apply Qeq_alt in E. lra.
  - left. split; [reflexivity |]. apply Qlt_alt in E. lra.
  - right. split; [reflexivity |]. apply Qgt_alt in E. lra.
Qed.

Lemma Qmax_cases (a b : Q) :
  (Qmax a b = a /\ b <= a) \/ (Qmax a b = b /\ a <= b).
Proof.
  unfold Qmax, GenericMinMax.gmax.
  destruct (a ?= b) eqn:E.
  - left. split; [reflexivity |]. apply Qeq_alt in E. lra.
  - right. split; [reflexivity |]. apply Qlt_alt in E. lra.
  - left. split; [reflexivity |]. apply Qgt_alt in E. lra.
Qed.

Lemma fold_min_spec (l : list Q) (a : Q) :
  In (fold_left Qmin l a) (a :: l)
  /\ forall v, In v (a :: l) -> fold_left Qmin l a <= v.
Proof.
  revert a. induction l as [| b l IH]; intro a; cbn [fold_left].
  - split; [now left |]. intros v [<- | []]. apply Qle_refl.
  - destruct (IH (Qmin a b)) as [Hin Hle]. split.
    + destruct Hin as [E | Hin]; [| right; right; exact Hin].
      rewrite <- E.
      destruct (Qmin_cases a b) as [[-> _] | [-> _]];
        [now left | right; now left].
    + intros v Hv.
      assert (Hm : fold_left Qmin l (Qmin a b) <= Qmin a b)
        by (apply Hle; now left).
      destruct Hv as [<- | [<- | Hv]].
      * destruct (Qmin_cases a b) as [[E H] | [E H]]; rewrite E in Hm |- *; lra.
      * destruct (Qmin_cases a b) as [[E H] | [E H]]; rewrite E in Hm |- *; lra.
      * apply Hle. now right.
Qed.

Lemma fold_max_spec (l : list Q) (a : Q) :
  In (fold_left Qmax l a) (a :: l)
  /\ forall v, In v (a :: l) -> v <= fold_left Qmax l a.
Proof.
  revert a. induction l as [| b l IH]; intro a; cbn [fold_left].
  - split; [now left |]. intros v [<- | []]. apply Qle_refl.
  - destruct (IH (Qmax a b)) as [Hin Hle]. split.
    + destruct Hin as [E | Hin]; [| right; right; exact Hin].
      rewrite <- E.
      destruct (Qmax_cases a b) as [[-> _] | [-> _]];
        [now left | right; now left].
    + intros v Hv.
      assert (Hm : Qmax a b <= fold_left Qmax l (Qmax a b))
        by (apply Hle; now left).
      destruct Hv as [<- | [<- | Hv]].
      * destruct (Qmax_cases a b) as [[E H] | [E H]]; rewrite E in Hm |- *; lra.
      * destruct (Qmax_cases a b) as [[E H] | [E H]]; rewrite E in Hm |- *; lra.
      * apply Hle. now right.
Qed.

Lemma np_linspace_nth (start stop : Q) (num i : nat) :
  (i < num)%nat ->
  nth i (np_linspace start stop num) 0
  = start + inject_Z (Z.of_nat i)
            * ((stop - start) / inject_Z (Z.of_nat (num - 1))).
Proof.
  intro Hi. unfold np_linspace.
  set (f := fun i0 : nat => start + inject_Z (Z.of_nat i0) * _).
  rewrite (nth_indep _ 0 (f 0%nat)) by (rewrite length_map, length_seq; lia).
  rewrite map_nth, seq_nth by lia. reflexivity.
Qed.

(** X13.  The dense curve of every returned channel fit has 50 abscissae,
    evenly spaced from the smallest to the largest given concentration,
    nondecreasing, and its ordinates are the forward polynomial at those
    abscissae. *)
Theorem fit_curve_grid (np_sqrt : Q -> Q)
    (polyfit : list Q -> list Q -> list Q) (y x : list Q) (name : string)
    (cf : ChannelFit) :
  fit_and_evaluate np_sqrt polyfit y x name = Return cf ->
  length (fit_x cf) = 50%nat
  /\ fit_y cf = map (poly1d (coeffs cf)) (fit_x cf)
  /\ exists lo hi,
       In lo x /\ In hi x
       /\ (forall v, In v x -> lo <= v /\ v <= hi)
       /\ (forall i, (i < 50)%nat ->
             nth i (fit_x cf) 0
             = lo + inject_Z (Z.of_nat i) * ((hi - lo) / 49))
       /\ nth 0 (fit_x cf) 0 == lo
       /\ nth 49 (fit_x cf) 0 == hi
       /\ (forall i, (i < 49)%nat ->
             nth i (fit_x cf) 0 <= nth (S i) (fit_x cf) 0).
Proof.
  intro H.
  destruct (fit_and_evaluate_record _ _ _ _ _ _ H) as (x0 & xs & -> & ->).
  cbn [fit_x fit_y coeffs].
  split; [unfold np_linspace; now rewrite length_map, length_seq |].
  split; [reflexivity |].
  destruct (fold_min_spec xs x0) as [Hlo_in Hlo].
  destruct (fold_max_spec xs x0) as [Hhi_in Hhi].
  set (lo := fold_left Qmin xs x0) in *.
  set (hi := fold_left Qmax xs x0) in *.
  exists lo, hi.
  assert (Hnth : forall i, (i < 50)%nat ->
            nth i (np_linspace lo hi 50) 0
            = lo + inject_Z (Z.of_nat i) * ((hi - lo) / 49))
    by (intros i Hi; now rewrite np_linspace_nth by exact Hi).
  assert (Hord : lo <= hi) by (apply Hlo; exact Hhi_in).
  assert (Hstep : 0 <= (hi - lo) / 49)
    by (apply Qle_shift_div_l; [reflexivity | lra]).
  assert (E49 : (hi - lo) / 49 * 49 == hi - lo)
    by (apply Qdiv_mult_const; discriminate).
  set (step := (hi - lo) / 49) in *.
  repeat (split; [first [assumption | exact Hnth] |]).
  split; [intros v Hv; split; [now apply Hlo | now apply Hhi] |].
  split; [exact Hnth |].
  split; [rewrite Hnth by lia; cbn; ring |].
  split; [rewrite Hnth by lia; change (inject_Z (Z.of_nat 49)) with 49; lra |].
  intros i Hi. rewrite !Hnth by lia.
  rewrite Nat2Z.inj_succ. unfold Z.succ. rewrite inject_Z_plus.
  change (inject_Z 1) with 1. lra.
Qed.

Lemma fit_curve_grid_witness :
  exists cf,
    fit_and_evaluate sqrt_floor lstsq2 quadratic_readings CONCENTRATIONS "R"
    = Return cf
    /\ length (fit_x cf) = 50%nat
    /\ fit_y cf = map (poly1d (coeffs cf)) (fit_x cf).
Proof.
  destruct (fit_and_evaluate_succeeds sqrt_floor lstsq2 quadratic_readings
              CONCENTRATIONS "R") as [cf H]; [discriminate |].
  exists cf. split; [exact H |].
  destruct (fit_curve_grid sqrt_floor lstsq2 quadratic_readings
              CONCENTRATIONS "R" cf H) as (H1 & H2 & _).
  split; assumption.
Defined.

Lemma np_clip_id (v : Q) : 0 <= v -> v <= 10 -> np_clip v 0 10 == v.
Proof.
  intros H0 H1. unfold np_clip.
  destruct (Qmax_cases v 0) as [[E _] | [E Hv]]; rewrite E;
    [destruct (Qmin_cases v 10) as [[F _] | [F Hm]]
    | destruct (Qmin_cases 0 10) as [[F _] | [F Hm]]];
    rewrite F; lra.
Qed.

Lemma np_clip_compat (v w : Q) :
  v == w -> 0 <= w -> w <= 10 -> np_clip v 0 10 == w.
Proof.
  intros E H0 H1. rewrite <- E. apply np_clip_id; lra.
Qed.

(** X14.  Round trip of the inverse fit: when the concentrations are
    exactly a polynomial of degree at most 2 in at least three distinct
    readings and lie in [0, 10], the predicted concentrations are the
    concentrations themselves. *)
Theorem inverse_fit_round_trip (np_sqrt : Q -> Q) (ys xs : list Q)
    (a b c : Q) (name : string) :
  (3 <= length ys)%nat ->
  ForallOrdPairs (fun y y' => ~ y == y') ys ->
  Forall2 (fun y x => x == a * y * y + b * y + c) ys xs ->
  Forall (fun x => 0 <= x /\ x <= 10) xs ->
  exists cf : ChannelFit,
    fit_and_evaluate np_sqrt lstsq2 ys xs name = Return cf
    /\ Forall2 Qeq (predicted_concentration cf) xs.
Proof.
  intros Hlen Hd Hfit Hrange.
  assert (Hne : xs <> []).
  { intro E. subst xs. inversion Hfit; subst. simpl in Hlen. lia. }
  destruct (fit_and_evaluate_succeeds np_sqrt lstsq2 ys xs name Hne)
    as [cf Hcf].
  exists cf. split; [exact Hcf |].
  assert (Hc : Forall2 Qeq (lstsq2 ys xs) [a; b; c])
    by (apply lstsq2_exact; assumption).
  destruct (fit_and_evaluate_inv _ _ _ _ _ _ Hcf)
    as (_ & Ei & _ & _ & _ & ->).
  rewrite Ei. clear Hcf Ei Hlen Hd Hne.
  set (cs := lstsq2 ys xs) in *. clearbody cs.
  induction Hfit as [| y x ys xs Hx _ IH]; cbn [map].
  - constructor.
  - inversion Hrange as [| ? ? [H0 H1] Hr]; subst.
    constructor; [| exact (IH Hr)].
    apply np_clip_compat; [| exact H0 | exact H1].
    rewrite (poly1d_quadratic _ a b c y Hc). unfold quadratic.
    symmetry. exact Hx.
Qed.

Lemma inverse_fit_round_trip_witness :
  exists cf : ChannelFit,
    fit_and_evaluate sqrt_floor lstsq2 linear_readings CONCENTRATIONS "R"
    = Return cf
    /\ Forall2 Qeq (predicted_concentration cf) CONCENTRATIONS.
Proof.
  apply (inverse_fit_round_trip sqrt_floor linear_readings CONCENTRATIONS
           0 (- (1 # 2)) 10 "R").
  - simpl. lia.
  - repeat (constructor; [repeat (constructor; [discriminate |]); constructor |]).
    constructor.
  - repeat (constructor; [vm_compute; reflexivity |]). constructor.
  - repeat (constructor; [split; discriminate |]). constructor.
Defined.

(** ** The report *)

Lemma map_nth_seq {A B : Type} (f : A -> B) (l : list A) (d : A) :
  map (fun i => f (nth i l d)) (seq 0 (length l)) = map f l.
Proof.
  apply (nth_ext _ _ (f d) (f d)).
  - now rewrite !length_map, length_seq.
  - intros n Hn. rewrite length_map, length_seq in Hn.
    rewrite (map_nth f).
    rewrite (nth_indep _ (f d) ((fun i => f (nth i l d)) 0%nat))
      by (rewrite length_map, length_seq; exact Hn).
    rewrite (map_nth (fun i => f (nth i l d))), seq_nth by exact Hn.
    reflexivity.
Qed.

Lemma rgb_mean_of_nth (rgb_data : list color_stats) (i : nat) :
  (i < length rgb_data)%nat ->
  nth i (rgb_mean_of rgb_data) 0
  = (r_mean (nth i rgb_data zero_stats) + g_mean (nth i rgb_data zero_stats)
     + b_mean (nth i rgb_data zero_stats)) / 3.
Proof.
  intro Hi. unfold rgb_mean_of.
  rewrite (zip_with_nth _ _ _ i 0 0 0)
    by (rewrite ?zip_with_length, ?length_map; lia).
  rewrite (zip_with_nth Qplus _ _ i 0 0 0) by (rewrite ?length_map; lia).
  change 0 with (r_mean zero_stats) at 1. rewrite (map_nth r_mean).
  change 0 with (g_mean zero_stats) at 1. rewrite (map_nth g_mean).
  change 0 with (b_mean zero_stats) at 1. rewrite (map_nth b_mean).
  reflexivity.
Qed.

Section ReportShape.
Variable np_sqrt : Q -> Q.
Variable polyfit : list Q -> list Q -> list Q.

(** X15.  In a returned report the wells are numbered 1 to 11 in order,
    carry the reference concentrations 0.5, 1, 2, ..., 10 in order, and
    each well's RGB mean is the unweighted mean (r + g + b) / 3 of its own
    channel means. *)
Theorem report_wells_numbered (img : image) (S : plane) (cnts : list contour)
    (rep : report) :
  analyze_strip_image np_sqrt polyfit img S cnts = Return rep ->
  map well (color_values rep) = seq 1 11
  /\ map concentration (color_values rep) = CONCENTRATIONS
  /\ Forall (fun w => w_rgb_mean w = (w_r w + w_g w + w_b w) / 3)
       (color_values rep).
Proof.
  intro H. apply analyze_strip_image_inv in H.
  destruct H as (blobs & rgb_data & r_fit & g_fit & b_fit & rgb_fit & H).
  destruct H as (_ & _ & _ & Hlen & _ & _ & _ & _ & ->).
  cbn [color_values]. rewrite !map_map.
  split; [reflexivity |]. split; [reflexivity |].
  apply Forall_forall. intros w Hw.
  apply in_map_iff in Hw. destruct Hw as (i & <- & Hi).
  apply in_seq in Hi. cbn [well_of w_rgb_mean w_r w_g w_b].
  apply rgb_mean_of_nth. lia.
Qed.

(** X16.  The two halves of a returned report agree: every channel was
    fitted against the reference concentrations, its [actual_y] is the
    column of that channel in the well list, and [trial_metrics] repeats the
    red channel's R^2, MAE and RMSE. *)
Theorem report_channels_coherent (img : image) (S : plane)
    (cnts : list contour) (rep : report) :
  analyze_strip_image np_sqrt polyfit img S cnts = Return rep ->
  (actual_x (r_channel rep) = CONCENTRATIONS
   /\ actual_x (g_channel rep) = CONCENTRATIONS
   /\ actual_x (b_channel rep) = CONCENTRATIONS
   /\ actual_x (rgb_mean_channel rep) = CONCENTRATIONS)
  /\ (actual_y (r_channel rep) = map w_r (color_values rep)
      /\ actual_y (g_channel rep) = map w_g (color_values rep)
      /\ actual_y (b_channel rep) = map w_b (color_values rep)
      /\ actual_y (rgb_mean_channel rep)
         = map w_rgb_mean (color_values rep))
  /\ trial_metrics rep
     = mkMetrics (r2 (r_channel rep)) (mae (r_channel rep))
         (rmse (r_channel rep)).
Proof.
  intro H. apply analyze_strip_image_inv in H.
  destruct H as (blobs & rgb_data & r_fit & g_fit & b_fit & rgb_fit & H).
  destruct H as (_ & _ & _ & Hlen & Hr & Hg & Hb & Hm & ->).
  cbn [color_values r_channel g_channel b_channel rgb_mean_channel
       trial_metrics].
  apply fit_and_evaluate_inv in Hr, Hg, Hb, Hm.
  destruct Hr as (_ & _ & Xr & Yr & _).
  destruct Hg as (_ & _ & Xg & Yg & _).
  destruct Hb as (_ & _ & Xb & Yb & _).
  destruct Hm as (_ & _ & Xm & Ym & _).
  split; [repeat split; assumption |].
  split; [| reflexivity].
  rewrite Yr, Yg, Yb, Ym, !map_map. cbn [well_of w_r w_g w_b w_rgb_mean].
  rewrite <- Hlen.
  rewrite (map_nth_seq r_mean), (map_nth_seq g_mean), (map_nth_seq b_mean).
  repeat split.
  rewrite <- (rgb_mean_of_length rgb_data).
  rewrite (map_nth_seq (fun v : Q => v) (rgb_mean_of rgb_data) 0).
  now rewrite map_id.
Qed.
End ReportShape.

Lemma report_wells_numbered_witness :
  exists rep,
    analyze_strip_image sqrt_floor lstsq2 tiny_image tiny_plane sample_contours
    = Return rep
    /\ map well (color_values rep) = seq 1 11
    /\ map concentration (color_values rep) = CONCENTRATIONS.
Proof.
  destruct small_strip_succeeds as [rep H].
  exists rep. split; [exact H |].
  destruct (report_wells_numbered sqrt_floor lstsq2 tiny_image tiny_plane
              sample_contours rep H) as (H1 & H2 & _).
  split; assumption.
Defined.

Lemma report_channels_coherent_witness :
  exists rep,
    analyze_strip_image sqrt_floor lstsq2 tiny_image tiny_plane sample_contours
    = Return rep
    /\ actual_y (r_channel rep) = map w_r (color_values rep)
    /\ trial_metrics rep
       = mkMetrics (r2 (r_channel rep)) (mae (r_channel rep))
           (rmse (r_channel rep)).
Proof.
  destruct small_strip_succeeds as [rep H].
  exists rep. split; [exact H |].
  destruct (report_channels_coherent sqrt_floor lstsq2 tiny_image tiny_plane
              sample_contours rep H) as (_ & (H1 & _) & H2).
  split; assumption.
Defined.

(** X17.  When fewer than 11 blobs were detected, the wells beyond the
    detected ones carry no colour: their red, green, blue and saturation
    means are 0 and so is their RGB mean. *)
Theorem report_padded_wells_zero (np_sqrt : Q -> Q)
    (polyfit : list Q -> list Q -> list Q) (img : image) (S : plane)
    (cnts : list contour) (rep : report) (blobs : list blob) :
  analyze_strip_image np_sqrt polyfit img S cnts = Return rep ->
  detect_blobs cnts [] = Return blobs ->
  forall i w,
    (length blobs <= i)%nat ->
    nth_error (color_values rep) i = Some w ->
    w_r w = 0 /\ w_g w = 0 /\ w_b w = 0 /\ w_s_mean w = 0
    /\ w_rgb_mean w == 0.
Proof.
  intros H Hd i w Hi Hw.
  apply analyze_strip_image_inv in H.
  destruct H as (blobs' & rgb_data & r_fit & g_fit & b_fit & rgb_fit & H).
  destruct H as (Hd' & _ & Hdata & Hlen & _ & _ & _ & _ & ->).
  rewrite Hd in Hd'. injection Hd' as <-.
  cbn [color_values] in Hw.
  rewrite nth_error_map, nth_error_seq in Hw.
  destruct (i <? EXPECTED_COLS)%nat eqn:Ei; [| discriminate].
  apply Nat.ltb_lt in Ei. cbn in Hw. injection Hw as <-.
  assert (Hz : nth i rgb_data zero_stats = zero_stats).
  { rewrite Hdata.
    destruct (selected_stats_padded np_sqrt img S blobs) as [_ ->].
    set (stats := sample_blobs np_sqrt img S (select_blobs blobs)).
    assert (Hs : (length stats <= i)%nat).
    { unfold stats, sample_blobs.
      rewrite length_map, select_blobs_length. lia. }
    rewrite app_nth2 by lia. apply nth_repeat. }
  cbn [well_of w_r w_g w_b w_s_mean w_rgb_mean].
  rewrite rgb_mean_of_nth by lia. rewrite Hz.
  repeat split; reflexivity.
Qed.

Lemma color_values_length (np_sqrt : Q -> Q)
    (polyfit : list Q -> list Q -> list Q) (img : image) (S : plane)
    (cnts : list contour) (rep : report) :
  analyze_strip_image np_sqrt polyfit img S cnts = Return rep ->
  length (color_values rep) = EXPECTED_COLS.
Proof.
  intro H. apply analyze_strip_image_inv in H.
  destruct H as (blobs & rgb_data & r_fit & g_fit & b_fit & rgb_fit & H).
  destruct H as (_ & _ & _ & _ & _ & _ & _ & _ & ->).
  cbn [color_values]. now rewrite length_map, length_seq.
Qed.

Lemma report_padded_wells_zero_witness :
  exists rep w,
    analyze_strip_image sqrt_floor lstsq2 tiny_image tiny_plane sample_contours
    = Return rep
    /\ nth_error (color_values rep) 2 = Some w
    /\ w_r w = 0 /\ w_g w = 0 /\ w_b w = 0 /\ w_s_mean w = 0
    /\ w_rgb_mean w == 0.
Proof.
  destruct small_strip_succeeds as [rep H].
  destruct (nth_error (color_values rep) 2) as [w |] eqn:Ew.
  - exists rep, w. split; [exact H |]. split; [exact Ew |].
    destruct (detect_blobs sample_contours []) as [blobs | e] eqn:Ed.
    + apply (report_padded_wells_zero sqrt_floor lstsq2 tiny_image tiny_plane
               sample_contours rep blobs H Ed 2%nat w); [| exact Ew].
      vm_compute in Ed. injection Ed as <-. simpl. lia.
    + vm_compute in Ed. discriminate Ed.
  - exfalso. apply nth_error_None in Ew.
    rewrite (color_values_length _ _ _ _ _ _ H) in Ew.
    unfold EXPECTED_COLS in Ew. lia.
Defined.

(** ** From the decoded image to the response *)

Lemma py_max_spec (a b : Z) : py_max a b = Z.max a b.
Proof.
  unfold py_max. destruct (a <? b)%Z eqn:E.
  - apply Z.ltb_lt in E. lia.
  - apply Z.ltb_ge in E. lia.
Qed.

Lemma inject_Z_nonzero (m : Z) : m <> 0%Z -> ~ inject_Z m == 0.
Proof.
  intros Hm E. apply Hm.
  unfold Qeq in E. simpl in E. lia.
Qed.

Lemma threshold_mask_zero (S V : plane) :
  Forall2 (Forall2 (fun s v => ~ (35 < s /\ 40 < v)%Z)) S V ->
  Forall (Forall (fun p => p = 0%Z)) (threshold_mask S V).
Proof.
  unfold threshold_mask.
  induction 1 as [| srow vrow S V Hrow _ IH]; cbn [zip_with].
  - constructor.
  - constructor; [| exact IH].
    induction Hrow as [| s v srow vrow Hsv _ IHrow]; cbn [zip_with].
    + constructor.
    + constructor; [| exact IHrow].
      exact (proj2 (proj2 (mask_pixel_spec s v)) Hsv).
Qed.

Section ServiceFacts.
Variable np_sqrt : Q -> Q.
Variable polyfit : list Q -> list Q -> list Q.
Variable cv_resize : image -> Q -> outcome image.
Variable cv_split_hsv : image -> plane * plane * plane.
Variable cv_contours : plane -> list contour.
Variable cv_imdecode : list Byte.byte -> option image.

Let raw :=
  analyze_strip_image_raw np_sqrt polyfit cv_resize cv_split_hsv cv_contours.
Let endpoint :=
  analyze np_sqrt polyfit cv_resize cv_split_hsv cv_contours cv_imdecode.

(** X18.  The resize step: an image whose larger side is between 1 and
    800 pixels is used as it is and [cv2.resize] is not called; for a larger
    one the step is the call of [cv2.resize] with the factor 800 / larger
    side, which is positive and below 1 and maps the larger side to 800, and
    it returns or raises as that call does; with height and width both 0
    the step raises ZeroDivisionError. *)
Theorem resize_only_large_images (img : image) :
  let m := Z.max (Z.of_nat (length img)) (Z.of_nat (length (hd [] img))) in
  (m = 0%Z -> resize_for_consistency cv_resize img = Raise ZeroDivisionError)
  /\ ((0 < m <= 800)%Z -> resize_for_consistency cv_resize img = Return img)
  /\ ((800 < m)%Z ->
      resize_for_consistency cv_resize img
      = cv_resize img (800 / inject_Z m)
      /\ 0 < 800 / inject_Z m /\ 800 / inject_Z m < 1
      /\ 800 / inject_Z m * inject_Z m == 800).
Proof.
  intro m. unfold resize_for_consistency. cbv zeta.
  rewrite py_max_spec. fold m. unfold py_div.
  split; [| split].
  - intros ->. reflexivity.
  - intros [H0 H8].
    rewrite (Qeq_bool_false (inject_Z m) 0) by (apply inject_Z_nonzero; lia).
    cbn [bind].
    assert (Hm : 0 < inject_Z m)
      by (change 0 with (inject_Z 0); rewrite <- Zlt_Qlt; lia).
    assert (H800 : inject_Z m <= 800)
      by (change 800 with (inject_Z 800); rewrite <- Zle_Qle; lia).
    replace (Qltb (800 / inject_Z m) 1) with false; [reflexivity |].
    symmetry. apply Qltb_false_iff.
    apply Qle_shift_div_l; [exact Hm | lra].
  - intro H8.
    rewrite (Qeq_bool_false (inject_Z m) 0) by (apply inject_Z_nonzero; lia).
    cbn [bind].
    assert (Hm : 0 < inject_Z m)
      by (change 0 with (inject_Z 0); rewrite <- Zlt_Qlt; lia).
    assert (H800 : 800 < inject_Z m)
      by (change 800 with (inject_Z 800); rewrite <- Zlt_Qlt; lia).
    assert (Hlt : 800 / inject_Z m < 1)
      by (apply Qlt_shift_div_r; [exact Hm | lra]).
    replace (Qltb (800 / inject_Z m) 1) with true
      by (symmetry; apply Qltb_iff; exact Hlt).
    split; [reflexivity |].
    split; [apply Qlt_shift_div_l; [exact Hm | lra] |].
    split; [exact Hlt |].
    apply Qdiv_mult_const. lra.
Qed.

(** X19.  An image in which no pixel has saturation above 35 and value
    above 40 gives an all-zero mask; if OpenCV finds no contour in an
    all-zero mask, the analysis stops with the no-pads error. *)
Theorem colourless_image_no_pads (img img' : image) :
  resize_for_consistency cv_resize img = Return img' ->
  Forall2 (Forall2 (fun s v => ~ (35 < s /\ 40 < v)%Z))
    (snd (fst (cv_split_hsv img'))) (snd (cv_split_hsv img')) ->
  (forall mask, Forall (Forall (fun p => p = 0%Z)) mask ->
                cv_contours mask = []) ->
  analyze_strip_image_raw np_sqrt polyfit cv_resize cv_split_hsv cv_contours
    img
  = Raise (ValueError "No valid color pads detected on the strip.").
Proof.
  intros Hres Hpix Hcv. unfold analyze_strip_image_raw.
  rewrite Hres. cbn [bind]. cbv zeta.
  rewrite (Hcv _ (threshold_mask_zero _ _ Hpix)).
  reflexivity.
Qed.

(** X21.  An upload that decodes to a non-empty image in which no contour
    qualifies as a blob is answered with status 500 and the body
    "No valid color pads detected on the strip.": the error is reported as
    a server error. *)
Theorem analyze_no_pads_is_server_error (contents : list Byte.byte)
    (img img' : image) :
  contents <> [] ->
  cv_imdecode contents = Some img ->
  resize_for_consistency cv_resize img = Return img' ->
  (forall c,
      In c (cv_contours
              (threshold_mask (snd (fst (cv_split_hsv img')))
                 (snd (cv_split_hsv img')))) ->
      retained c = false) ->
  analyze np_sqrt polyfit cv_resize cv_split_hsv cv_contours cv_imdecode
    contents
  = mkResponse 500 (inl "No valid color pads detected on the strip."%string).
Proof.
  intros Hne Hdec Hres Hnone. unfold analyze.
  destruct contents as [| c contents]; [contradiction |].
  rewrite Hdec. unfold analyze_strip_image_raw.
  rewrite Hres. cbn [bind]. cbv zeta.
  set (cnts := cv_contours _) in *.
  destruct (analyze_strip_image_cases np_sqrt polyfit img'
              (snd (fst (cv_split_hsv img'))) cnts) as [[_ ->] | [Hb _]].
  - reflexivity.
  - exfalso. apply Hb.
    assert (E : filter retained cnts = []).
    { destruct (filter retained cnts) as [| c0 l] eqn:Ef; [reflexivity |].
      assert (Hin : In c0 (filter retained cnts)) by (rewrite Ef; now left).
      apply filter_In in Hin. destruct Hin as [Hin Hr].
      rewrite (Hnone c0 Hin) in Hr. discriminate. }
    now rewrite E.
Qed.

(** X22.  A response with status 200 always carries a report with exactly
    11 wells; any other response carries an error message. *)
Theorem analyze_body (contents : list Byte.byte) :
  let resp := endpoint contents in
  (status_code resp = 200%Z ->
   exists rep, content resp = inr rep /\ length (color_values rep) = 11%nat)
  /\ (status_code resp <> 200%Z -> exists msg, content resp = inl msg).
Proof.
  intro resp. unfold resp, endpoint, analyze.
  destruct contents as [| c contents].
  - cbn. split; [intro H; discriminate H | intros _; eexists; reflexivity].
  - destruct (cv_imdecode (c :: contents)) as [img |].
    + destruct (analyze_strip_image_raw _ _ _ _ _ img) as [rep | e] eqn:Er;
        cbn.
      * split; [| intro H; contradiction].
        intros _. exists rep. split; [reflexivity |].
        unfold analyze_strip_image_raw in Er.
        destruct (resize_for_consistency cv_resize img) as [img' | e'];
          [| discriminate Er].
        cbn [bind] in Er. cbv zeta in Er.
        exact (color_values_length _ _ _ _ _ _ Er).
      * split; [intro H; discriminate H | intros _; eexists; reflexivity].
    + cbn. split; [intro H; discriminate H | intros _; eexists; reflexivity].
Qed.

End ServiceFacts.

Lemma stub_contours_zero (mask : plane) :
  Forall (Forall (fun p => p = 0%Z)) mask -> stub_contours mask = [].
Proof.
  intro H. unfold stub_contours.
  replace (forallb (forallb (Z.eqb 0)) mask) with true; [reflexivity |].
  symmetry. apply forallb_forall. intros row Hrow.
  apply forallb_forall. intros p Hp.
  rewrite Forall_forall in H. specialize (H row Hrow).
  rewrite Forall_forall in H. rewrite (H p Hp). reflexivity.
Qed.

Lemma colourless_image_no_pads_witness :
  analyze_strip_image_raw sqrt_floor lstsq2 stub_resize stub_split_hsv
    stub_contours grey_image
  = Raise (ValueError "No valid color pads detected on the strip.").
Proof.
  apply (colourless_image_no_pads sqrt_floor lstsq2 stub_resize
           stub_split_hsv stub_contours grey_image grey_image).
  - reflexivity.
  - cbn. repeat constructor; lia.
  - exact stub_contours_zero.
Defined.

Lemma analyze_no_pads_is_server_error_witness :
  analyze sqrt_floor lstsq2 stub_resize stub_split_hsv stub_contours
    stub_imdecode [Byte.x32; Byte.x3c]
  = mkResponse 500 (inl "No valid color pads detected on the strip."%string).
Proof.
  apply (analyze_no_pads_is_server_error sqrt_floor lstsq2 stub_resize
           stub_split_hsv stub_contours stub_imdecode
           [Byte.x32; Byte.x3c] grey_image grey_image).
  - discriminate.
  - reflexivity.
  - reflexivity.
  - intros c Hc. vm_compute in Hc. contradiction.
Defined.

Example analyze_rejects_empty_and_undecodable :
  analyze sqrt_floor lstsq2 stub_resize stub_split_hsv stub_contours
    stub_imdecode []
  = mkResponse 400 (inl "Empty file"%string)
  /\ analyze sqrt_floor lstsq2 stub_resize stub_split_hsv stub_contours
       stub_imdecode [Byte.x00; Byte.x3c]
     = mkResponse 400 (inl "Failed to decode image"%string).
Proof. split; reflexivity. Qed.

(** ** Channels that cannot be fitted *)

(** Calibration of 11 records with the error path of [np.polyfit]: the
    first channel that is 0 in every record stops it. *)
Lemma calibrate_np_cases (np_sqrt : Q -> Q)
    (lstsq : list Q -> list Q -> list Q) (rgb_data : list color_stats) :
  length rgb_data = EXPECTED_COLS ->
  (zero_channel rgb_data = true ->
   calibrate_np np_sqrt lstsq rgb_data = Raise (ValueError svd_message))
  /\ (zero_channel rgb_data = false ->
      calibrate_np np_sqrt lstsq rgb_data = calibrate np_sqrt lstsq rgb_data).
Proof.
  intro Hlen.
  assert (Hx : CONCENTRATIONS <> []) by discriminate.
  assert (Zx : all_zero CONCENTRATIONS = false) by reflexivity.
  assert (Lr : length (map r_mean rgb_data) = length CONCENTRATIONS)
    by (rewrite length_map; exact Hlen).
  assert (Lg : length (map g_mean rgb_data) = length CONCENTRATIONS)
    by (rewrite length_map; exact Hlen).
  assert (Lb : length (map b_mean rgb_data) = length CONCENTRATIONS)
    by (rewrite length_map; exact Hlen).
  assert (Lm : length (rgb_mean_of rgb_data) = length CONCENTRATIONS)
    by (rewrite rgb_mean_of_length; exact Hlen).
  unfold zero_channel, calibrate_np, calibrate. cbv zeta.
  fold (rgb_mean_of rgb_data).
  set (R := map r_mean rgb_data) in *.
  set (G := map g_mean rgb_data) in *.
  set (B := map b_mean rgb_data) in *.
  set (M := rgb_mean_of rgb_data) in *.
  destruct (all_zero R) eqn:ER.
  { rewrite (fit_and_evaluate_np_zero_channel np_sqrt lstsq R _ "R" Hx Lr Zx ER).
    split; [reflexivity | discriminate]. }
  rewrite (fit_and_evaluate_np_regular np_sqrt lstsq R _ "R" Hx Lr Zx ER).
  destruct (fit_and_evaluate_succeeds np_sqrt lstsq R _ "R" Hx) as [r_fit ->].
  cbn [bind orb].
  destruct (all_zero G) eqn:EG.
  { rewrite (fit_and_evaluate_np_zero_channel np_sqrt lstsq G _ "G" Hx Lg Zx EG).
    split; [reflexivity | discriminate]. }
  rewrite (fit_and_evaluate_np_regular np_sqrt lstsq G _ "G" Hx Lg Zx EG).
  destruct (fit_and_evaluate_succeeds np_sqrt lstsq G _ "G" Hx) as [g_fit ->].
  cbn [bind orb].
  destruct (all_zero B) eqn:EB.
  { rewrite (fit_and_evaluate_np_zero_channel np_sqrt lstsq B _ "B" Hx Lb Zx EB).
    split; [reflexivity | discriminate]. }
  rewrite (fit_and_evaluate_np_regular np_sqrt lstsq B _ "B" Hx Lb Zx EB).
  destruct (fit_and_evaluate_succeeds np_sqrt lstsq B _ "B" Hx) as [b_fit ->].
  cbn [bind orb].
  destruct (all_zero M) eqn:EM.
  { rewrite (fit_and_evaluate_np_zero_channel np_sqrt lstsq M _ "RGB_mean"
               Hx Lm Zx EM).
    split; [reflexivity | discriminate]. }
  rewrite (fit_and_evaluate_np_regular np_sqrt lstsq M _ "RGB_mean"
             Hx Lm Zx EM).
  split; [discriminate | reflexivity].
Qed.

(** X20.  With the error path of [np.polyfit]: once at least one blob is
    detected, the analysis raises [LinAlgError] when one of the four fitted
    channels (R, G, B, RGB mean) of the 11 padded colour records is 0 in
    every well, and otherwise it returns a report, the one of the analysis
    in which no fit raises. *)
Theorem analysis_stops_on_zero_channel (np_sqrt : Q -> Q)
    (lstsq : list Q -> list Q -> list Q) (img : image) (S : plane)
    (cnts : list contour) (b : blob) (blobs : list blob) :
  detect_blobs cnts [] = Return (b :: blobs) ->
  let rgb_data :=
    pad_or_truncate (sample_blobs np_sqrt img S (select_blobs (b :: blobs))) in
  (zero_channel rgb_data = true ->
   analyze_strip_image_np np_sqrt lstsq img S cnts
   = Raise (ValueError "SVD did not converge in Linear Least Squares"))
  /\ (zero_channel rgb_data = false ->
      exists rep,
        analyze_strip_image_np np_sqrt lstsq img S cnts = Return rep
        /\ analyze_strip_image np_sqrt lstsq img S cnts = Return rep).
Proof.
  intros Hd rgb_data.
  assert (Hlen : length rgb_data = EXPECTED_COLS)
    by apply pad_or_truncate_length.
  destruct (calibrate_np_cases np_sqrt lstsq rgb_data Hlen) as [Hz Hr].
  unfold analyze_strip_image_np, analyze_strip_image.
  rewrite Hd. cbn [bind]. cbv zeta. fold rgb_data.
  split.
  - intro Z. exact (Hz Z).
  - intro Z. rewrite (Hr Z).
    destruct (calibrate_eleven np_sqrt lstsq rgb_data Hlen)
      as (r_fit & g_fit & b_fit & rgb_fit & _ & _ & _ & _ & ->).
    eexists. split; reflexivity.
Qed.

Lemma analysis_stops_on_zero_channel_witness :
  analyze_strip_image_np sqrt_floor lstsq2 blueless_image tiny_plane
    sample_contours
  = Raise (ValueError "SVD did not converge in Linear Least Squares").
Proof.
  destruct (detect_blobs sample_contours []) as [[| b blobs] | e] eqn:E;
    try (vm_compute in E; discriminate E).
  refine (proj1 (analysis_stops_on_zero_channel sqrt_floor lstsq2
                   blueless_image tiny_plane sample_contours b blobs E) _).
  vm_compute in E. injection E as <- <-.
  vm_compute. reflexivity.
Defined.

(** ** The forward fit as a least-squares optimum *)

(** The squared residuals of a quadratic, expanded in the moments of the
    data. *)
Lemma residual_ss_moments (u v w : Q) (xs ys : list Q) :
  length ys = length xs ->
  residual_ss [u; v; w] xs ys
  == Qsum (map (fun y => y * y) ys)
     - 2 * (u * mmix (fun x => x * x) xs ys + v * mmix (fun x => x) xs ys
            + w * mmix (fun _ => 1) xs ys)
     + (u * u * msum (fun x => x * x * x * x) xs
        + 2 * u * v * msum (fun x => x * x * x) xs
        + (v * v + 2 * u * w) * msum (fun x => x * x) xs
        + 2 * v * w * msum (fun x => x) xs
        + w * w * msum (fun _ => 1) xs).
Proof.
  revert ys. induction xs as [| x xs IH]; intros [| y ys] Hlen;
    try discriminate Hlen.
  - unfold residual_ss, mmix, msum. simpl. ring.
  - injection Hlen as Hlen. specialize (IH ys Hlen).
    unfold residual_ss in *. cbn [map zip_with].
    rewrite !mmix_cons, !msum_cons.
    unfold Qsum in *. cbn [fold_right].
    rewrite IH. unfold sq_diff, poly1d. cbn [fold_left]. ring.
Qed.

Lemma square_sum_moments (u v w : Q) (xs : list Q) :
  0 <= u * u * msum (fun x => x * x * x * x) xs
       + 2 * u * v * msum (fun x => x * x * x) xs
       + (v * v + 2 * u * w) * msum (fun x => x * x) xs
       + 2 * v * w * msum (fun x => x) xs
       + w * w * msum (fun _ => 1) xs.
Proof.
  induction xs as [| x xs IH].
  - unfold msum. simpl. lra.
  - rewrite !msum_cons.
    pose proof (Qsquare_nonneg (u * (x * x) + v * x + w)) as Hsq.
    set (s4 := msum (fun x => x * x * x * x) xs) in *.
    set (s3 := msum (fun x => x * x * x) xs) in *.
    set (s2 := msum (fun x => x * x) xs) in *.
    set (s1 := msum (fun x => x) xs) in *.
    set (s0 := msum (fun _ => 1) xs) in *.
    assert (E : u * u * (x * x * x * x + s4) + 2 * u * v * (x * x * x + s3)
                + (v * v + 2 * u * w) * (x * x + s2) + 2 * v * w * (x + s1)
                + w * w * (1 + s0)
                == (u * u * s4 + 2 * u * v * s3 + (v * v + 2 * u * w) * s2
                    + 2 * v * w * s1 + w * w * s0)
                   + (u * (x * x) + v * x + w) * (u * (x * x) + v * x + w))
      by ring.
    rewrite E. lra.
Qed.

(** The Cramer solution satisfies the normal equations. *)
Lemma lstsq2_normal_equations (xs ys : list Q) :
  ~ gram_det xs == 0 ->
  exists a b c,
    lstsq2 xs ys = [a; b; c]
    /\ msum (fun x => x * x * x * x) xs * a + msum (fun x => x * x * x) xs * b
       + msum (fun x => x * x) xs * c == mmix (fun x => x * x) xs ys
    /\ msum (fun x => x * x * x) xs * a + msum (fun x => x * x) xs * b
       + msum (fun x => x) xs * c == mmix (fun x => x) xs ys
    /\ msum (fun x => x * x) xs * a + msum (fun x => x) xs * b
       + msum (fun _ => 1) xs * c == mmix (fun _ => 1) xs ys.
Proof.
  intro Hd. unfold lstsq2, gram_det in *. cbv zeta in *.
  set (s0 := msum (fun _ => 1) xs) in *.
  set (s1 := msum (fun x => x) xs) in *.
  set (s2 := msum (fun x => x * x) xs) in *.
  set (s3 := msum (fun x => x * x * x) xs) in *.
  set (s4 := msum (fun x => x * x * x * x) xs) in *.
  set (t0 := mmix (fun _ => 1) xs ys).
  set (t1 := mmix (fun x => x) xs ys).
  set (t2 := mmix (fun x => x * x) xs ys).
  eexists. eexists. eexists. split; [reflexivity |].
  unfold det3 in *.
  repeat split; field; exact Hd.
Qed.

(** On at least three distinct abscissae the normal-equation solution has
    the smallest sum of squared residuals among all quadratics. *)
Lemma lstsq2_minimises (xs ys : list Q) (u v w : Q) :
  (3 <= length xs)%nat -> distinct xs -> length ys = length xs ->
  residual_ss (lstsq2 xs ys) xs ys <= residual_ss [u; v; w] xs ys.
Proof.
  intros Hlen Hd Hl.
  pose proof (gram_det_distinct xs Hlen Hd) as Hpos.
  destruct (lstsq2_normal_equations xs ys) as (a & b & c & -> & N2 & N1 & N0);
    [lra |].
  rewrite (residual_ss_moments a b c xs ys Hl).
  rewrite (residual_ss_moments u v w xs ys Hl).
  pose proof (square_sum_moments (u - a) (v - b) (w - c) xs) as Hsq.
  rewrite <- N2, <- N1, <- N0.
  set (s0 := msum (fun _ => 1) xs) in *.
  set (s1 := msum (fun x => x) xs) in *.
  set (s2 := msum (fun x => x * x) xs) in *.
  set (s3 := msum (fun x => x * x * x) xs) in *.
  set (s4 := msum (fun x => x * x * x * x) xs) in *.
  set (yy := Qsum (map (fun y => y * y) ys)).
  apply Qle_minus_iff.
  match goal with
  | |- 0 <= ?e =>
      assert (E : e == (u - a) * (u - a) * s4 + 2 * (u - a) * (v - b) * s3
                       + ((v - b) * (v - b) + 2 * (u - a) * (w - c)) * s2
                       + 2 * (v - b) * (w - c) * s1 + (w - c) * (w - c) * s0)
        by ring
  end.
  rewrite E. exact Hsq.
Qed.

Lemma total_ss_as_residual (m : Q) (xs ys : list Q) :
  length ys = length xs ->
  Qsum (map (fun t => sq_diff t m) ys) == residual_ss [0; 0; m] xs ys.
Proof.
  unfold residual_ss. revert ys.
  induction xs as [| x xs IH]; intros [| y ys] Hlen; try discriminate Hlen.
  - reflexivity.
  - injection Hlen as Hlen. cbn [map zip_with].
    unfold Qsum in *. cbn [fold_right]. rewrite (IH ys Hlen).
    unfold sq_diff, poly1d. cbn [fold_left]. ring.
Qed.

(** X23.  With the exact least-squares solution as the solver of
    [np.polyfit] and at least three distinct concentrations, the forward
    polynomial of every returned channel fit has the smallest sum of squared
    residuals among all quadratics, and its R^2 lies between 0 and 1. *)
Theorem forward_fit_is_optimal (np_sqrt : Q -> Q) (xs ys : list Q)
    (name : string) (cf : ChannelFit) :
  (3 <= length xs)%nat ->
  ForallOrdPairs (fun x x' => ~ x == x') xs ->
  fit_and_evaluate_np np_sqrt lstsq2 ys xs name = Return cf ->
  (forall u v w : Q,
      residual_ss (coeffs cf) xs ys <= residual_ss [u; v; w] xs ys)
  /\ 0 <= r2 cf /\ r2 cf <= 1.
Proof.
  intros Hlen Hd Hnp.
  destruct (fit_and_evaluate_np_inv _ _ _ _ _ _ Hnp)
    as (_ & Hl & _ & _ & Hcf).
  destruct (fit_and_evaluate_inv _ _ _ _ _ _ Hcf) as (Ec & _ & _ & _ & Er & _).
  rewrite Er, Ec.
  split; [intros u v w; now apply lstsq2_minimises |].
  split; [| apply r2_score_le_1].
  unfold r2_score.
  pose proof (lstsq2_minimises xs ys 0 0 (np_mean ys) Hlen Hd Hl) as Hmin.
  rewrite <- (total_ss_as_residual (np_mean ys) xs ys Hl) in Hmin.
  unfold residual_ss in Hmin.
  pose proof (Qsum_nonneg _ (zip_sq_diff_nonneg ys
                               (map (poly1d (lstsq2 xs ys)) xs))) as Hn.
  set (num := Qsum (zip_with sq_diff ys _)) in *.
  set (den := Qsum (map (fun t => sq_diff t (np_mean ys)) ys)) in *.
  destruct (Qeq_bool den 0) eqn:Ed.
  - destruct (Qeq_bool num 0); discriminate.
  - apply Qeq_bool_neq in Ed.
    destruct (ratio_bounds num den 0 1) as [_ U]; [lra | lra | lra |].
    set (q := num / den) in *. lra.
Qed.

Lemma forward_fit_is_optimal_witness :
  exists cf : ChannelFit,
    fit_and_evaluate_np sqrt_floor lstsq2 noisy_readings CONCENTRATIONS "R"
    = Return cf
    /\ 0 <= r2 cf /\ r2 cf <= 1.
Proof.
  assert (Hd : ForallOrdPairs (fun x x' => ~ x == x') CONCENTRATIONS).
  { repeat (constructor; [repeat (constructor; [discriminate |]); constructor |]).
    constructor. }
  assert (Hs : exists cf,
             fit_and_evaluate_np sqrt_floor lstsq2 noisy_readings
               CONCENTRATIONS "R" = Return cf).
  { rewrite fit_and_evaluate_np_regular;
      [apply fit_and_evaluate_succeeds | | | |];
      try reflexivity; discriminate. }
  destruct Hs as [cf H]. exists cf. split; [exact H |].
  assert (Hlen : (3 <= length CONCENTRATIONS)%nat) by (simpl; lia).
  exact (proj2 (forward_fit_is_optimal sqrt_floor CONCENTRATIONS
                  noisy_readings "R" cf Hlen Hd H)).
Defined.

(** ** Integer geometry of a blob *)

(** [int] truncates toward zero: it is the floor of a non-negative number
    and the ceiling of a non-positive one. *)
Lemma py_int_spec (q : Q) :
  (0 <= q -> inject_Z (py_int q) <= q /\ q < inject_Z (py_int q) + 1)
  /\ (q <= 0 -> inject_Z (py_int q) - 1 < q /\ q <= inject_Z (py_int q)).
Proof.
  destruct q as [n d]. unfold py_int. cbn [Qnum Qden].
  pose proof (Z.quot_rem' n (Z.pos d)) as E.
  pose proof (Z.rem_bound_abs n (Z.pos d) ltac:(lia)) as Hr.
  set (k := (n ÷ Z.pos d)%Z) in *. set (r := Z.rem n (Z.pos d)) in *.
  unfold Qlt, Qle, Qminus, Qplus, Qopp, inject_Z. cbn [Qnum Qden].
  split; intro H.
  - assert (H0 : (0 <= n)%Z) by nia.
    pose proof (Z.rem_nonneg n (Z.pos d) ltac:(lia) H0) as Hp.
    fold r in Hp. split; nia.
  - assert (H0 : (n <= 0)%Z) by nia.
    pose proof (Z.rem_nonpos n (Z.pos d) ltac:(lia) H0) as Hp.
    fold r in Hp. split; nia.
Qed.

(** [round] takes the nearest integer, and the even one of the two when
    the number lies half-way. *)
Lemma py_round_spec (q : Q) :
  inject_Z (py_round q) - (1 # 2) <= q
  /\ q <= inject_Z (py_round q) + (1 # 2)
  /\ (q == inject_Z (py_round q) - (1 # 2)
      \/ q == inject_Z (py_round q) + (1 # 2) ->
      Z.even (py_round q) = true).
Proof.
  unfold py_round.
  pose proof (Qfloor_le q) as Hlo.
  pose proof (Qlt_floor q) as Hhi.
  rewrite inject_Z_plus in Hhi. change (inject_Z 1) with 1 in Hhi.
  set (f := Qfloor q) in *.
  destruct (Qltb (q - inject_Z f) (1 # 2)) eqn:E1.
  - apply Qltb_iff in E1.
    split; [lra |]. split; [lra |]. intros [T | T]; exfalso; lra.
  - apply Qltb_false_iff in E1.
    destruct (Qltb (1 # 2) (q - inject_Z f)) eqn:E2.
    + apply Qltb_iff in E2.
      rewrite inject_Z_plus. change (inject_Z 1) with 1.
      split; [lra |]. split; [lra |]. intros [T | T]; exfalso; lra.
    + apply Qltb_false_iff in E2.
      destruct (Z.even f) eqn:Ev.
      * split; [lra |]. split; [lra |]. intros _. exact Ev.
      * rewrite inject_Z_plus. change (inject_Z 1) with 1.
        split; [lra |]. split; [lra |]. intros _.
        change (f + 1)%Z with (Z.succ f).
        rewrite Z.even_succ, <- Z.negb_even, Ev. reflexivity.
Qed.

(** X24.  Every returned blob is its contour's enclosing circle in whole
    pixels: each centre coordinate is the circle's truncated toward zero
    (its floor when non-negative, its ceiling when non-positive), and the
    radius is the circle's rounded to the nearest integer, to the even one
    when it lies half-way. *)
Theorem blob_geometry_rounding (cnts : list contour) (blobs : list blob) :
  detect_blobs cnts [] = Return blobs ->
  Forall
    (fun b =>
       exists c x y r,
         In c cnts /\ minEnclosingCircle c = (x, y, r)
         /\ ((0 <= x -> inject_Z (b_x b) <= x /\ x < inject_Z (b_x b) + 1)
             /\ (x <= 0 ->
                 inject_Z (b_x b) - 1 < x /\ x <= inject_Z (b_x b)))
         /\ ((0 <= y -> inject_Z (b_y b) <= y /\ y < inject_Z (b_y b) + 1)
             /\ (y <= 0 ->
                 inject_Z (b_y b) - 1 < y /\ y <= inject_Z (b_y b)))
         /\ (inject_Z (b_r b) - (1 # 2) <= r
             /\ r <= inject_Z (b_r b) + (1 # 2)
             /\ (r == inject_Z (b_r b) - (1 # 2)
                 \/ r == inject_Z (b_r b) + (1 # 2) ->
                 Z.even (b_r b) = true)))
    blobs.
Proof.
  rewrite detect_blobs_spec. cbn [app]. intro H. injection H as <-.
  apply Forall_forall. intros b Hb.
  apply in_map_iff in Hb. destruct Hb as (c & <- & Hc).
  apply filter_In in Hc. destruct Hc as [Hin _].
  destruct (minEnclosingCircle c) as [[x y] r] eqn:Ec.
  exists c, x, y, r.
  split; [exact Hin |]. split; [exact Ec |].
  unfold blob_of. rewrite Ec. cbn [b_x b_y b_r].
  split; [exact (py_int_spec x) |].
  split; [exact (py_int_spec y) | exact (py_round_spec r)].
Qed.

Lemma blob_geometry_rounding_witness :
  exists blobs,
    detect_blobs sample_contours [] = Return blobs
    /\ map (fun b => (b_x b, b_y b, b_r b)) blobs = [(2, 1, 2); (0, 1, 2)]%Z
    /\ Forall
         (fun b =>
            exists c x y r,
              In c sample_contours /\ minEnclosingCircle c = (x, y, r)
              /\ ((0 <= x ->
                   inject_Z (b_x b) <= x /\ x < inject_Z (b_x b) + 1)
                  /\ (x <= 0 ->
                      inject_Z (b_x b) - 1 < x /\ x <= inject_Z (b_x b)))
              /\ ((0 <= y ->
                   inject_Z (b_y b) <= y /\ y < inject_Z (b_y b) + 1)
                  /\ (y <= 0 ->
                      inject_Z (b_y b) - 1 < y /\ y <= inject_Z (b_y b)))
              /\ (inject_Z (b_r b) - (1 # 2) <= r
                  /\ r <= inject_Z (b_r b) + (1 # 2)
                  /\ (r == inject_Z (b_r b) - (1 # 2)
                      \/ r == inject_Z (b_r b) + (1 # 2) ->
                      Z.even (b_r b) = true)))
         blobs.
Proof.
  destruct (detect_blobs sample_contours []) as [blobs | e] eqn:E.
  - exists blobs. split; [reflexivity |].
    split; [| exact (blob_geometry_rounding sample_contours blobs E)].
    vm_compute in E. injection E as <-. reflexivity.
  - vm_compute in E. discriminate E.
Defined.
